(** * Negacyclic polynomial arithmetic: a shallow embedding of the Go package
    [negacyclic] and the verification of its multiplication kernels.

    Conventions of the embedding.
    - [*big.Int] values are modelled by [Z]; a [Polynomial] is the record of
      its coefficient slice, a [list Z].  The in-place updates of the Go code
      ([a.Coeffs[j].Add(u, v).Mod(...)]) become list updates; the entries of a
      polynomial are assumed not to alias each other.
    - Go [int] values that are slice lengths or indices are modelled by [nat]
      (they are bounded by the length of an allocated slice).  The entries
      of a [Vector] are [int]s that the code computes with: they are
      modelled by [Z], and the wrap-around of 64-bit arithmetic is written
      out ([wrap_int]).
    - A Go call either returns or panics: [outcome] has [Ret] and [Panic].
      Loops whose number of iterations is not syntactically bounded take a
      fuel argument and yield [Timeout] when it runs out. *)

From Stdlib Require Import String.
From Stdlib Require Import ZArith QArith List Lia Bool Arith Zcong.
From Stdlib Require Import Morphisms Setoid.
From Stdlib Require Zmod.ZmodInv.
Import ListNotations.

Local Open Scope Z_scope.

(* ================================================================== *)
(** ** Outcomes of Go calls *)

Inductive outcome (A : Type) : Type :=
| Ret (a : A)
| Panic (msg : string)
| Timeout.

Arguments Ret {A} a.
Arguments Panic {A} msg.
Arguments Timeout {A}.

Definition bind {A B : Type} (c : outcome A) (k : A -> outcome B) : outcome B :=
  match c with
  | Ret a => k a
  | Panic msg => Panic msg
  | Timeout => Timeout
  end.

Notation "x <- c ;; k" := (bind c (fun x => k))
  (at level 61, c at next level, right associativity).
Notation "' pat <- c ;; k" := (bind c (fun x => match x with pat => k end))
  (at level 61, pat pattern, c at next level, right associativity).

(** [for j := start; j < start + cnt; j++ { a = body j a }]. *)
Fixpoint for_loop {A : Type} (cnt : nat) (j : nat)
         (body : nat -> A -> outcome A) (a : A) : outcome A :=
  match cnt with
  | O => Ret a
  | S c => a' <- body j a ;; for_loop c (S j) body a'
  end.

(* ================================================================== *)
(** ** Slices *)

(** [l[i]]: a read out of range is a run-time panic. *)
Definition index (l : list Z) (i : nat) : outcome Z :=
  match nth_error l i with
  | Some v => Ret v
  | None => Panic "index out of range"
  end.

Fixpoint upd (l : list Z) (i : nat) (v : Z) : list Z :=
  match l, i with
  | [], _ => []
  | _ :: tl, O => v :: tl
  | hd :: tl, S i' => hd :: upd tl i' v
  end.

(** [l[i] = v]: a write out of range is a run-time panic. *)
Definition store (l : list Z) (i : nat) (v : Z) : outcome (list Z) :=
  if (i <? length l)%nat then Ret (upd l i v) else Panic "index out of range".

(* ================================================================== *)
(** ** The part of [math/big] the package uses *)

(** [big.Int.Mod]: Euclidean modulus, the result lies in [[0, |m|)]. *)
Definition big_Mod (x m : Z) : Z := x mod Z.abs m.

(** [big.Int.Quo]: truncated division. *)
Definition big_Quo (x y : Z) : Z := Z.quot x y.

(** [big.Int.ProbablyPrime(32)], idealised as an exact primality test (the Go
    test is exact below [2^64] and errs with probability at most [4^-32]
    above).  Trial division keeps it executable. *)
Definition ProbablyPrime (x : Z) : bool :=
  (1 <? x) &&
  forallb (fun d => negb (x mod Z.of_nat d =? 0)) (seq 2 (Z.to_nat x - 2)).

(* ================================================================== *)
(** ** Number theory helpers (numbertheory.go is not part of the sources) *)

(** Modelled from the spec: [isPowerOfTwo] is missing; "N is always a power
    of two", that is [n = 2^k] for some [k >= 0]. *)
Definition isPowerOfTwo (n : nat) : bool :=
  ((0 <? n) && (2 ^ Nat.log2 n =? n))%nat.

(** Modelled from the spec: [modularInverse] is missing; [nInv] is
    "N^{-1} mod q" and [pInvQ] is "p^{-1} mod q", the inverse taken in
    [[0, q)]. *)
Definition modularInverse (a q : Z) : Z := Z.invmod a q.

(** Modelled from the spec: [FindPrimitiveRootOfUnity(m, q)] is missing; it
    "returns g such that g^m = 1 (mod q) and g^(m/2) <> 1 (mod q).  Strategy:
    pick candidates until one satisfies both conditions".  The candidates
    picked by the random source are the list [cands]; the search does not
    return when none of them qualifies. *)
Definition isPrimitiveRoot (m : nat) (q g : Z) : bool :=
  (g ^ Z.of_nat m mod q =? 1) && negb (g ^ Z.of_nat (m / 2) mod q =? 1).

Fixpoint FindPrimitiveRootOfUnity (cands : list Z) (m : nat) (q : Z) : outcome Z :=
  match cands with
  | [] => Timeout
  | g :: rest =>
      if isPrimitiveRoot m q g then Ret g
      else FindPrimitiveRootOfUnity rest m q
  end.

(** Modelled from the spec: bit reversal, "the permutation taking index i to
    the integer whose binary representation is the reverse of i's, for a
    fixed bit-width". *)
Fixpoint bitrev (w : nat) (i : nat) : nat :=
  match w with
  | O => O
  | S w' => ((i mod 2) * 2 ^ w' + bitrev w' (i / 2))%nat
  end.

(** Modelled from the spec: [rootsOfUnityBitReverse(N, g, q)] is missing; it
    "produces the table T of length N with T[i] = g^bitrev(i, log2 N) mod q". *)
Definition rootsOfUnityBitReverse (n : nat) (g q : Z) : list Z :=
  map (fun i => g ^ Z.of_nat (bitrev (Nat.log2 n) i) mod q) (seq 0 n).

(* ================================================================== *)
(** ** polynomial.go: the polynomial container *)

Record Polynomial : Type := mkPolynomial { Coeffs : list Z }.

Definition Deg (p : Polynomial) : nat := length (Coeffs p).

Definition NewPolynomial (degree : nat) : outcome Polynomial :=
  if negb (isPowerOfTwo degree)
  then Panic "negacyclic arithmetic only implemented for n a power of 2"
  else Ret (mkPolynomial (repeat 0 degree)).

Definition PolynomialFromSlice (slice : list Z) : Polynomial :=
  mkPolynomial slice.

(** One iteration of the loop of [symmetricModulus]. *)
Definition symmetricModulus_coeff (q val : Z) : Z :=
  let halfMod := big_Quo q 2 in
  let negHalfMod := - halfMod in
  let val := big_Mod val q in
  if halfMod <? val then val - q
  else if val <? negHalfMod then val + q
  else val.

Definition symmetricModulus (p : Polynomial) (q : Z) : Polynomial :=
  mkPolynomial (map (symmetricModulus_coeff q) (Coeffs p)).

(** [Polynomial.Mod]. *)
Definition Mod_ (p : Polynomial) (mod_ : Z) : Polynomial :=
  symmetricModulus p mod_.

(* ================================================================== *)
(** ** multiplier.go and ntt.go: the prime-field multiplier *)

Record Multiplier : Type := mkMultiplier {
  N : nat;
  Mod : Z;
  nInvQ : Z;
  rootsBitReverse : list Z;
  invRootsBitReverse : list Z
}.

Definition NewMultiplier (cands : list Z) (n : nat) (mod_ : Z) : outcome Multiplier :=
  if negb (isPowerOfTwo n) then Panic "multiplier expects `n` power of two"
  else if negb (ProbablyPrime mod_) then Panic "multiplier expects prime modulus"
  else if negb (big_Mod mod_ (Z.of_nat (2 * n)) =? 1) then Panic "q != 1 mod 2n"
  else
    let nInv := modularInverse (Z.of_nat n) mod_ in
    g <- FindPrimitiveRootOfUnity cands (2 * n) mod_ ;;
    let gInv := modularInverse g mod_ in
    Ret (mkMultiplier n mod_ nInv
           (rootsOfUnityBitReverse n g mod_)
           (rootsOfUnityBitReverse n gInv mod_)).

(** The Cooley-Tukey butterfly, the body of the innermost loop of [NTT]. *)
Definition ntt_butterfly (q s : Z) (t : nat) (j : nat) (a : list Z) : outcome (list Z) :=
  u <- index a j ;;
  x <- index a (j + t) ;;
  let v := x * s in
  a <- store a j (big_Mod (u + v) q) ;;
  store a (j + t) (big_Mod (u - v) q).

(** The body of [for i := 0; i < m; i++] in [NTT]: [j] runs over
    [j1 .. j2 = j1 + t - 1], that is [t] iterations from [j1]. *)
Definition ntt_block (q : Z) (roots : list Z) (m t : nat) (i : nat) (a : list Z)
  : outcome (list Z) :=
  let j1 := (2 * i * t)%nat in
  s <- index roots (m + i) ;;
  for_loop t j1 (ntt_butterfly q s t) a.

(** [for m := 1; m < n; m = 2 * m], with the loop-carried [t] and [a]. *)
Fixpoint ntt_stages (fuel : nat) (n : nat) (q : Z) (roots : list Z)
         (m t : nat) (a : list Z) : outcome (list Z) :=
  if (m <? n)%nat then
    match fuel with
    | O => Timeout
    | S fuel' =>
        let t := (t / 2)%nat in
        a <- for_loop m 0 (ntt_block q roots m t) a ;;
        ntt_stages fuel' n q roots (2 * m) t a
    end
  else Ret a.

Definition NTT (mul : Multiplier) (a : Polynomial) : outcome Polynomial :=
  let n := N mul in
  c <- ntt_stages n n (Mod mul) (rootsBitReverse mul) 1 n (Coeffs a) ;;
  Ret (mkPolynomial c).

(** The Gentleman-Sande butterfly, the body of the innermost loop of [INTT]. *)
Definition intt_butterfly (q s : Z) (t : nat) (j : nat) (a : list Z) : outcome (list Z) :=
  u <- index a j ;;
  v <- index a (j + t) ;;
  a <- store a j (big_Mod (u + v) q) ;;
  store a (j + t) (big_Mod ((u - v) * s) q).

(** The body of [for i := 0; i < h; i++] in [INTT]; [j1] is carried. *)
Definition intt_block (q : Z) (rootsInv : list Z) (h t : nat) (i : nat)
           (st : nat * list Z) : outcome (nat * list Z) :=
  let '(j1, a) := st in
  s <- index rootsInv (h + i) ;;
  a <- for_loop t j1 (intt_butterfly q s t) a ;;
  Ret ((j1 + 2 * t)%nat, a).

(** [for m := n; m > 1; m /= 2], with the loop-carried [t] and [a]. *)
Fixpoint intt_stages (fuel : nat) (q : Z) (rootsInv : list Z)
         (m t : nat) (a : list Z) : outcome (list Z) :=
  if (1 <? m)%nat then
    match fuel with
    | O => Timeout
    | S fuel' =>
        let h := (m / 2)%nat in
        '(_, a) <- for_loop h 0 (intt_block q rootsInv h t) (O, a) ;;
        intt_stages fuel' q rootsInv (m / 2) (t * 2) a
    end
  else Ret a.

(** The body of the final scaling loop of [INTT]. *)
Definition intt_scale (q nInv : Z) (j : nat) (a : list Z) : outcome (list Z) :=
  x <- index a j ;;
  store a j (big_Mod (x * nInv) q).

Definition INTT (mul : Multiplier) (a : Polynomial) : outcome Polynomial :=
  let n := N mul in
  let q := Mod mul in
  c <- intt_stages n q (invRootsBitReverse mul) n 1 (Coeffs a) ;;
  c <- for_loop n 0 (intt_scale q (nInvQ mul)) c ;;
  Ret (mkPolynomial c).

(** The body of the loop of [Hadamard]. *)
Definition hadamard_step (q : Z) (a b : list Z) (i : nat) (c : list Z) : outcome (list Z) :=
  x <- index a i ;;
  y <- index b i ;;
  store c i (big_Mod (x * y) q).

Definition Hadamard (mul : Multiplier) (a b : Polynomial) : outcome Polynomial :=
  if negb (Deg a =? Deg b)%nat then Panic "asymmetric multiplication call"
  else
    c <- NewPolynomial (Deg a) ;;
    c <- for_loop (Deg a) 0 (hadamard_step (Mod mul) (Coeffs a) (Coeffs b)) (Coeffs c) ;;
    Ret (mkPolynomial c).

(** The copy loop of [Multiplier.Mul]. *)
Definition mul_copy_step (x y : list Z) (i : nat) (ab : list Z * list Z)
  : outcome (list Z * list Z) :=
  let '(a, b) := ab in
  xi <- index x i ;;
  yi <- index y i ;;
  a <- store a i xi ;;
  b <- store b i yi ;;
  Ret (a, b).

Definition Multiplier_Mul (mul : Multiplier) (x y : Polynomial) : outcome Polynomial :=
  if negb (Deg x =? Deg y)%nat then Panic "asymmetric multiplication call"
  else
    let n := Deg x in
    a <- NewPolynomial n ;;
    b <- NewPolynomial n ;;
    '(a, b) <- for_loop n 0 (mul_copy_step (Coeffs x) (Coeffs y)) (Coeffs a, Coeffs b) ;;
    a <- NTT mul (mkPolynomial a) ;;
    b <- NTT mul (mkPolynomial b) ;;
    c <- Hadamard mul a b ;;
    c <- INTT mul c ;;
    Ret (mkPolynomial (map (fun coeff => big_Mod coeff (Mod mul)) (Coeffs c))).

(* ================================================================== *)
(** ** The reference negacyclic convolution

    Written after the words of the specification: "a reference convolution
    that computes out[i+j] += x[i]*y[j] for i+j < N and
    out[i+j-N] -= x[i]*y[j] otherwise". *)

Definition reference_step (n : nat) (xi yj : Z) (i j : nat) (out : list Z) : list Z :=
  if (i + j <? n)%nat
  then upd out (i + j) (nth (i + j) out 0 + xi * yj)
  else upd out (i + j - n) (nth (i + j - n) out 0 - xi * yj).

Definition reference_row (n : nat) (x y : list Z) (out : list Z) (i : nat) : list Z :=
  fold_left (fun out j => reference_step n (nth i x 0) (nth j y 0) i j out)
            (seq 0 n) out.

Definition reference_convolution (x y : list Z) : list Z :=
  let n := length x in
  fold_left (reference_row n x y) (seq 0 n) (repeat 0 n).

(* ================================================================== *)
(** ** polynomial.go: ScaleNearest

    [ScaleNearest] computes in [big.Float].  A [big.Float] is a number
    [mant * 2^exp] together with a precision in bits; every operation rounds
    its exact result to the precision of the receiver, to nearest with ties
    to even.  A receiver of precision [0] first takes its precision from the
    operands, as documented for [SetInt], [Quo] and [Add]. *)

Record Float : Type := mkFloat { f_prec : Z; f_mant : Z; f_exp : Z }.

(** [new(big.Float)]. *)
Definition Float_new : Float := mkFloat 0 0 0.

(** [big.NewFloat(0.5)]: precision 53. *)
Definition Float_half : Float := mkFloat 53 1 (-1).

Definition bitLen (x : Z) : Z := if x =? 0 then 0 else Z.log2 (Z.abs x) + 1.

(** The integer nearest to [n / d], ties to even ([0 <= n], [0 < d]). *)
Definition div_nearest_even (n d : Z) : Z :=
  let q := n / d in
  let r := n mod d in
  if 2 * r <? d then q
  else if d <? 2 * r then q + 1
  else if Z.even q then q else q + 1.

(** [n / d * 2^(-s)] as a quotient of integers. *)
Definition scaled_num (n s : Z) : Z := if s <? 0 then n * 2 ^ (- s) else n.
Definition scaled_den (d s : Z) : Z := if s <? 0 then d else d * 2 ^ s.

(** [n / d] rounded to [prec] bits ([0 <= n], [0 < d], [0 < prec]): the pair
    [(m, s)] stands for [m * 2^s], with [2^(prec-1) <= m <= 2^prec]. *)
Definition round_ratio (prec n d : Z) : Z * Z :=
  if n =? 0 then (0, 0)
  else
    let s0 := Z.log2 n - Z.log2 d - prec + 1 in
    let s := if scaled_num n s0 / scaled_den d s0 <? 2 ^ (prec - 1)
             then s0 - 1 else s0 in
    (div_nearest_even (scaled_num n s) (scaled_den d s), s).

Definition Float_round (prec sign n d e : Z) : Float :=
  let '(m, s) := round_ratio prec n d in
  mkFloat prec (sign * m) (s + e).

Definition Float_SetInt (z : Float) (x : Z) : Float :=
  let prec := if f_prec z =? 0 then Z.max (bitLen x) 64 else f_prec z in
  Float_round prec (Z.sgn x) (Z.abs x) 1 0.

Definition Float_Abs (z x : Float) : Float :=
  let prec := if f_prec z =? 0 then f_prec x else f_prec z in
  Float_round prec 1 (Z.abs (f_mant x)) 1 (f_exp x).

(** [z.Quo(x, y)] for [y <> 0]. *)
Definition Float_Quo (z x y : Float) : Float :=
  let prec := if f_prec z =? 0 then Z.max (f_prec x) (f_prec y) else f_prec z in
  Float_round prec (Z.sgn (f_mant x) * Z.sgn (f_mant y))
              (Z.abs (f_mant x)) (Z.abs (f_mant y)) (f_exp x - f_exp y).

Definition Float_Add (z x y : Float) : Float :=
  let prec := if f_prec z =? 0 then Z.max (f_prec x) (f_prec y) else f_prec z in
  let e := Z.min (f_exp x) (f_exp y) in
  let m := f_mant x * 2 ^ (f_exp x - e) + f_mant y * 2 ^ (f_exp y - e) in
  Float_round prec (Z.sgn m) (Z.abs m) 1 e.

(** [x.Int(nil)]: truncation towards zero. *)
Definition Float_Int (x : Float) : Z :=
  if f_exp x <? 0 then Z.quot (f_mant x) (2 ^ (- f_exp x))
  else f_mant x * 2 ^ f_exp x.

(** The body of the loop of [ScaleNearest]; [aux] and [quo] are carried from
    one coefficient to the next and keep their precision. *)
Definition scaleNearest_step (denom : Float) (coeffs : list Z) (i : nat)
           (st : Float * Float * list Z) : outcome (Float * Float * list Z) :=
  let '(aux, quo, result) := st in
  coeff <- index coeffs i ;;
  let aux := Float_SetInt aux coeff in
  let aux := Float_Abs aux aux in
  let quo := Float_Quo quo aux denom in
  let aux := Float_Add aux quo Float_half in
  result <- store result i (Float_Int aux) ;;
  result <- (if Z.sgn coeff =? -1
             then r <- index result i ;; store result i (- r)
             else Ret result) ;;
  Ret (aux, quo, result).

Definition ScaleNearest (p : Polynomial) (scale : Z) : outcome Polynomial :=
  if scale =? 0 then Panic "division by zero"
  else
    let aux := Float_new in
    let denom := Float_new in
    let quo := Float_new in
    let denom := Float_SetInt denom scale in
    result <- NewPolynomial (Deg p) ;;
    '(_, _, result) <- for_loop (Deg p) 0 (scaleNearest_step denom (Coeffs p))
                                (aux, quo, Coeffs result) ;;
    Ret (mkPolynomial result).

(* ================================================================== *)
(** ** polynomial.go: Karatsuba *)

(** Modelled from the spec: [addSlices] and [subSlices] are missing; the
    spec uses them as the coefficient-wise sum and difference
    ("z1 = (xL+xR)*(yL+yR)", "the cross term is z1 - z0 - z2"). *)
Definition addSlices (x y : list Z) : list Z :=
  map (fun ab => fst ab + snd ab) (combine x y).

Definition subSlices (x y : list Z) : list Z :=
  map (fun ab => fst ab - snd ab) (combine x y).

(** The builtin [copy(dst, src)]: it copies [min(len(dst), len(src))]
    elements and leaves the rest of [dst]. *)
Definition go_copy (dst src : list Z) : list Z :=
  firstn (length dst) src ++ skipn (length src) dst.

(** The recursion is on slices of half the length; [fuel] bounds its depth.
    The slice expressions [x[0 : l/2]], [x[l/2:]] are within bounds whenever
    they are reached. *)
Fixpoint karatsubaRec (fuel : nat) (x y : list Z) : outcome (list Z) :=
  match fuel with
  | O => Timeout
  | S fuel' =>
      if negb (length x =? length y)%nat then Panic "asymmetric Karatsuba call"
      else if (length x =? 1)%nat then Ret [nth 0 x 0 * nth 0 y 0]
      else
        let l := length x in
        if negb (isPowerOfTwo l) then Panic "Karatsuba implemented for power of two only"
        else
          let xL := firstn (l / 2) x in
          let xR := skipn (l / 2) x in
          let yL := firstn (l / 2) y in
          let yR := skipn (l / 2) y in
          z0 <- karatsubaRec fuel' xL yL ;;
          z1 <- karatsubaRec fuel' (addSlices xL xR) (addSlices yL yR) ;;
          z2 <- karatsubaRec fuel' xR yR ;;
          let crossTerm := subSlices z1 z2 in
          let crossTerm := subSlices crossTerm z0 in
          if (length crossTerm =? 1)%nat
          then Ret ((z0 ++ crossTerm) ++ (z2 ++ [0]))
          else
            let crossL := repeat 0 l in
            let crossR := repeat 0 l in
            let crossL := firstn (l / 2) crossL
                          ++ go_copy (skipn (l / 2) crossL) (firstn (l / 2) crossTerm) in
            let crossR := go_copy (firstn (l / 2) crossR) (skipn (l / 2) crossTerm)
                          ++ skipn (l / 2) crossR in
            Ret (addSlices z0 crossL ++ addSlices z2 crossR)
  end.

(** The body of the folding loop of [Karatsuba]. *)
Definition karatsuba_fold_step (deg : nat) (i : nat) (karat : list Z) : outcome (list Z) :=
  a <- index karat i ;;
  b <- index karat (i + deg) ;;
  store karat i (a - b).

Definition Karatsuba (p q : Polynomial) : outcome Polynomial :=
  if negb (isPowerOfTwo (Deg p)) || negb (isPowerOfTwo (Deg q))
  then Panic "Karatsuba only implemented for power of two degrees"
  else
    karat <- karatsubaRec (S (Deg p)) (Coeffs p) (Coeffs q) ;;
    karat <- for_loop (Deg p) 0 (karatsuba_fold_step (Deg p)) karat ;;
    if (Deg p <=? length karat)%nat
    then Ret (mkPolynomial (firstn (Deg p) karat))
    else Panic "slice bounds out of range".

(* ================================================================== *)
(** ** crt_multiplier.go: the CRT multiplier *)

Record CRTMultiplier : Type := mkCRTMultiplier {
  PQ : Z;
  crtN : nat;
  pInvQ : Z;
  multiplierP : Multiplier;
  multiplierQ : Multiplier
}.

(** The two root searches draw their candidates from [candsP] and [candsQ]. *)
Definition NewCRTMultiplier (candsP candsQ : list Z) (n : nat) (p q : Z)
  : outcome CRTMultiplier :=
  if negb (isPowerOfTwo n) then Panic "multiplier expects `n` power of two"
  else if negb (ProbablyPrime p) || negb (ProbablyPrime q) || (p =? q)
  then Panic "multiplier expects two coprime moduli"
  else
    mP <- NewMultiplier candsP n p ;;
    mQ <- NewMultiplier candsQ n q ;;
    Ret (mkCRTMultiplier (p * q) n (modularInverse p q) mP mQ).

(** The body of the loop of [CRTMultiplier.Mul]. *)
Definition crt_step (p pInv : Z) (a b : list Z) (i : nat) (z : list Z) : outcome (list Z) :=
  bi <- index b i ;;
  ai <- index a i ;;
  store z i ((bi - ai) * pInv * p + ai).

Definition CRTMultiplier_Mul (m : CRTMultiplier) (x y : Polynomial) : outcome Polynomial :=
  a <- Multiplier_Mul (multiplierP m) x y ;;
  b <- Multiplier_Mul (multiplierQ m) x y ;;
  let p := Mod (multiplierP m) in
  z <- NewPolynomial (Deg x) ;;
  z <- for_loop (Deg x) 0 (crt_step p (pInvQ m) (Coeffs a) (Coeffs b)) (Coeffs z) ;;
  Ret (mkPolynomial z).

(* ================================================================== *)
(** ** z_multiplier.go: the integer multiplier *)

Record ZMultiplier : Type := mkZMultiplier { zN : nat }.

Definition NewZMultiplier (n : nat) : outcome ZMultiplier :=
  if negb (isPowerOfTwo n) then Panic "multiplier expects `n` power of two"
  else Ret (mkZMultiplier n).

Definition normInfinite (pol : Polynomial) : Z :=
  fold_left (fun norm val => if Z.abs norm <? Z.abs val then Z.abs val else norm)
            (Coeffs pol) 0.

(** [for !prime.ProbablyPrime(32) { prime += step }]. *)
Fixpoint next_prime (fuel : nat) (prime step : Z) : outcome Z :=
  if negb (ProbablyPrime prime) then
    match fuel with
    | O => Timeout
    | S fuel' => next_prime fuel' (prime + step) step
    end
  else Ret prime.

Definition ZMultiplier_Mul (fuel : nat) (cands : list Z) (m : ZMultiplier)
           (x y : Polynomial) : outcome Polynomial :=
  if negb (Deg x =? Deg y)%nat then Panic "asymmetric multiply call"
  else if negb (Deg x =? zN m)%nat then Panic "bad multiply length"
  else
    let prime := Z.of_nat (2 * zN m) in
    let prime := prime * normInfinite x * normInfinite y in
    let prime := prime + 1 in
    prime <- next_prime fuel prime (Z.of_nat (2 * zN m)) ;;
    modM <- NewMultiplier cands (zN m) prime ;;
    pol <- Multiplier_Mul modM x y ;;
    Ret (Mod_ pol prime).

(* ================================================================== *)
(** ** sample.go: HWT

    The random source is the list of its successive answers: [Entropy r]
    makes [rand.Int(rand.Reader, max)] return [r mod max], and
    [EntropyFailure] makes it return an error ([rand.Int] itself panics on
    [max <= 0]).  A call that needs more answers than the list holds does
    not return ([Timeout]). *)

Inductive draw : Type :=
| Entropy (r : Z)
| EntropyFailure (msg : string).

(** [HammingWeight]: the number of non-zero coordinates. *)
Definition HammingWeight (v : list Z) : Z :=
  fold_left (fun h x => if negb (x =? 0) then h + 1 else h) v 0.

(** [vec[index]] for an [int64] index. *)
Definition index_Z (l : list Z) (i : Z) : outcome Z :=
  if i <? 0 then Panic "index out of range" else index l (Z.to_nat i).

Definition store_Z (l : list Z) (i : Z) (v : Z) : outcome (list Z) :=
  if i <? 0 then Panic "index out of range" else store l (Z.to_nat i) v.

(** [for i := 0; i < hamming; i++]; a rejected index takes [i] back by one
    before [continue] adds one. *)
Fixpoint HWT_loop (tape : list draw) (dim hamming i : Z) (vec : list Z)
  : outcome (list Z) :=
  if i <? hamming then
    if dim <=? 0 then Panic "crypto/rand: argument to Int is <= 0" else
    match tape with
    | [] => Timeout
    | EntropyFailure msg :: _ => Panic ("fatal entropy error:" ++ msg)
    | Entropy r :: tape1 =>
        let index := r mod dim in
        v <- index_Z vec index ;;
        if negb (v =? 0) then HWT_loop tape1 dim hamming (i - 1 + 1) vec
        else
          match tape1 with
          | [] => Timeout
          | EntropyFailure msg :: _ => Panic ("fatal entropy error:" ++ msg)
          | Entropy c :: tape2 =>
              let coin := c mod 2 in
              vec <- (if coin =? 0 then store_Z vec index 1 else Ret vec) ;;
              vec <- store_Z vec index (-1) ;;
              HWT_loop tape2 dim hamming (i + 1) vec
          end
    end
  else Ret vec.

(** The two results of [HWT]: the vector and the error ([None] is [nil]). *)
Definition HWT (tape : list draw) (dim hamming : Z) : outcome (list Z * option string) :=
  if dim <? hamming then Ret ([], Some "impossible hamming weight"%string)
  else if dim <? 0 then Panic "makeslice: len out of range"
  else
    let vec := repeat 0 (Z.to_nat dim) in
    vec <- HWT_loop tape dim hamming 0 vec ;;
    Ret (vec, None).

(* ================================================================== *)
(** ** vector.go: vectors of machine integers

    The entries of a [Vector] are Go [int]s, 64 bits wide: arithmetic on
    them wraps around, which [wrap_int] writes out. *)

Definition int_range (z : Z) : Prop := - 2 ^ 63 <= z < 2 ^ 63.

(** The value of an [int] expression whose exact value is [z]. *)
Definition wrap_int (z : Z) : Z := (z + 2 ^ 63) mod 2 ^ 64 - 2 ^ 63.

Record Vector : Type := mkVector { Vector_Coeffs : list Z }.

Definition NewVector (leng : nat) : Vector := mkVector (repeat 0 leng).

Definition VectorFromSlice (slice : list Z) : Vector := mkVector slice.

Definition Vector_Len (v : Vector) : nat := length (Vector_Coeffs v).

(** [Vector.Polynomial]: [big.NewInt(int64(c))] is exact, and the length is
    not checked to be a power of two. *)
Definition Vector_Polynomial (v : Vector) : Polynomial :=
  mkPolynomial (map (fun c => c) (Vector_Coeffs v)).

(* ================================================================== *)
(** ** polynomial.go: sums, differences and multiples

    [Negate] and [Scale] overwrite the receiver; they are modelled by the
    new value of the receiver. *)

Definition Negate (p : Polynomial) : Polynomial :=
  mkPolynomial (map (fun c => - c) (Coeffs p)).

Definition Scale (p : Polynomial) (scalar : Z) : Polynomial :=
  mkPolynomial (map (fun c => c * scalar) (Coeffs p)).

(** The body of the loop of [Sub]. *)
Definition sub_step (p q : list Z) (i : nat) (result : list Z) : outcome (list Z) :=
  a <- index p i ;;
  b <- index q i ;;
  store result i (a - b).

Definition Sub (p q : Polynomial) : outcome Polynomial :=
  if negb (Deg p =? Deg q)%nat then Panic "incompatible subtraction"
  else
    result <- NewPolynomial (Deg p) ;;
    c <- for_loop (Deg result) 0 (sub_step (Coeffs p) (Coeffs q)) (Coeffs result) ;;
    Ret (mkPolynomial c).

(** The body of the loop of [addPolPol]. *)
Definition addPolPol_step (p q : list Z) (i : nat) (result : list Z) : outcome (list Z) :=
  a <- index p i ;;
  b <- index q i ;;
  store result i (a + b).

Definition addPolPol (p q : Polynomial) : outcome Polynomial :=
  if negb (Deg p =? Deg q)%nat then Panic "incompatible addition"
  else
    result <- NewPolynomial (Deg p) ;;
    c <- for_loop (Deg result) 0 (addPolPol_step (Coeffs p) (Coeffs q)) (Coeffs result) ;;
    Ret (mkPolynomial c).

(** The body of the loop of [addPolVec]. *)
Definition addPolVec_step (p v : list Z) (i : nat) (result : list Z) : outcome (list Z) :=
  c <- index v i ;;
  let aux := c in
  a <- index p i ;;
  store result i (a + aux).

Definition addPolVec (p : Polynomial) (v : Vector) : outcome Polynomial :=
  if negb (Deg p =? Vector_Len v)%nat then Panic "incompatible addition"
  else
    let dim := Deg p in
    result <- NewPolynomial dim ;;
    c <- for_loop (Deg result) 0 (addPolVec_step (Coeffs p) (Vector_Coeffs v))
                  (Coeffs result) ;;
    Ret (mkPolynomial c).

(** An argument of type [interface{}]: a (non-nil) [*Polynomial], a
    (non-nil) [*Vector], or a value of any other type. *)
Inductive operand : Type :=
| OpPolynomial (p : Polynomial)
| OpVector (v : Vector)
| OpOther.

(** The type assertions of [x] to [*Polynomial] and to [*Vector]; [None]
    is [ok == false]. *)
Definition asPolynomial (x : operand) : option Polynomial :=
  match x with OpPolynomial p => Some p | _ => None end.

Definition asVector (x : operand) : option Vector :=
  match x with OpVector v => Some v | _ => None end.

Definition Add (p q : operand) : outcome Polynomial :=
  match asPolynomial p, asPolynomial q with
  | Some pPol, Some qPol => addPolPol pPol qPol
  | _, _ =>
      match asPolynomial p, asVector q with
      | Some pPol, Some qVec => addPolVec pPol qVec
      | _, _ => Panic "cannot cast multiplication arguments to ring elements"
      end
  end.

(* ================================================================== *)
(** ** polynomial.go: MulSimple *)

(** The body of the inner loop of [cycMulNaiveTerVecTerVec]; the product and
    the accumulation are [int] operations. *)
Definition terVec_step (dim : nat) (xCoeff yCoeff : Z) (i j : nat) (result : list Z)
  : outcome (list Z) :=
  if (i + j <? dim)%nat then
    r <- index result (i + j) ;;
    store result (i + j) (wrap_int (r + wrap_int (xCoeff * yCoeff)))
  else
    r <- index result (i + j - dim) ;;
    store result (i + j - dim) (wrap_int (r - wrap_int (xCoeff * yCoeff))).

Definition terVec_row (dim : nat) (x y : list Z) (i : nat) (result : list Z)
  : outcome (list Z) :=
  xCoeff <- index x i ;;
  for_loop (length y) 0
           (fun j result => yCoeff <- index y j ;;
                            terVec_step dim xCoeff yCoeff i j result)
           result.

Definition cycMulNaiveTerVecTerVec (x y : Vector) : outcome Polynomial :=
  if negb (Vector_Len x =? Vector_Len y)%nat then Panic "incompatible multiplication"
  else
    let dim := Vector_Len x in
    let result := NewVector dim in
    result <- for_loop (Vector_Len x) 0 (terVec_row dim (Vector_Coeffs x) (Vector_Coeffs y))
                       (Vector_Coeffs result) ;;
    Ret (Vector_Polynomial (mkVector result)).

(** The body of the inner loop of [cycMulNaivePolTerVec]. *)
Definition polTerVec_step (dim : nat) (vecCoeff polCoeff : Z) (i j : nat) (result : list Z)
  : outcome (list Z) :=
  let val := polCoeff in
  let val := if vecCoeff =? -1 then - val else val in
  if (i + j <? dim)%nat then
    r <- index result (i + j) ;;
    store result (i + j) (r + val)
  else
    r <- index result (i + j - dim) ;;
    store result (i + j - dim) (r - val).

(** The body of its outer loop: a zero entry of the vector is skipped. *)
Definition polTerVec_row (dim : nat) (p v : list Z) (i : nat) (result : list Z)
  : outcome (list Z) :=
  vecCoeff <- index v i ;;
  if vecCoeff =? 0 then Ret result
  else
    for_loop (length p) 0
             (fun j result => polCoeff <- index p j ;;
                              polTerVec_step dim vecCoeff polCoeff i j result)
             result.

Definition cycMulNaivePolTerVec (p : Polynomial) (v : Vector) : outcome Polynomial :=
  if negb (Deg p =? Vector_Len v)%nat then Panic "incompatible multiplication"
  else
    let dim := Deg p in
    let result := repeat 0 dim in
    result <- for_loop (Vector_Len v) 0 (polTerVec_row dim (Coeffs p) (Vector_Coeffs v))
                       result ;;
    Ret (mkPolynomial result).

Definition MulSimple (p q : operand) : outcome Polynomial :=
  match asPolynomial p, asVector q with
  | Some pPol, Some qVec => cycMulNaivePolTerVec pPol qVec
  | _, _ =>
      match asVector p, asVector q with
      | Some pVec, Some qVec => cycMulNaiveTerVecTerVec pVec qVec
      | _, _ => Panic "cannot cast multiplication arguments to ring elements"
      end
  end.

(* ================================================================== *)
(** ** sample.go: RLWEPrime and ZO *)

(** [bits.Len(x)] for an unsigned [x]: the number of bits of [x]. *)
Definition bits_Len (x : Z) : Z := if x =? 0 then 0 else Z.log2 x + 1.

(** [uint(n)] for an [int] [n]. *)
Definition uint (n : Z) : Z := n mod 2 ^ 64.

(** [fuel] bounds the search [for !prime.ProbablyPrime(32)]. *)
Definition RLWEPrime (fuel : nat) (bitLen n : Z) : outcome Z :=
  let nbits := wrap_int (bitLen - bits_Len (uint n)) in
  if nbits <? 0 then Panic "RLWE prime must be >= 2*n (bitLen too small)"
  else
    let prime := 2 ^ nbits in
    let dim := n in
    let prime := prime * dim + 1 in
    next_prime fuel prime dim.

(** The body of [for i := 0; i < 4; i++] in [ZO]: the byte [b] and the
    position [idx] (the variable [index] of the source) are carried. *)
Definition ZO_bits (i : nat) (st : Z * nat * list Z) : outcome (Z * nat * list Z) :=
  let '(b, idx, vec) := st in
  vec <- (if Z.land b 3 =? 1 then store vec idx 1 else Ret vec) ;;
  vec <- (if Z.land b 3 =? 2 then store vec idx (-1) else Ret vec) ;;
  Ret (Z.shiftr b 2, S idx, vec).

(** The body of [for _, b := range bytes]. *)
Definition ZO_byte (bytes : list Z) (k : nat) (st : nat * list Z) : outcome (nat * list Z) :=
  let '(idx, vec) := st in
  b <- index bytes k ;;
  '(_, idx, vec) <- for_loop 4 0 ZO_bits (b, idx, vec) ;;
  Ret (idx, vec).

(** [mrand.Read] fills the slice with the bytes [rnd 0, rnd 1, ...] of the
    generator.  The [float64] argument [rho] is a rational; the infinities
    and NaN, which also differ from [.5], are left out. *)
Definition ZO (rnd : nat -> Z) (dim : Z) (rho : Q) : outcome Vector :=
  if negb (Qeq_bool rho (1 # 2)) then Panic "optimized for rho = .5. Use ZONaive"
  else if dim <? 0 then Panic "makeslice: len out of range"
  else
    let vec := repeat 0 (Z.to_nat dim) in
    let bytes := repeat 0 (Z.to_nat (Z.quot dim 4)) in
    let bytes := map (fun k => rnd k mod 256) (seq 0 (length bytes)) in
    '(_, vec) <- for_loop (length bytes) 0 (ZO_byte bytes) (O, vec) ;;
    Ret (mkVector vec).

(* ================================================================== *)
(** ** ntt_test.go: the oracle of the tests *)

(** The body of the inner loop of [naive]; it reduces [result.Coeffs[i]],
    the entry of the row index, after every term. *)
Definition naive_step (dim : nat) (mod_ : Z) (pCoeff qCoeff : Z) (i j : nat)
           (result : list Z) : outcome (list Z) :=
  let val := pCoeff * qCoeff in
  result <- (if (i + j <? dim)%nat
             then r <- index result (i + j) ;; store result (i + j) (r + val)
             else r <- index result (i + j - dim) ;; store result (i + j - dim) (r - val)) ;;
  r <- index result i ;;
  if mod_ =? 0 then Panic "division by zero"
  else store result i (big_Mod r mod_).

Definition naive_row (dim : nat) (mod_ : Z) (p q : list Z) (i : nat) (result : list Z)
  : outcome (list Z) :=
  pCoeff <- index p i ;;
  for_loop (length q) 0
           (fun j result => qCoeff <- index q j ;;
                            naive_step dim mod_ pCoeff qCoeff i j result)
           result.

Definition naive (p q : Polynomial) (mod_ : Z) : outcome Polynomial :=
  if negb (Deg p =? Deg q)%nat then Panic "incompatible multiplication"
  else
    let dim := Deg p in
    result <- NewPolynomial (Deg p) ;;
    c <- for_loop (Deg p) 0 (naive_row dim mod_ (Coeffs p) (Coeffs q)) (Coeffs result) ;;
    Ret (mkPolynomial c).

(* ================================================================== *)
(** * Verification *)

(** ** Slices and loops *)

Lemma big_Mod_pos (x q : Z) : 0 < q -> big_Mod x q = x mod q.
Proof. intros Hq. unfold big_Mod. now rewrite Z.abs_eq by lia. Qed.

Lemma length_upd (l : list Z) (i : nat) (v : Z) : length (upd l i v) = length l.
Proof.
  revert i. induction l as [|hd tl IH]; intros [|i]; simpl; auto.
Qed.

Lemma nth_upd_eq (l : list Z) (i : nat) (v : Z) :
  (i < length l)%nat -> nth i (upd l i v) 0 = v.
Proof.
  revert i. induction l as [|hd tl IH]; intros [|i] Hi; simpl in *; try lia; auto.
  apply IH. lia.
Qed.

Lemma nth_upd_ne (l : list Z) (i j : nat) (v : Z) :
  i <> j -> nth j (upd l i v) 0 = nth j l 0.
Proof.
  revert i j. induction l as [|hd tl IH]; intros [|i] [|j] Hij; simpl; auto; try lia.
Qed.

Lemma index_Ret (l : list Z) (i : nat) :
  (i < length l)%nat -> index l i = Ret (nth i l 0).
Proof.
  intros Hi. unfold index.
  destruct (nth_error l i) as [v|] eqn:E.
  - now rewrite (nth_error_nth _ _ _ E).
  - apply nth_error_None in E. lia.
Qed.

Lemma store_Ret (l : list Z) (i : nat) (v : Z) :
  (i < length l)%nat -> store l i v = Ret (upd l i v).
Proof.
  intros Hi. unfold store.
  destruct (Nat.ltb_spec i (length l)); [reflexivity | lia].
Qed.

(** The invariant rule for [for_loop]. *)
Lemma for_loop_inv {A : Type} (I : nat -> A -> Prop) (cnt start : nat)
      (body : nat -> A -> outcome A) (a0 : A) :
  I O a0 ->
  (forall k a, (k < cnt)%nat -> I k a ->
               exists a', body (start + k)%nat a = Ret a' /\ I (S k) a') ->
  exists a', for_loop cnt start body a0 = Ret a' /\ I cnt a'.
Proof.
  revert I start a0.
  induction cnt as [|c IH]; intros I start a0 H0 Hstep; simpl.
  - eauto.
  - destruct (Hstep O a0 ltac:(lia) H0) as (a1 & E1 & I1).
    rewrite Nat.add_0_r in E1. rewrite E1. simpl.
    apply (IH (fun k a => I (S k) a) (S start) a1 I1).
    intros k a Hk HI.
    destruct (Hstep (S k) a ltac:(lia) HI) as (a' & E & HI').
    exists a'. split; [|exact HI'].
    now replace (S start + k)%nat with (start + S k)%nat by lia.
Qed.

(** A butterfly reads the pair [(a[j], a[j+t])] and overwrites it. *)
Definition pair_update (f g : Z -> Z -> Z) (t j : nat) (a : list Z) : list Z :=
  upd (upd a j (f (nth j a 0) (nth (j + t) a 0)))
      (j + t) (g (nth j a 0) (nth (j + t) a 0)).

Lemma ntt_butterfly_eq (q s : Z) (t j : nat) (a : list Z) :
  0 < q -> (j + t < length a)%nat ->
  ntt_butterfly q s t j a =
  Ret (pair_update (fun u x => (u + x * s) mod q) (fun u x => (u - x * s) mod q) t j a).
Proof.
  intros Hq Hj. unfold ntt_butterfly, pair_update.
  rewrite !index_Ret by lia. simpl.
  rewrite store_Ret by lia. simpl.
  rewrite store_Ret by (rewrite length_upd; lia).
  now rewrite !big_Mod_pos by assumption.
Qed.

Lemma intt_butterfly_eq (q s : Z) (t j : nat) (a : list Z) :
  0 < q -> (j + t < length a)%nat ->
  intt_butterfly q s t j a =
  Ret (pair_update (fun u v => (u + v) mod q) (fun u v => ((u - v) * s) mod q) t j a).
Proof.
  intros Hq Hj. unfold intt_butterfly, pair_update.
  rewrite !index_Ret by lia. simpl.
  rewrite store_Ret by lia. simpl.
  rewrite store_Ret by (rewrite length_upd; lia).
  now rewrite !big_Mod_pos by assumption.
Qed.

(** What a loop of [t] butterflies at stride [t] does to the block that
    starts at [j1]. *)
Definition block_rel (f g : Z -> Z -> Z) (t j1 : nat) (a a' : list Z) : Prop :=
  length a' = length a /\
  (forall k, (k < t)%nat ->
     nth (j1 + k) a' 0 = f (nth (j1 + k) a 0) (nth (j1 + k + t) a 0) /\
     nth (j1 + k + t) a' 0 = g (nth (j1 + k) a 0) (nth (j1 + k + t) a 0)) /\
  (forall x, (x < j1 \/ j1 + 2 * t <= x)%nat -> nth x a' 0 = nth x a 0).

Lemma pair_loop (body : nat -> list Z -> outcome (list Z)) (f g : Z -> Z -> Z)
      (t j1 : nat) (a0 : list Z) :
  (forall j a, (j + t < length a)%nat -> body j a = Ret (pair_update f g t j a)) ->
  (j1 + 2 * t <= length a0)%nat ->
  exists a', for_loop t j1 body a0 = Ret a' /\ block_rel f g t j1 a0 a'.
Proof.
  intros Hbody Hlen.
  destruct (for_loop_inv
    (fun c a =>
       length a = length a0 /\
       (forall k, (k < c)%nat ->
          nth (j1 + k) a 0 = f (nth (j1 + k) a0 0) (nth (j1 + k + t) a0 0) /\
          nth (j1 + k + t) a 0 = g (nth (j1 + k) a0 0) (nth (j1 + k + t) a0 0)) /\
       (forall x, ~ (j1 <= x < j1 + c)%nat -> ~ (j1 + t <= x < j1 + t + c)%nat ->
          nth x a 0 = nth x a0 0))
    t j1 body a0) as (a' & E & HL & Hin & Hout).
  - repeat split; intros; try lia; reflexivity.
  - intros c a Hc (HL & Hin & Hout).
    exists (pair_update f g t (j1 + c) a). split.
    + apply Hbody. lia.
    + unfold pair_update. split; [|split].
      * now rewrite !length_upd.
      * intros k Hk.
        destruct (Nat.eq_dec k c) as [->|Hne]; split.
        -- rewrite nth_upd_ne by lia. rewrite nth_upd_eq by lia.
           rewrite !Hout by lia. reflexivity.
        -- rewrite nth_upd_eq by (rewrite length_upd; lia).
           rewrite !Hout by lia. reflexivity.
        -- rewrite !nth_upd_ne by lia. apply Hin. lia.
        -- rewrite !nth_upd_ne by lia. apply Hin. lia.
      * intros x H1 H2. rewrite !nth_upd_ne by lia. apply Hout; lia.
  - exists a'. split; [exact E|]. split; [exact HL|]. split; [exact Hin|].
    intros x Hx. apply Hout; lia.
Qed.

(** What a whole stage does: [m] blocks of size [2 * t], block [i] being
    transformed by the butterfly [(f i, g i)]. *)
Definition stage_rel (f g : nat -> Z -> Z -> Z) (m t : nat) (a a' : list Z) : Prop :=
  length a' = length a /\
  forall i k, (i < m)%nat -> (k < t)%nat ->
    nth (i * (2 * t) + k) a' 0 =
      f i (nth (i * (2 * t) + k) a 0) (nth (i * (2 * t) + k + t) a 0) /\
    nth (i * (2 * t) + k + t) a' 0 =
      g i (nth (i * (2 * t) + k) a 0) (nth (i * (2 * t) + k + t) a 0).

Definition ct_lo (q : Z) (roots : list Z) (m i : nat) (u x : Z) : Z :=
  (u + x * nth (m + i) roots 0) mod q.
Definition ct_hi (q : Z) (roots : list Z) (m i : nat) (u x : Z) : Z :=
  (u - x * nth (m + i) roots 0) mod q.
Definition gs_lo (q : Z) (i : nat) (u v : Z) : Z := (u + v) mod q.
Definition gs_hi (q : Z) (rootsInv : list Z) (h i : nat) (u v : Z) : Z :=
  ((u - v) * nth (h + i) rootsInv 0) mod q.

Lemma block_offsets (i i' t : nat) :
  (i' < i)%nat -> (i' * (2 * t) + 2 * t <= i * (2 * t))%nat.
Proof. intros H. nia. Qed.

Lemma ntt_stage_spec (q : Z) (roots : list Z) (m t : nat) (a0 : list Z) :
  0 < q -> (2 * m <= length roots)%nat -> (m * (2 * t) <= length a0)%nat ->
  exists a', for_loop m 0 (ntt_block q roots m t) a0 = Ret a' /\
             stage_rel (ct_lo q roots m) (ct_hi q roots m) m t a0 a'.
Proof.
  intros Hq Hroots Hlen.
  destruct (for_loop_inv
    (fun c a =>
       length a = length a0 /\
       (forall i k, (i < c)%nat -> (k < t)%nat ->
          nth (i * (2 * t) + k) a 0 =
            ct_lo q roots m i (nth (i * (2 * t) + k) a0 0) (nth (i * (2 * t) + k + t) a0 0) /\
          nth (i * (2 * t) + k + t) a 0 =
            ct_hi q roots m i (nth (i * (2 * t) + k) a0 0) (nth (i * (2 * t) + k + t) a0 0)) /\
       (forall x, (c * (2 * t) <= x)%nat -> nth x a 0 = nth x a0 0))
    m O (ntt_block q roots m t) a0) as (a' & E & HL & Hin & _).
  - repeat split; intros; try lia; reflexivity.
  - intros c a Hc (HL & Hin & Hout). rewrite Nat.add_0_l.
    unfold ntt_block. rewrite index_Ret by lia. cbn [bind].
    assert (Hc' : (c * (2 * t) + 2 * t <= m * (2 * t))%nat) by (apply block_offsets; lia).
    destruct (pair_loop (ntt_butterfly q (nth (m + c) roots 0) t)
                (fun u x => (u + x * nth (m + c) roots 0) mod q)
                (fun u x => (u - x * nth (m + c) roots 0) mod q)
                t (2 * c * t) a) as (a' & E & HL' & Hin' & Hout').
    { intros j b Hj. now apply ntt_butterfly_eq. }
    { lia. }
    exists a'. split; [exact E|]. split; [lia|]. split.
    + intros i k Hi Hk.
      destruct (Nat.eq_dec i c) as [->|Hne].
      * replace (2 * c * t)%nat with (c * (2 * t))%nat in Hin' by lia.
        destruct (Hin' k Hk) as [H1 H2]. rewrite H1, H2.
        unfold ct_lo, ct_hi. rewrite !Hout by lia. split; reflexivity.
      * assert (Hic : (i < c)%nat) by lia.
        pose proof (block_offsets c i t Hic).
        rewrite !Hout' by lia. apply Hin; lia.
    + intros x Hx. rewrite Hout' by lia. apply Hout. lia.
  - exists a'. split; [exact E|]. split; auto.
Qed.

Lemma intt_stage_spec (q : Z) (rootsInv : list Z) (h t : nat) (a0 : list Z) :
  0 < q -> (2 * h <= length rootsInv)%nat -> (h * (2 * t) <= length a0)%nat ->
  exists j a', for_loop h 0 (intt_block q rootsInv h t) (O, a0) = Ret (j, a') /\
               stage_rel (fun _ => gs_lo q 0) (gs_hi q rootsInv h) h t a0 a'.
Proof.
  intros Hq Hroots Hlen.
  destruct (for_loop_inv
    (fun c (st : nat * list Z) =>
       fst st = (c * (2 * t))%nat /\
       length (snd st) = length a0 /\
       (forall i k, (i < c)%nat -> (k < t)%nat ->
          nth (i * (2 * t) + k) (snd st) 0 =
            gs_lo q 0 (nth (i * (2 * t) + k) a0 0) (nth (i * (2 * t) + k + t) a0 0) /\
          nth (i * (2 * t) + k + t) (snd st) 0 =
            gs_hi q rootsInv h i (nth (i * (2 * t) + k) a0 0) (nth (i * (2 * t) + k + t) a0 0)) /\
       (forall x, (c * (2 * t) <= x)%nat -> nth x (snd st) 0 = nth x a0 0))
    h O (intt_block q rootsInv h t) (O, a0)) as ([j a'] & E & _ & HL & Hin & _).
  - cbn [fst snd]. repeat split; intros; try lia; reflexivity.
  - intros c [j1 a] Hc (Hj1 & HL & Hin & Hout). cbn [fst snd] in *. subst j1.
    rewrite Nat.add_0_l. unfold intt_block.
    rewrite index_Ret by lia. cbn [bind].
    assert (Hc' : (c * (2 * t) + 2 * t <= h * (2 * t))%nat) by (apply block_offsets; lia).
    destruct (pair_loop (intt_butterfly q (nth (h + c) rootsInv 0) t)
                (fun u v => (u + v) mod q)
                (fun u v => ((u - v) * nth (h + c) rootsInv 0) mod q)
                t (c * (2 * t)) a) as (a' & E & HL' & Hin' & Hout').
    { intros j b Hj. now apply intt_butterfly_eq. }
    { lia. }
    rewrite E. cbn [bind].
    eexists. split; [reflexivity|]. cbn [fst snd]. split; [lia|]. split; [lia|]. split.
    + intros i k Hi Hk.
      destruct (Nat.eq_dec i c) as [->|Hne].
      * destruct (Hin' k Hk) as [H1 H2]. rewrite H1, H2.
        unfold gs_lo, gs_hi. rewrite !Hout by lia. split; reflexivity.
      * assert (Hic : (i < c)%nat) by lia.
        pose proof (block_offsets c i t Hic).
        rewrite !Hout' by lia. apply Hin; lia.
    + intros x Hx. rewrite Hout' by lia. apply Hout. lia.
  - exists j, a'. split; [exact E|]. split; auto.
Qed.

(* ================================================================== *)
(** ** Congruences modulo [q] *)

(** [cong q a b]: [a] and [b] are congruent modulo [q]. *)
Inductive cong (q a b : Z) : Prop :=
| cong_intro (H : a mod q = b mod q).

Lemma cong_iff (q a b : Z) : cong q a b <-> a mod q = b mod q.
Proof. split; [intros [H]; exact H | apply cong_intro]. Qed.

#[global] Instance cong_Equivalence (q : Z) : Equivalence (cong q).
Proof.
  split.
  - intros a. now constructor.
  - intros a b [H]. now constructor.
  - intros a b c [H1] [H2]. constructor. now rewrite H1.
Qed.

#[global] Instance cong_add (q : Z) : Proper (cong q ==> cong q ==> cong q) Z.add.
Proof.
  intros a a' [Ha] b b' [Hb]. constructor.
  now rewrite Zplus_mod, Ha, Hb, <- Zplus_mod.
Qed.

#[global] Instance cong_sub (q : Z) : Proper (cong q ==> cong q ==> cong q) Z.sub.
Proof.
  intros a a' [Ha] b b' [Hb]. constructor.
  now rewrite Zminus_mod, Ha, Hb, <- Zminus_mod.
Qed.

#[global] Instance cong_mul (q : Z) : Proper (cong q ==> cong q ==> cong q) Z.mul.
Proof.
  intros a a' [Ha] b b' [Hb]. constructor.
  now rewrite Zmult_mod, Ha, Hb, <- Zmult_mod.
Qed.

#[global] Instance cong_opp (q : Z) : Proper (cong q ==> cong q) Z.opp.
Proof.
  intros a a' Ha.
  replace (- a) with (0 - a) by ring. replace (- a') with (0 - a') by ring.
  now rewrite Ha.
Qed.

Lemma cong_mod (q a : Z) : cong q (a mod q) a.
Proof. constructor. apply Zmod_mod. Qed.

Lemma cong_eq (q a b : Z) : a = b -> cong q a b.
Proof. intros ->. reflexivity. Qed.

Lemma cong_pow (q a b : Z) (n : nat) :
  cong q a b -> cong q (a ^ Z.of_nat n) (b ^ Z.of_nat n).
Proof.
  intros H. induction n as [|n IH].
  - reflexivity.
  - rewrite Nat2Z.inj_succ, !Z.pow_succ_r by lia. now rewrite IH, H.
Qed.

(* ================================================================== *)
(** ** The stages of the two transforms *)

(** Successive stages, each given by its input/output relation. *)
Fixpoint chain (Rs : list (list Z -> list Z -> Prop)) (a a' : list Z) : Prop :=
  match Rs with
  | [] => a' = a
  | R :: Rs' => exists a1, R a a1 /\ chain Rs' a1 a'
  end.

Lemma chain_app (Rs1 Rs2 : list (list Z -> list Z -> Prop)) (a a' : list Z) :
  chain (Rs1 ++ Rs2) a a' <-> exists a1, chain Rs1 a a1 /\ chain Rs2 a1 a'.
Proof.
  revert a. induction Rs1 as [|R Rs1 IH]; intros a; simpl.
  - split.
    + intros H. exists a. auto.
    + intros (a1 & -> & H). exact H.
  - split.
    + intros (a1 & H1 & H2). apply IH in H2. destruct H2 as (a2 & H2 & H3).
      exists a2. split; [exists a1; auto | exact H3].
    + intros (a2 & (a1 & H1 & H2) & H3). exists a1. split; [exact H1|].
      apply IH. exists a2. auto.
Qed.

Lemma pow2_split (w e d : nat) : (e + d = w)%nat -> (2 ^ e * 2 ^ d = 2 ^ w)%nat.
Proof. intros <-. now rewrite Nat.pow_add_r. Qed.

Lemma pow2_pos (e : nat) : (0 < 2 ^ e)%nat.
Proof. apply Nat.neq_0_lt_0, Nat.pow_nonzero. lia. Qed.

Lemma pow2_half (d : nat) : (2 ^ S d / 2 = 2 ^ d)%nat.
Proof.
  rewrite Nat.pow_succ_r'. rewrite Nat.mul_comm. apply Nat.div_mul. lia.
Qed.

(** Every index below [m * (2 * t)] lies in the lower or in the upper half
    of exactly one block. *)
Lemma block_decompose (m t x : nat) :
  (0 < t)%nat -> (x < m * (2 * t))%nat ->
  exists i k, (i < m)%nat /\ (k < t)%nat /\
              (x = i * (2 * t) + k \/ x = i * (2 * t) + k + t)%nat.
Proof.
  intros Ht Hx.
  pose proof (Nat.div_mod_eq x (2 * t)) as Hdm.
  pose proof (Nat.mod_upper_bound x (2 * t) ltac:(lia)) as Hr.
  assert (Hi : (x / (2 * t) < m)%nat).
  { apply Nat.Div0.div_lt_upper_bound. lia. }
  destruct (Nat.lt_ge_cases (x mod (2 * t)) t) as [Hlo|Hhi].
  - exists (x / (2 * t))%nat, (x mod (2 * t))%nat. repeat split; auto. left. lia.
  - exists (x / (2 * t))%nat, (x mod (2 * t) - t)%nat. repeat split; auto; try lia.
Qed.

Section Stages.

Variable q : Z.
Variables roots rootsInv : list Z.
Variable w : nat.

(** Stage [e] of [NTT] has [m = 2^e] blocks of half-size [t = 2^(w-1-e)];
    stage [e] of [INTT] has [h = 2^e] and the same [t]. *)
Definition ntt_stage_rel (e : nat) : list Z -> list Z -> Prop :=
  stage_rel (ct_lo q roots (2 ^ e)) (ct_hi q roots (2 ^ e)) (2 ^ e) (2 ^ (w - 1 - e)).

Definition intt_stage_rel (e : nat) : list Z -> list Z -> Prop :=
  stage_rel (fun _ => gs_lo q 0) (gs_hi q rootsInv (2 ^ e)) (2 ^ e) (2 ^ (w - 1 - e)).

Lemma ntt_stages_spec (q_pos : 0 < q) (roots_len : length roots = (2 ^ w)%nat)
      (d : nat) :
  forall (e fuel : nat) (a : list Z),
    (e + d = w)%nat -> (d <= fuel)%nat -> length a = (2 ^ w)%nat ->
    exists a', ntt_stages fuel (2 ^ w) q roots (2 ^ e) (2 ^ d) a = Ret a' /\
               chain (map ntt_stage_rel (seq e d)) a a'.
Proof.
  induction d as [|d IH]; intros e fuel a He Hfuel Hlen.
  - assert (e = w) by lia. subst e.
    exists a. split; [|reflexivity].
    destruct fuel; simpl; rewrite Nat.ltb_irrefl; reflexivity.
  - destruct fuel as [|fuel]; [lia|].
    cbn [ntt_stages].
    assert (Hlt : (2 ^ e < 2 ^ w)%nat) by (apply Nat.pow_lt_mono_r; lia).
    destruct (Nat.ltb_spec (2 ^ e) (2 ^ w)) as [_|]; [|lia].
    rewrite pow2_half.
    pose proof (pow2_split w e (S d) He) as Hsplit.
    rewrite Nat.pow_succ_r' in Hsplit.
    destruct (ntt_stage_spec q roots (2 ^ e) (2 ^ d) a q_pos) as (a1 & E1 & R1).
    { rewrite roots_len. pose proof (pow2_pos d). nia. }
    { rewrite Hlen. lia. }
    rewrite E1. cbn [bind].
    destruct (IH (S e) fuel a1) as (a' & E' & C'); try lia.
    { destruct R1 as [HL _]. lia. }
    exists a'. split.
    + rewrite <- E'. f_equal.
    + cbn [seq map chain]. exists a1. split; [|exact C'].
      unfold ntt_stage_rel. replace (w - 1 - e)%nat with d by lia. exact R1.
Qed.

Lemma intt_stages_spec (q_pos : 0 < q) (rootsInv_len : length rootsInv = (2 ^ w)%nat)
      (k : nat) :
  forall (fuel : nat) (a : list Z),
    (k <= w)%nat -> (k <= fuel)%nat -> length a = (2 ^ w)%nat ->
    exists a', intt_stages fuel q rootsInv (2 ^ k) (2 ^ (w - k)) a = Ret a' /\
               chain (map intt_stage_rel (rev (seq 0 k))) a a'.
Proof.
  induction k as [|k IH]; intros fuel a Hk Hfuel Hlen.
  - exists a. split; [|reflexivity].
    destruct fuel; reflexivity.
  - destruct fuel as [|fuel]; [lia|].
    cbn [intt_stages].
    assert (Hlt : (1 < 2 ^ S k)%nat).
    { rewrite Nat.pow_succ_r'. pose proof (pow2_pos k). lia. }
    destruct (Nat.ltb_spec 1 (2 ^ S k)) as [_|]; [|lia].
    rewrite pow2_half.
    pose proof (pow2_split w (S k) (w - S k) ltac:(lia)) as Hsplit.
    rewrite Nat.pow_succ_r' in Hsplit.
    destruct (intt_stage_spec q rootsInv (2 ^ k) (2 ^ (w - S k)) a q_pos)
      as (j & a1 & E1 & R1).
    { rewrite rootsInv_len. pose proof (pow2_pos (w - S k)). nia. }
    { rewrite Hlen. lia. }
    rewrite E1. cbn [bind].
    replace (2 ^ (w - S k) * 2)%nat with (2 ^ (w - k))%nat.
    2:{ replace (w - k)%nat with (S (w - S k)) by lia. rewrite Nat.pow_succ_r'. lia. }
    destruct (IH fuel a1) as (a' & E' & C'); try lia.
    { destruct R1 as [HL _]. lia. }
    exists a'. split; [exact E'|].
    rewrite seq_S, rev_app_distr. cbn [rev app map chain Nat.add].
    exists a1. split; [|exact C'].
    unfold intt_stage_rel. replace (w - 1 - k)%nat with (w - S k)%nat by lia. exact R1.
Qed.

Lemma chain_ntt_length (l : list nat) (a a' : list Z) :
  chain (map ntt_stage_rel l) a a' -> length a' = length a.
Proof.
  revert a. induction l as [|e l IH]; intros a; simpl.
  - now intros ->.
  - intros (a1 & [HL _] & H). rewrite (IH _ H). exact HL.
Qed.

Lemma chain_intt_length (l : list nat) (a a' : list Z) :
  chain (map intt_stage_rel l) a a' -> length a' = length a.
Proof.
  revert a. induction l as [|e l IH]; intros a; simpl.
  - now intros ->.
  - intros (a1 & [HL _] & H). rewrite (IH _ H). exact HL.
Qed.

(** A Gentleman-Sande stage undoes the Cooley-Tukey stage with the same
    [m] and [t], up to a factor [2]. *)
Lemma gs_undoes_ct (e : nat) (c : Z) (a a1 b1 b' : list Z) :
  (e < w)%nat -> length a = (2 ^ w)%nat ->
  (forall i, (i < 2 ^ e)%nat ->
     cong q (nth (2 ^ e + i) roots 0 * nth (2 ^ e + i) rootsInv 0) 1) ->
  ntt_stage_rel e a a1 ->
  intt_stage_rel e b1 b' ->
  (forall x, (x < 2 ^ w)%nat -> cong q (nth x b1 0) (c * nth x a1 0)) ->
  forall x, (x < 2 ^ w)%nat -> cong q (nth x b' 0) (2 * c * nth x a 0).
Proof.
  intros He Hlen Hinv [_ Hct] [_ Hgs] Hb x Hx.
  pose proof (pow2_split w e (w - e) ltac:(lia)) as Hsplit.
  replace (w - e)%nat with (S (w - 1 - e)) in Hsplit by lia.
  rewrite Nat.pow_succ_r' in Hsplit.
  set (t := (2 ^ (w - 1 - e))%nat) in *.
  assert (Ht : (0 < t)%nat) by apply pow2_pos.
  destruct (block_decompose (2 ^ e) t x Ht ltac:(lia)) as (i & k & Hi & Hk & Hxk).
  destruct (Hct i k Hi Hk) as [C1 C2].
  destruct (Hgs i k Hi Hk) as [G1 G2].
  assert (B1 := Hb (i * (2 * t) + k)%nat ltac:(pose proof (block_offsets (2 ^ e) i t Hi); lia)).
  assert (B2 := Hb (i * (2 * t) + k + t)%nat ltac:(pose proof (block_offsets (2 ^ e) i t Hi); lia)).
  rewrite C1 in B1. rewrite C2 in B2. unfold ct_lo, ct_hi in B1, B2.
  rewrite cong_mod in B1, B2.
  destruct Hxk as [-> | ->].
  - rewrite G1. unfold gs_lo. rewrite cong_mod, B1, B2.
    apply cong_eq. ring.
  - rewrite G2. unfold gs_hi. rewrite cong_mod, B1, B2.
    transitivity (2 * c * nth (i * (2 * t) + k + t) a 0
                  * (nth (2 ^ e + i) roots 0 * nth (2 ^ e + i) rootsInv 0)).
    + apply cong_eq. ring.
    + rewrite (Hinv i Hi). apply cong_eq. ring.
Qed.

(** The stages of [INTT] undo the stages of [NTT] up to the factor [2^d]. *)
Lemma intt_undoes_ntt (d : nat) :
  forall (e : nat) (c : Z) (a a' b b' : list Z),
    (e + d = w)%nat -> length a = (2 ^ w)%nat ->
    (forall k, (1 <= k < 2 ^ w)%nat -> cong q (nth k roots 0 * nth k rootsInv 0) 1) ->
    chain (map ntt_stage_rel (seq e d)) a a' ->
    chain (map intt_stage_rel (rev (seq e d))) b b' ->
    (forall x, (x < 2 ^ w)%nat -> cong q (nth x b 0) (c * nth x a' 0)) ->
    forall x, (x < 2 ^ w)%nat -> cong q (nth x b' 0) (2 ^ Z.of_nat d * c * nth x a 0).
Proof.
  induction d as [|d IH]; intros e c a a' b b' He Hlen Hinv Hn Hi Hb x Hx.
  - simpl in Hn, Hi. subst a' b'. rewrite (Hb x Hx). apply cong_eq.
    change (Z.of_nat 0) with 0. rewrite Z.pow_0_r. ring.
  - cbn [seq map chain] in Hn. destruct Hn as (a1 & R1 & Hn).
    cbn [seq rev] in Hi. rewrite map_app in Hi. apply chain_app in Hi.
    destruct Hi as (b1 & Hi & Hlast). cbn [map chain] in Hlast.
    destruct Hlast as (b2 & G & ->).
    assert (Hlen1 : length a1 = (2 ^ w)%nat) by (destruct R1 as [HL _]; lia).
    pose proof (IH (S e) c a1 a' b b1 ltac:(lia) Hlen1 Hinv Hn Hi Hb) as Hb1.
    pose proof (gs_undoes_ct e (2 ^ Z.of_nat d * c) a a1 b1 b2 ltac:(lia) Hlen) as Hgs.
    rewrite (Hgs ltac:(intros i Hi'; apply Hinv;
                       pose proof (pow2_pos e);
                       pose proof (Nat.pow_lt_mono_r 2 e w ltac:(lia) ltac:(lia));
                       assert (2 ^ e + i < 2 * 2 ^ e)%nat by lia;
                       assert (2 * 2 ^ e <= 2 ^ w)%nat by
                         (rewrite <- Nat.pow_succ_r'; apply Nat.pow_le_mono_r; lia);
                       lia)
                 R1 G Hb1 x Hx).
    apply cong_eq. rewrite Nat2Z.inj_succ, Z.pow_succ_r by lia. ring.
Qed.

End Stages.

(* ================================================================== *)
(** ** The helpers of [NewMultiplier] *)

Lemma isPowerOfTwo_spec (n : nat) :
  isPowerOfTwo n = true <-> exists w, n = (2 ^ w)%nat.
Proof.
  unfold isPowerOfTwo. rewrite andb_true_iff, Nat.ltb_lt, Nat.eqb_eq. split.
  - intros [_ H]. eauto.
  - intros [w ->]. split.
    + apply Nat.neq_0_lt_0, Nat.pow_nonzero. lia.
    + now rewrite Nat.log2_pow2 by lia.
Qed.

Lemma ProbablyPrime_spec (x : Z) : ProbablyPrime x = true <-> Z.prime x.
Proof.
  unfold ProbablyPrime, Z.prime.
  rewrite andb_true_iff, Z.ltb_lt, forallb_forall. split.
  - intros [H1 H]. split; [exact H1|]. intros n Hn Hdiv.
    specialize (H (Z.to_nat n)).
    rewrite Z2Nat.id in H by lia.
    assert (Hin : In (Z.to_nat n) (seq 2 (Z.to_nat x - 2))) by (apply in_seq; lia).
    apply H in Hin. apply negb_true_iff, Z.eqb_neq in Hin.
    apply Hin, Z.mod_divide; [lia | exact Hdiv].
  - intros [H1 H]. split; [exact H1|].
    intros d Hd. apply in_seq in Hd.
    apply negb_true_iff, Z.eqb_neq. intros Hmod.
    apply (H (Z.of_nat d)); [lia|].
    apply Z.mod_divide; [lia | exact Hmod].
Qed.

Lemma FindPrimitiveRootOfUnity_Ret (cands : list Z) (m : nat) (q g : Z) :
  FindPrimitiveRootOfUnity cands m q = Ret g -> isPrimitiveRoot m q g = true.
Proof.
  induction cands as [|c rest IH]; simpl; [discriminate|].
  destruct (isPrimitiveRoot m q c) eqn:E; [|exact IH].
  intros H. injection H as <-. exact E.
Qed.

Lemma FindPrimitiveRootOfUnity_returns (cands : list Z) (m : nat) (q g : Z) :
  In g cands -> isPrimitiveRoot m q g = true ->
  exists g', FindPrimitiveRootOfUnity cands m q = Ret g'.
Proof.
  induction cands as [|c rest IH]; simpl; [tauto|].
  intros [->|Hin] Hg.
  - rewrite Hg. eauto.
  - destruct (isPrimitiveRoot m q c); eauto.
Qed.

Lemma cong_divide (q a b : Z) : q <> 0 -> cong q a b <-> (q | a - b).
Proof.
  intros Hq. rewrite cong_iff. split.
  - intros H. exists (a / q - b / q).
    pose proof (Z.div_mod a q Hq). pose proof (Z.div_mod b q Hq). nia.
  - intros [k Hk]. replace a with (b + k * q) by lia. apply Z_mod_plus_full.
Qed.

(** A root of unity of order [2n] that is not of order [n] has [g^n = -1]
    in a prime field. *)
Lemma primitive_root_half (n : nat) (q g : Z) :
  Z.prime q -> isPrimitiveRoot (2 * n) q g = true ->
  cong q (g ^ Z.of_nat n) (-1).
Proof.
  intros Hp Hg. unfold isPrimitiveRoot in Hg.
  apply andb_true_iff in Hg. destruct Hg as [H1 H2].
  apply Z.eqb_eq in H1. apply negb_true_iff, Z.eqb_neq in H2.
  replace (2 * n / 2)%nat with n in H2 by (rewrite Nat.mul_comm, Nat.div_mul; lia).
  pose proof (Z.prime_ge_2 q Hp) as Hq2.
  assert (Hq : q <> 0) by lia.
  assert (Hc : cong q (g ^ Z.of_nat (2 * n)) 1).
  { apply cong_iff. rewrite H1. symmetry. apply Z.mod_small. lia. }
  apply (proj1 (cong_divide q _ _ Hq)) in Hc.
  assert (Hdiv : (q | (g ^ Z.of_nat n - 1) * (g ^ Z.of_nat n + 1))).
  { replace ((g ^ Z.of_nat n - 1) * (g ^ Z.of_nat n + 1))
      with (g ^ Z.of_nat (2 * n) - 1); [exact Hc|].
    rewrite Nat2Z.inj_mul. change (Z.of_nat 2) with 2.
    replace (2 * Z.of_nat n) with (Z.of_nat n + Z.of_nat n) by ring.
    rewrite Z.pow_add_r by lia. ring. }
  apply Z.divide_prime_mul in Hdiv; [|exact Hp].
  destruct Hdiv as [Hd|Hd].
  - exfalso. apply H2. apply (proj2 (cong_divide q _ _ Hq)) in Hd.
    apply cong_iff in Hd. rewrite Hd. apply Z.mod_small. lia.
  - apply cong_divide; [exact Hq|].
    now replace (g ^ Z.of_nat n - -1) with (g ^ Z.of_nat n + 1) by ring.
Qed.

Lemma primitive_root_unit (n : nat) (q g : Z) :
  Z.prime q -> isPrimitiveRoot (2 * n) q g = true -> g mod q <> 0.
Proof.
  intros Hp Hg Hz.
  pose proof (primitive_root_half n q g Hp Hg) as Hh.
  pose proof (Z.prime_ge_2 q Hp) as Hq2.
  assert (Hn : cong q (g ^ Z.of_nat (2 * n)) 1).
  { unfold isPrimitiveRoot in Hg. apply andb_true_iff in Hg.
    destruct Hg as [H1 _]. apply Z.eqb_eq in H1.
    apply cong_iff. rewrite H1. symmetry. apply Z.mod_small. lia. }
  assert (H0 : cong q g 0) by (apply cong_iff; rewrite Hz; symmetry; apply Z.mod_0_l; lia).
  destruct n as [|n].
  - (* [g^0 = 1] would be congruent to [-1], so [q = 2] and [1 = 1]. *)
    unfold isPrimitiveRoot in Hg. simpl in Hg.
    apply andb_true_iff in Hg. destruct Hg as [_ H2].
    apply negb_true_iff, Z.eqb_neq in H2. apply H2. apply Z.mod_small. lia.
  - apply (cong_pow q g 0 (2 * S n)) in H0. rewrite H0 in Hn.
    rewrite Z.pow_0_l in Hn by lia.
    apply cong_iff in Hn. rewrite Z.mod_0_l, Z.mod_small in Hn by lia. discriminate.
Qed.

Lemma modularInverse_prime (a q : Z) :
  Z.prime q -> a mod q <> 0 -> cong q (a * modularInverse a q) 1.
Proof.
  intros Hp Ha. apply cong_iff. unfold modularInverse.
  rewrite Z.mul_comm, (Z.invmod_prime a q Hp Ha).
  symmetry. apply Z.mod_small. pose proof (Z.prime_ge_2 q Hp). lia.
Qed.

(** *** Bit reversal and the twiddle tables *)

Lemma bitrev_0 (w : nat) : bitrev w 0 = O.
Proof. induction w as [|w IH]; simpl; [reflexivity|]. rewrite IH. lia. Qed.

Lemma bitrev_even (w k : nat) : bitrev (S w) (2 * k) = bitrev w k.
Proof.
  cbn [bitrev].
  replace ((2 * k) mod 2)%nat with O by (rewrite Nat.mul_comm, Nat.Div0.mod_mul; lia).
  replace (2 * k / 2)%nat with k by (rewrite Nat.mul_comm, Nat.div_mul; lia).
  lia.
Qed.

Lemma bitrev_odd (w k : nat) : bitrev (S w) (2 * k + 1) = (2 ^ w + bitrev w k)%nat.
Proof.
  cbn [bitrev].
  replace ((2 * k + 1) mod 2)%nat with 1%nat.
  2:{ rewrite Nat.add_comm, Nat.mul_comm, Nat.Div0.mod_add. reflexivity. }
  replace ((2 * k + 1) / 2)%nat with k.
  2:{ rewrite Nat.add_comm, Nat.mul_comm, Nat.div_add by lia. reflexivity. }
  lia.
Qed.

Lemma bitrev_double (w : nat) :
  forall k, (k < 2 ^ w)%nat -> bitrev (S w) k = (2 * bitrev w k)%nat.
Proof.
  induction w as [|w IH]; intros k Hk.
  - simpl in Hk. assert (k = O) by lia. subst k. reflexivity.
  - change (bitrev (S (S w)) k)
      with ((k mod 2) * 2 ^ S w + bitrev (S w) (k / 2))%nat.
    rewrite IH.
    + change (bitrev (S w) k) with ((k mod 2) * 2 ^ w + bitrev w (k / 2))%nat.
      rewrite Nat.pow_succ_r'. lia.
    + rewrite Nat.pow_succ_r' in Hk.
      apply Nat.Div0.div_lt_upper_bound. lia.
Qed.

Lemma length_rootsOfUnityBitReverse (n : nat) (g q : Z) :
  length (rootsOfUnityBitReverse n g q) = n.
Proof. unfold rootsOfUnityBitReverse. now rewrite length_map, length_seq. Qed.

Lemma nth_map_seq (f : nat -> Z) (n k : nat) :
  (k < n)%nat -> nth k (map f (seq 0 n)) 0 = f k.
Proof.
  intros Hk.
  rewrite (nth_indep _ 0 (f O)) by (rewrite length_map, length_seq; exact Hk).
  rewrite map_nth, seq_nth by exact Hk. reflexivity.
Qed.

Lemma nth_rootsOfUnityBitReverse (w : nat) (g q : Z) (k : nat) :
  (k < 2 ^ w)%nat ->
  nth k (rootsOfUnityBitReverse (2 ^ w) g q) 0 = g ^ Z.of_nat (bitrev w k) mod q.
Proof.
  intros Hk. unfold rootsOfUnityBitReverse.
  rewrite Nat.log2_pow2 by lia.
  now rewrite nth_map_seq by exact Hk.
Qed.

(** The modulus of the ring a block lives in: block [i] of the stage with [m]
    blocks is reduced modulo [X^(2t) - twist (m + i)]. *)
Definition twist (roots : list Z) (k : nat) : Z :=
  if (k =? 1)%nat then -1
  else if Nat.even k then nth (k / 2) roots 0
  else - nth (k / 2) roots 0.

(** The table is laid out as a binary tree: the twiddle of a node squares
    to the twist of the node. *)
Lemma roots_tree (w : nat) (g q : Z) (k : nat) :
  cong q (g ^ Z.of_nat (2 ^ w)) (-1) ->
  (1 <= k < 2 ^ w)%nat ->
  let roots := rootsOfUnityBitReverse (2 ^ w) g q in
  cong q (nth k roots 0 * nth k roots 0) (twist roots k).
Proof.
  intros Hg Hk roots. subst roots.
  destruct w as [|w]; [simpl in Hk; lia|].
  rewrite (nth_rootsOfUnityBitReverse (S w) g q k) by lia.
  rewrite cong_mod. rewrite <- Z.pow_add_r by lia. rewrite <- Nat2Z.inj_add.
  unfold twist.
  destruct (Nat.eqb_spec k 1) as [->|Hk1].
  - change 1%nat with (2 * 0 + 1)%nat. rewrite bitrev_odd, bitrev_0.
    replace (2 ^ w + 0 + (2 ^ w + 0))%nat with (2 ^ S w)%nat
      by (rewrite Nat.pow_succ_r'; lia).
    exact Hg.
  - pose proof (Nat.div_mod_eq k 2) as Hdm.
    pose proof (Nat.mod_upper_bound k 2 ltac:(lia)) as Hr.
    assert (Hj : (k / 2 < 2 ^ w)%nat).
    { apply Nat.Div0.div_lt_upper_bound. rewrite <- Nat.pow_succ_r'. lia. }
    assert (Hnth : cong q (nth (k / 2) (rootsOfUnityBitReverse (2 ^ S w) g q) 0)
                          (g ^ Z.of_nat (2 * bitrev w (k / 2)))).
    { rewrite (nth_rootsOfUnityBitReverse (S w) g q (k / 2))
        by (rewrite Nat.pow_succ_r'; lia).
      rewrite cong_mod, (bitrev_double w (k / 2) Hj). reflexivity. }
    destruct (Nat.even k) eqn:Ev; rewrite Hnth.
    + apply Nat.even_spec in Ev. destruct Ev as [j ->].
      replace (2 * j / 2)%nat with j by (rewrite Nat.mul_comm, Nat.div_mul; lia).
      rewrite bitrev_even. apply cong_eq. f_equal. lia.
    + assert (Od : Nat.odd k = true) by (rewrite <- Nat.negb_even, Ev; reflexivity).
      apply Nat.odd_spec in Od. destruct Od as [j ->].
      replace ((2 * j + 1) / 2)%nat with j.
      2:{ rewrite Nat.add_comm, Nat.mul_comm, Nat.div_add by lia. reflexivity. }
      rewrite bitrev_odd.
      replace (2 ^ w + bitrev w j + (2 ^ w + bitrev w j))%nat
        with (2 ^ S w + 2 * bitrev w j)%nat by (rewrite Nat.pow_succ_r'; lia).
      rewrite Nat2Z.inj_add, Z.pow_add_r by lia.
      rewrite Hg. apply cong_eq. ring.
Qed.

Lemma roots_inverse (w : nat) (g gInv q : Z) (k : nat) :
  cong q (g * gInv) 1 -> (k < 2 ^ w)%nat ->
  cong q (nth k (rootsOfUnityBitReverse (2 ^ w) g q) 0
          * nth k (rootsOfUnityBitReverse (2 ^ w) gInv q) 0) 1.
Proof.
  intros Hg Hk.
  rewrite !nth_rootsOfUnityBitReverse by exact Hk.
  rewrite !cong_mod. rewrite <- Z.pow_mul_l.
  rewrite (cong_pow q _ _ (bitrev w k) Hg).
  apply cong_eq. apply Z.pow_1_l. lia.
Qed.

(** *** Multipliers built by [NewMultiplier] *)

Record wf_multiplier (mul : Multiplier) (w : nat) : Prop := {
  wf_N : N mul = (2 ^ w)%nat;
  wf_prime : Z.prime (Mod mul);
  wf_cong : Mod mul mod Z.of_nat (2 * N mul) = 1;
  wf_roots_len : length (rootsBitReverse mul) = (2 ^ w)%nat;
  wf_invRoots_len : length (invRootsBitReverse mul) = (2 ^ w)%nat;
  wf_nInv : cong (Mod mul) (Z.of_nat (N mul) * nInvQ mul) 1;
  wf_inverse : forall k, (1 <= k < 2 ^ w)%nat ->
    cong (Mod mul) (nth k (rootsBitReverse mul) 0 * nth k (invRootsBitReverse mul) 0) 1;
  wf_tree : forall k, (1 <= k < 2 ^ w)%nat ->
    cong (Mod mul) (nth k (rootsBitReverse mul) 0 * nth k (rootsBitReverse mul) 0)
         (twist (rootsBitReverse mul) k)
}.

Lemma NewMultiplier_Ret (cands : list Z) (n : nat) (q : Z) (mul : Multiplier) :
  NewMultiplier cands n q = Ret mul ->
  N mul = n /\ Mod mul = q /\ exists w, wf_multiplier mul w.
Proof.
  unfold NewMultiplier.
  destruct (isPowerOfTwo n) eqn:Hpow; [|discriminate]. cbn [negb].
  destruct (ProbablyPrime q) eqn:Hprime; [|discriminate]. cbn [negb].
  destruct (big_Mod q (Z.of_nat (2 * n)) =? 1) eqn:Hmod; [|discriminate]. cbn [negb].
  destruct (FindPrimitiveRootOfUnity cands (2 * n) q) as [g| |] eqn:Hfind;
    cbn [bind]; try discriminate.
  intros H. injection H as <-. cbn [N Mod].
  apply isPowerOfTwo_spec in Hpow. destruct Hpow as [w ->].
  apply ProbablyPrime_spec in Hprime.
  apply FindPrimitiveRootOfUnity_Ret in Hfind.
  apply Z.eqb_eq in Hmod.
  pose proof (Z.prime_ge_2 q Hprime) as Hq2.
  pose proof (pow2_pos w) as Hw.
  rewrite big_Mod_pos in Hmod by lia.
  pose proof (primitive_root_unit _ _ _ Hprime Hfind) as Hunit.
  pose proof (modularInverse_prime g q Hprime Hunit) as Hginv.
  split; [reflexivity|]. split; [reflexivity|]. exists w.
  constructor; cbn [N Mod nInvQ rootsBitReverse invRootsBitReverse].
  - reflexivity.
  - exact Hprime.
  - exact Hmod.
  - apply length_rootsOfUnityBitReverse.
  - apply length_rootsOfUnityBitReverse.
  - apply modularInverse_prime; [exact Hprime|].
    assert (Hlt : Z.of_nat (2 ^ w) < q).
    { pose proof (Z.div_mod q (Z.of_nat (2 * 2 ^ w)) ltac:(lia)) as Hdm.
      rewrite Hmod in Hdm.
      assert (0 < q / Z.of_nat (2 * 2 ^ w)).
      { apply Z.div_str_pos. split; [lia|].
        destruct (Z.le_gt_cases (Z.of_nat (2 * 2 ^ w)) q) as [Hle|Hgt]; [exact Hle|].
        rewrite Z.mod_small in Hmod by lia. lia. }
      nia. }
    rewrite Z.mod_small by lia. lia.
  - intros k Hk. apply roots_inverse; [exact Hginv | lia].
  - intros k Hk. apply roots_tree; [|exact Hk].
    apply primitive_root_half; assumption.
Qed.

Lemma NewMultiplier_returns (cands : list Z) (w : nat) (q g : Z) :
  Z.prime q -> q mod Z.of_nat (2 * 2 ^ w) = 1 ->
  In g cands -> isPrimitiveRoot (2 * 2 ^ w) q g = true ->
  exists mul, NewMultiplier cands (2 ^ w) q = Ret mul.
Proof.
  intros Hp Hmod Hin Hg. unfold NewMultiplier.
  replace (isPowerOfTwo (2 ^ w)) with true
    by (symmetry; apply isPowerOfTwo_spec; eauto).
  replace (ProbablyPrime q) with true by (symmetry; now apply ProbablyPrime_spec).
  pose proof (Z.prime_ge_2 q Hp). pose proof (pow2_pos w).
  rewrite big_Mod_pos by lia. rewrite Hmod. cbn [negb Z.eqb Pos.eqb].
  destruct (FindPrimitiveRootOfUnity_returns cands _ q g Hin Hg) as [g' ->].
  cbn [bind]. eauto.
Qed.

(* ================================================================== *)
(** ** [NTT] and [INTT] return, and what they return *)

Lemma nth_map_Z (f : Z -> Z) (l : list Z) (x : nat) :
  (x < length l)%nat -> nth x (map f l) 0 = f (nth x l 0).
Proof.
  intros Hx. rewrite (nth_indep _ 0 (f 0)) by (rewrite length_map; exact Hx).
  apply map_nth.
Qed.

Lemma lin_lt_pow2 (w : nat) : (w <= 2 ^ w)%nat.
Proof. pose proof (Nat.pow_gt_lin_r 2 w ltac:(lia)). lia. Qed.

Lemma intt_scale_loop (q nInv : Z) (c : list Z) :
  0 < q ->
  for_loop (length c) 0 (intt_scale q nInv) c = Ret (map (fun x => (x * nInv) mod q) c).
Proof.
  intros Hq.
  destruct (for_loop_inv
    (fun k a =>
       length a = length c /\
       (forall x, (x < k)%nat -> nth x a 0 = (nth x c 0 * nInv) mod q) /\
       (forall x, (k <= x)%nat -> nth x a 0 = nth x c 0))
    (length c) O (intt_scale q nInv) c) as (c' & E & HL & Hin & _).
  - repeat split; intros; try lia; reflexivity.
  - intros k a Hk (HL & Hin & Hout). rewrite Nat.add_0_l.
    unfold intt_scale. rewrite index_Ret by lia. cbn [bind].
    rewrite store_Ret by lia. eexists. split; [reflexivity|].
    split; [now rewrite length_upd|]. split.
    + intros x Hx. destruct (Nat.eq_dec x k) as [->|Hne].
      * rewrite nth_upd_eq by lia. rewrite big_Mod_pos by exact Hq.
        now rewrite Hout by lia.
      * rewrite nth_upd_ne by lia. apply Hin. lia.
    + intros x Hx. rewrite nth_upd_ne by lia. apply Hout. lia.
  - rewrite E. f_equal. apply (nth_ext _ _ 0 0).
    + now rewrite length_map.
    + intros x Hx. rewrite nth_map_Z by lia. apply Hin. lia.
Qed.

Section Transforms.

Variable mul : Multiplier.
Variable w : nat.
Hypothesis Hwf : wf_multiplier mul w.

Lemma wf_q_pos : 0 < Mod mul.
Proof. pose proof (Z.prime_ge_2 _ (wf_prime _ _ Hwf)). lia. Qed.

Lemma NTT_spec (a : Polynomial) :
  Deg a = (2 ^ w)%nat ->
  exists a', NTT mul a = Ret (mkPolynomial a') /\
             chain (map (ntt_stage_rel (Mod mul) (rootsBitReverse mul) w) (seq 0 w))
                   (Coeffs a) a'.
Proof.
  intros Hdeg. unfold NTT. rewrite (wf_N _ _ Hwf).
  destruct (ntt_stages_spec (Mod mul) (rootsBitReverse mul) w wf_q_pos
              (wf_roots_len _ _ Hwf) w O (2 ^ w)%nat (Coeffs a)
              ltac:(lia) (lin_lt_pow2 w) Hdeg) as (a' & E & C).
  change (2 ^ 0)%nat with 1%nat in E. rewrite E. cbn [bind].
  exists a'. auto.
Qed.

Lemma INTT_spec (b : Polynomial) :
  Deg b = (2 ^ w)%nat ->
  exists b1, INTT mul b =
               Ret (mkPolynomial (map (fun x => (x * nInvQ mul) mod Mod mul) b1)) /\
             chain (map (intt_stage_rel (Mod mul) (invRootsBitReverse mul) w) (rev (seq 0 w)))
                   (Coeffs b) b1.
Proof.
  intros Hdeg. unfold INTT. rewrite (wf_N _ _ Hwf).
  destruct (intt_stages_spec (Mod mul) (invRootsBitReverse mul) w wf_q_pos
              (wf_invRoots_len _ _ Hwf) w (2 ^ w)%nat (Coeffs b)
              ltac:(lia) (lin_lt_pow2 w) Hdeg) as (b1 & E & C).
  rewrite Nat.sub_diag in E. change (2 ^ 0)%nat with 1%nat in E.
  rewrite E. cbn [bind].
  pose proof (chain_intt_length _ _ _ _ _ _ C) as HL.
  replace (2 ^ w)%nat with (length b1) by (unfold Deg in Hdeg; lia).
  rewrite intt_scale_loop by exact wf_q_pos. cbn [bind].
  exists b1. auto.
Qed.

(** [INTT] applied to anything congruent to [NTT a] gives [a mod q]. *)
Lemma INTT_of_NTT (a : Polynomial) (a' : list Z) (b : Polynomial) :
  Deg a = (2 ^ w)%nat -> Deg b = (2 ^ w)%nat ->
  NTT mul a = Ret (mkPolynomial a') ->
  (forall x, (x < 2 ^ w)%nat -> cong (Mod mul) (nth x (Coeffs b) 0) (nth x a' 0)) ->
  INTT mul b = Ret (mkPolynomial (map (fun c => c mod Mod mul) (Coeffs a))).
Proof.
  intros Ha Hb HN Hcong.
  destruct (NTT_spec a Ha) as (a'' & E & Cn). rewrite HN in E.
  injection E as <-.
  destruct (INTT_spec b Hb) as (b1 & E & Ci). rewrite E. do 2 f_equal.
  pose proof (chain_intt_length _ _ _ _ _ _ Ci) as HL. unfold Deg in Ha, Hb.
  apply (nth_ext _ _ 0 0).
  - rewrite !length_map. lia.
  - intros x Hx. rewrite length_map in Hx.
    rewrite !nth_map_Z by lia.
    apply (proj1 (cong_iff _ _ _)).
    assert (H := intt_undoes_ntt (Mod mul) (rootsBitReverse mul) (invRootsBitReverse mul)
                        w w O 1 (Coeffs a) a' (Coeffs b) b1 ltac:(lia) Ha
                   (wf_inverse _ _ Hwf) Cn Ci).
    rewrite H; [| intros y Hy; rewrite (Hcong y Hy); apply cong_eq; ring | lia].
    change 2 with (Z.of_nat 2). rewrite <- Nat2Z.inj_pow.
    transitivity (Z.of_nat (N mul) * nInvQ mul * nth x (Coeffs a) 0).
    + rewrite (wf_N _ _ Hwf). apply cong_eq. ring.
    + rewrite (wf_nInv _ _ Hwf). apply cong_eq. ring.
Qed.

End Transforms.

(* ================================================================== *)
(** ** Twisted convolutions

    [tconv n r a b] is the product of [a] and [b] in [Z[X]/(X^n - r)]: the
    terms of degree [k + n] wrap around to degree [k] with the factor [r].
    The negacyclic convolution is the case [r = -1]. *)

Fixpoint sumZ (n : nat) (f : nat -> Z) : Z :=
  match n with
  | O => 0
  | S n' => sumZ n' f + f n'
  end.

Definition kappa (n : nat) (r : Z) (s k : nat) : Z :=
  if (s =? k)%nat then 1 else if (s =? k + n)%nat then r else 0.

Definition tconv (n : nat) (r : Z) (a b : nat -> Z) (k : nat) : Z :=
  sumZ n (fun i => sumZ n (fun j => a i * b j * kappa n r (i + j) k)).

(** Case analysis on every comparison of indices in the goal; the
    impossible combinations are closed by [lia]. *)
Ltac case_eqb :=
  repeat match goal with
         | |- context [(?x =? ?y)%nat] => destruct (Nat.eqb_spec x y); try lia
         end.

Lemma sumZ_ext (n : nat) (f g : nat -> Z) :
  (forall i, (i < n)%nat -> f i = g i) -> sumZ n f = sumZ n g.
Proof.
  induction n as [|n IH]; intros H; simpl; [reflexivity|].
  rewrite IH by (intros; apply H; lia). rewrite H by lia. reflexivity.
Qed.

Lemma sumZ_cong (q : Z) (n : nat) (f g : nat -> Z) :
  (forall i, (i < n)%nat -> cong q (f i) (g i)) -> cong q (sumZ n f) (sumZ n g).
Proof.
  induction n as [|n IH]; intros H; simpl; [reflexivity|].
  rewrite IH by (intros; apply H; lia). rewrite (H n) by lia. reflexivity.
Qed.

Lemma sumZ_add (n : nat) (f g : nat -> Z) :
  sumZ n f + sumZ n g = sumZ n (fun i => f i + g i).
Proof. induction n as [|n IH]; simpl; [reflexivity|]. rewrite <- IH. ring. Qed.

Lemma sumZ_scale (n : nat) (c : Z) (f : nat -> Z) :
  c * sumZ n f = sumZ n (fun i => c * f i).
Proof. induction n as [|n IH]; simpl; [ring|]. rewrite <- IH. ring. Qed.

Lemma sumZ_app (n m : nat) (f : nat -> Z) :
  sumZ (n + m) f = sumZ n f + sumZ m (fun i => f (n + i)%nat).
Proof.
  induction m as [|m IH]; simpl.
  - rewrite Nat.add_0_r. ring.
  - rewrite Nat.add_succ_r. simpl. rewrite IH. ring.
Qed.

Lemma sumZ_halves (t : nat) (f : nat -> Z) :
  sumZ (2 * t) f = sumZ t (fun i => f i + f (i + t)%nat).
Proof.
  replace (2 * t)%nat with (t + t)%nat by lia.
  rewrite sumZ_app, sumZ_add. apply sumZ_ext. intros i _.
  now rewrite (Nat.add_comm t i).
Qed.

Lemma sumZ_zero (n : nat) (f : nat -> Z) :
  (forall i, (i < n)%nat -> f i = 0) -> sumZ n f = 0.
Proof.
  induction n as [|n IH]; intros H; simpl; [reflexivity|].
  rewrite IH by (intros; apply H; lia). rewrite H by lia. reflexivity.
Qed.

(** A sum with a single non-zero term. *)
Lemma sumZ_single (n : nat) (f : nat -> Z) (i0 : nat) :
  (i0 < n)%nat -> (forall i, (i < n)%nat -> i <> i0 -> f i = 0) ->
  sumZ n f = f i0.
Proof.
  induction n as [|n IH]; intros Hi H; [lia|]. simpl.
  destruct (Nat.eq_dec i0 n) as [->|Hne].
  - rewrite sumZ_zero by (intros; apply H; lia). ring.
  - rewrite IH by (try lia; intros; apply H; lia).
    rewrite (H n) by lia. ring.
Qed.

Lemma dsum_halves (t : nat) (F : nat -> nat -> Z) :
  sumZ (2 * t) (fun i => sumZ (2 * t) (fun j => F i j)) =
  sumZ t (fun i => sumZ t (fun j =>
    F i j + F i (j + t)%nat + (F (i + t)%nat j + F (i + t)%nat (j + t)%nat))).
Proof.
  rewrite sumZ_halves. apply sumZ_ext. intros i _.
  rewrite !sumZ_halves, sumZ_add. reflexivity.
Qed.

Lemma dsum_lin (n : nat) (c : Z) (F G : nat -> nat -> Z) :
  sumZ n (fun i => sumZ n (fun j => F i j))
  + c * sumZ n (fun i => sumZ n (fun j => G i j)) =
  sumZ n (fun i => sumZ n (fun j => F i j + c * G i j)).
Proof.
  rewrite sumZ_scale, sumZ_add. apply sumZ_ext. intros i _.
  rewrite sumZ_scale, sumZ_add. reflexivity.
Qed.

Lemma kappa_cong (q : Z) (n : nat) (r r' : Z) (s k : nat) :
  cong q r r' -> cong q (kappa n r s k) (kappa n r' s k).
Proof.
  intros H. unfold kappa.
  destruct (s =? k)%nat; [reflexivity|].
  destruct (s =? k + n)%nat; [exact H | reflexivity].
Qed.

Lemma tconv_cong (q : Z) (n : nat) (r r' : Z) (a a' b b' : nat -> Z) (k : nat) :
  cong q r r' ->
  (forall i, (i < n)%nat -> cong q (a i) (a' i)) ->
  (forall j, (j < n)%nat -> cong q (b j) (b' j)) ->
  cong q (tconv n r a b k) (tconv n r' a' b' k).
Proof.
  intros Hr Ha Hb. unfold tconv.
  apply sumZ_cong. intros i Hi. apply sumZ_cong. intros j Hj.
  now rewrite (Ha i Hi), (Hb j Hj), (kappa_cong q n r r' (i + j) k Hr).
Qed.

(** Reduction modulo [X^t - s] is a ring morphism from [Z[X]/(X^(2t) - s^2)]
    to [Z[X]/(X^t - s)]: it sends [a_lo + a_hi X^t] to [a_lo + s a_hi]. *)
Lemma tconv_fold_exact (t : nat) (s : Z) (a b : nat -> Z) (k : nat) :
  (k < t)%nat ->
  tconv (2 * t) (s * s) a b k + s * tconv (2 * t) (s * s) a b (k + t) =
  tconv t s (fun i => a i + s * a (i + t)%nat) (fun j => b j + s * b (j + t)%nat) k.
Proof.
  intros Hk. unfold tconv.
  rewrite dsum_lin, dsum_halves.
  apply sumZ_ext. intros i Hi. apply sumZ_ext. intros j Hj.
  unfold kappa.
  case_eqb; ring.
Qed.

Lemma tconv_fold_lo (q : Z) (t : nat) (r s : Z) (a b : nat -> Z) (k : nat) :
  cong q (s * s) r -> (k < t)%nat ->
  cong q (tconv (2 * t) r a b k + s * tconv (2 * t) r a b (k + t))
         (tconv t s (fun i => a i + s * a (i + t)%nat)
                    (fun j => b j + s * b (j + t)%nat) k).
Proof.
  intros Hr Hk.
  rewrite <- (tconv_fold_exact t s a b k Hk).
  rewrite (tconv_cong q (2 * t) r (s * s) a a b b k);
    [| now symmetry | reflexivity | reflexivity].
  rewrite (tconv_cong q (2 * t) r (s * s) a a b b (k + t));
    [| now symmetry | reflexivity | reflexivity].
  reflexivity.
Qed.

Lemma tconv_fold_hi (q : Z) (t : nat) (r s : Z) (a b : nat -> Z) (k : nat) :
  cong q (s * s) r -> (k < t)%nat ->
  cong q (tconv (2 * t) r a b k - s * tconv (2 * t) r a b (k + t))
         (tconv t (- s) (fun i => a i - s * a (i + t)%nat)
                        (fun j => b j - s * b (j + t)%nat) k).
Proof.
  intros Hr Hk.
  assert (Hr' : cong q (- s * - s) r) by (rewrite <- Hr; apply cong_eq; ring).
  pose proof (tconv_fold_lo q t r (- s) a b k Hr' Hk) as H.
  transitivity (tconv (2 * t) r a b k + - s * tconv (2 * t) r a b (k + t)).
  - apply cong_eq. ring.
  - rewrite H. apply tconv_cong; [reflexivity | |]; intros; apply cong_eq; ring.
Qed.

Lemma tconv_1 (r : Z) (a b : nat -> Z) : tconv 1 r a b 0 = a O * b O.
Proof. unfold tconv, kappa. simpl. ring. Qed.

(* ================================================================== *)
(** ** The forward transform turns the negacyclic product into the
       pointwise product *)

Definition blockf (a : list Z) (off : nat) : nat -> Z :=
  fun x => nth (off + x) a 0.

(** Block [i] of [C] is the product of the blocks [i] of [A] and [B] in the
    ring [Z_q[X]/(X^nb - twist (m + i))]. *)
Definition conv_inv (q : Z) (roots : list Z) (m nb : nat) (A B C : list Z) : Prop :=
  forall i k, (i < m)%nat -> (k < nb)%nat ->
    cong q (nth (i * nb + k) C 0)
         (tconv nb (twist roots (m + i)) (blockf A (i * nb)) (blockf B (i * nb)) k).

Lemma twist_even (roots : list Z) (k : nat) :
  (1 <= k)%nat -> twist roots (2 * k) = nth k roots 0.
Proof.
  intros Hk. unfold twist.
  destruct (Nat.eqb_spec (2 * k) 1); [lia|].
  replace (Nat.even (2 * k)) with true by (symmetry; apply Nat.even_spec; now exists k).
  now replace (2 * k / 2)%nat with k by (rewrite Nat.mul_comm, Nat.div_mul; lia).
Qed.

Lemma twist_odd (roots : list Z) (k : nat) :
  (1 <= k)%nat -> twist roots (2 * k + 1) = - nth k roots 0.
Proof.
  intros Hk. unfold twist.
  destruct (Nat.eqb_spec (2 * k + 1) 1); [lia|].
  replace (Nat.even (2 * k + 1)) with false.
  2:{ symmetry. rewrite <- Nat.negb_odd. apply negb_false_iff.
      apply Nat.odd_spec. now exists k. }
  replace ((2 * k + 1) / 2)%nat with k; [reflexivity|].
  rewrite Nat.add_comm, Nat.mul_comm, Nat.div_add by lia. reflexivity.
Qed.

Lemma conv_inv_stage (q : Z) (roots : list Z) (m t : nat) (A B C A' B' C' : list Z) :
  (1 <= m)%nat ->
  (forall i, (i < m)%nat ->
     cong q (nth (m + i) roots 0 * nth (m + i) roots 0) (twist roots (m + i))) ->
  stage_rel (ct_lo q roots m) (ct_hi q roots m) m t A A' ->
  stage_rel (ct_lo q roots m) (ct_hi q roots m) m t B B' ->
  stage_rel (ct_lo q roots m) (ct_hi q roots m) m t C C' ->
  conv_inv q roots m (2 * t) A B C ->
  conv_inv q roots (2 * m) t A' B' C'.
Proof.
  intros Hm Htree [_ HA] [_ HB] [_ HC] Hinv i' k Hi' Hk.
  pose proof (Nat.div_mod_eq i' 2) as Hdm.
  pose proof (Nat.mod_upper_bound i' 2 ltac:(lia)) as Hr.
  set (i := (i' / 2)%nat) in *.
  assert (Hi : (i < m)%nat) by lia.
  set (s := nth (m + i) roots 0).
  pose proof (Hinv i k Hi ltac:(lia)) as I1.
  pose proof (Hinv i (k + t)%nat Hi ltac:(lia)) as I2.
  destruct (HC i k Hi Hk) as [C1 C2].
  assert (HA1 : forall x, (x < t)%nat ->
            cong q (blockf A' (2 * i * t) x)
                 (blockf A (i * (2 * t)) x + s * blockf A (i * (2 * t)) (x + t))).
  { intros x Hx. unfold blockf. destruct (HA i x Hi Hx) as [E _].
    replace (2 * i * t + x)%nat with (i * (2 * t) + x)%nat by lia.
    rewrite E. unfold ct_lo. rewrite cong_mod.
    replace (i * (2 * t) + (x + t))%nat with (i * (2 * t) + x + t)%nat by lia.
    apply cong_eq. fold s. ring. }
  assert (HA2 : forall x, (x < t)%nat ->
            cong q (blockf A' ((2 * i + 1) * t) x)
                 (blockf A (i * (2 * t)) x - s * blockf A (i * (2 * t)) (x + t))).
  { intros x Hx. unfold blockf. destruct (HA i x Hi Hx) as [_ E].
    replace ((2 * i + 1) * t + x)%nat with (i * (2 * t) + x + t)%nat by lia.
    rewrite E. unfold ct_hi. rewrite cong_mod.
    replace (i * (2 * t) + (x + t))%nat with (i * (2 * t) + x + t)%nat by lia.
    apply cong_eq. fold s. ring. }
  assert (HB1 : forall x, (x < t)%nat ->
            cong q (blockf B' (2 * i * t) x)
                 (blockf B (i * (2 * t)) x + s * blockf B (i * (2 * t)) (x + t))).
  { intros x Hx. unfold blockf. destruct (HB i x Hi Hx) as [E _].
    replace (2 * i * t + x)%nat with (i * (2 * t) + x)%nat by lia.
    rewrite E. unfold ct_lo. rewrite cong_mod.
    replace (i * (2 * t) + (x + t))%nat with (i * (2 * t) + x + t)%nat by lia.
    apply cong_eq. fold s. ring. }
  assert (HB2 : forall x, (x < t)%nat ->
            cong q (blockf B' ((2 * i + 1) * t) x)
                 (blockf B (i * (2 * t)) x - s * blockf B (i * (2 * t)) (x + t))).
  { intros x Hx. unfold blockf. destruct (HB i x Hi Hx) as [_ E].
    replace ((2 * i + 1) * t + x)%nat with (i * (2 * t) + x + t)%nat by lia.
    rewrite E. unfold ct_hi. rewrite cong_mod.
    replace (i * (2 * t) + (x + t))%nat with (i * (2 * t) + x + t)%nat by lia.
    apply cong_eq. fold s. ring. }
  replace (i * (2 * t) + (k + t))%nat with (i * (2 * t) + k + t)%nat in I2 by lia.
  assert (Hb : (i' mod 2 = 0 \/ i' mod 2 = 1)%nat) by lia.
  destruct Hb as [Hb|Hb]; rewrite Hb in Hdm.
  - replace i' with (2 * i)%nat by lia.
    replace (2 * m + 2 * i)%nat with (2 * (m + i))%nat by lia.
    rewrite twist_even by lia. fold s.
    replace (2 * i * t + k)%nat with (i * (2 * t) + k)%nat by lia.
    rewrite C1. unfold ct_lo. rewrite cong_mod. fold s. rewrite I1, I2.
    rewrite (Z.mul_comm _ s).
    rewrite (tconv_fold_lo q t _ s _ _ k (Htree i Hi) Hk).
    apply tconv_cong; [reflexivity | |]; intros x Hx; symmetry; auto.
  - replace i' with (2 * i + 1)%nat by lia.
    replace (2 * m + (2 * i + 1))%nat with (2 * (m + i) + 1)%nat by lia.
    rewrite twist_odd by lia. fold s.
    replace ((2 * i + 1) * t + k)%nat with (i * (2 * t) + k + t)%nat by lia.
    rewrite C2. unfold ct_hi. rewrite cong_mod. fold s. rewrite I1, I2.
    rewrite (Z.mul_comm _ s).
    rewrite (tconv_fold_hi q t _ s _ _ k (Htree i Hi) Hk).
    apply tconv_cong; [reflexivity | |]; intros x Hx; symmetry; auto.
Qed.

Lemma conv_inv_chain (q : Z) (roots : list Z) (w d : nat) :
  forall (e : nat) (A B C A' B' C' : list Z),
    (e + d = w)%nat ->
    (forall k, (1 <= k < 2 ^ w)%nat ->
       cong q (nth k roots 0 * nth k roots 0) (twist roots k)) ->
    chain (map (ntt_stage_rel q roots w) (seq e d)) A A' ->
    chain (map (ntt_stage_rel q roots w) (seq e d)) B B' ->
    chain (map (ntt_stage_rel q roots w) (seq e d)) C C' ->
    conv_inv q roots (2 ^ e) (2 ^ d) A B C ->
    conv_inv q roots (2 ^ w) 1 A' B' C'.
Proof.
  induction d as [|d IH]; intros e A B C A' B' C' He Htree HA HB HC Hinv.
  - simpl in HA, HB, HC. subst A' B' C'.
    replace w with e by lia. exact Hinv.
  - cbn [seq map chain] in HA, HB, HC.
    destruct HA as (A1 & RA & HA). destruct HB as (B1 & RB & HB).
    destruct HC as (C1 & RC & HC).
    apply (IH (S e) A1 B1 C1); try assumption; try lia.
    unfold ntt_stage_rel in RA, RB, RC.
    replace (w - 1 - e)%nat with d in RA, RB, RC by lia.
    rewrite Nat.pow_succ_r'.
    assert (Hm : (1 <= 2 ^ e)%nat) by (pose proof (pow2_pos e); lia).
    assert (Ht : forall i, (i < 2 ^ e)%nat ->
              cong q (nth (2 ^ e + i) roots 0 * nth (2 ^ e + i) roots 0)
                   (twist roots (2 ^ e + i))).
    { intros i Hi. apply Htree.
      assert (2 * 2 ^ e <= 2 ^ w)%nat
        by (rewrite <- Nat.pow_succ_r'; apply Nat.pow_le_mono_r; lia).
      lia. }
    rewrite Nat.pow_succ_r' in Hinv.
    exact (conv_inv_stage q roots (2 ^ e) (2 ^ d) A B C A1 B1 C1 Hm Ht RA RB RC Hinv).
Qed.

(* ================================================================== *)
(** ** The reference convolution in closed form *)

Lemma nth_reference_step (n : nat) (xi yj : Z) (i j k : nat) (out : list Z) :
  (i < n)%nat -> (j < n)%nat -> (k < n)%nat -> length out = n ->
  nth k (reference_step n xi yj i j out) 0 =
  nth k out 0 + xi * yj * kappa n (-1) (i + j) k.
Proof.
  intros Hi Hj Hk HL. unfold reference_step, kappa.
  destruct (Nat.ltb_spec (i + j) n).
  - destruct (Nat.eqb_spec (i + j) k) as [->|Hne].
    + rewrite nth_upd_eq by lia. ring.
    + rewrite nth_upd_ne by lia.
      destruct (Nat.eqb_spec (i + j) (k + n)); [lia | ring].
  - destruct (Nat.eqb_spec (i + j) k); [lia|].
    destruct (Nat.eqb_spec (i + j) (k + n)) as [E|Hne].
    + replace (i + j - n)%nat with k by lia. rewrite nth_upd_eq by lia. ring.
    + rewrite nth_upd_ne by lia. ring.
Qed.

Lemma length_reference_step (n : nat) (xi yj : Z) (i j : nat) (out : list Z) :
  length (reference_step n xi yj i j out) = length out.
Proof. unfold reference_step. destruct (i + j <? n)%nat; apply length_upd. Qed.

Lemma reference_row_prefix (n : nat) (x y : list Z) (i : nat) (out : list Z) (c : nat) :
  (i < n)%nat -> (c <= n)%nat -> length out = n ->
  let out' := fold_left (fun out j => reference_step n (nth i x 0) (nth j y 0) i j out)
                        (seq 0 c) out in
  length out' = n /\
  forall k, (k < n)%nat ->
    nth k out' 0 = nth k out 0
      + sumZ c (fun j => nth i x 0 * nth j y 0 * kappa n (-1) (i + j) k).
Proof.
  intros Hi Hc HL. induction c as [|c IH]; cbn zeta.
  - simpl. split; [exact HL|]. intros. ring.
  - rewrite seq_S, fold_left_app. cbn [fold_left Nat.add].
    destruct (IH ltac:(lia)) as [HL' Hnth]. cbn zeta in HL', Hnth.
    split.
    + now rewrite length_reference_step.
    + intros k Hk. rewrite nth_reference_step by lia.
      rewrite Hnth by exact Hk. simpl. ring.
Qed.

Lemma reference_rows_prefix (n : nat) (x y : list Z) (c : nat) :
  (c <= n)%nat ->
  let out' := fold_left (reference_row n x y) (seq 0 c) (repeat 0 n) in
  length out' = n /\
  forall k, (k < n)%nat ->
    nth k out' 0 =
      sumZ c (fun i => sumZ n (fun j => nth i x 0 * nth j y 0 * kappa n (-1) (i + j) k)).
Proof.
  intros Hc. induction c as [|c IH]; cbn zeta.
  - simpl. split; [apply repeat_length|]. intros. apply nth_repeat.
  - rewrite seq_S, fold_left_app. cbn [fold_left Nat.add].
    destruct (IH ltac:(lia)) as [HL' Hnth]. cbn zeta in HL', Hnth.
    destruct (reference_row_prefix n x y c _ n ltac:(lia) (Nat.le_refl n) HL')
      as [HL2 Hrow].
    cbn zeta in HL2, Hrow. split.
    + exact HL2.
    + intros k Hk. unfold reference_row. rewrite Hrow by exact Hk.
      rewrite Hnth by exact Hk. reflexivity.
Qed.

Lemma length_reference_convolution (x y : list Z) :
  length (reference_convolution x y) = length x.
Proof.
  unfold reference_convolution.
  apply (reference_rows_prefix (length x) x y (length x) (Nat.le_refl _)).
Qed.

Lemma nth_reference_convolution (x y : list Z) (k : nat) :
  (k < length x)%nat ->
  nth k (reference_convolution x y) 0 =
  tconv (length x) (-1) (fun i => nth i x 0) (fun j => nth j y 0) k.
Proof.
  intros Hk. unfold reference_convolution, tconv.
  now apply (reference_rows_prefix (length x) x y (length x) (Nat.le_refl _)).
Qed.

(* ================================================================== *)
(** ** [Hadamard] and [Multiplier.Mul] *)

(** A loop that overwrites entry [i] with [f i] fills the slice with [f]. *)
Lemma fill_loop (body : nat -> list Z -> outcome (list Z)) (f : nat -> Z)
      (n : nat) (c0 : list Z) :
  length c0 = n ->
  (forall i c, (i < n)%nat -> length c = n -> body i c = Ret (upd c i (f i))) ->
  for_loop n 0 body c0 = Ret (map f (seq 0 n)).
Proof.
  intros HL Hbody.
  destruct (for_loop_inv
    (fun k c => length c = n /\ forall i, (i < k)%nat -> nth i c 0 = f i)
    n O body c0) as (c' & E & HL' & Hin).
  - split; [exact HL|]. intros; lia.
  - intros k c Hk [HLc Hin]. rewrite Nat.add_0_l.
    exists (upd c k (f k)). split; [now apply Hbody|].
    split; [now rewrite length_upd|].
    intros i Hi. destruct (Nat.eq_dec i k) as [->|Hne].
    + apply nth_upd_eq. lia.
    + rewrite nth_upd_ne by lia. apply Hin. lia.
  - rewrite E. f_equal. apply (nth_ext _ _ 0 0).
    + now rewrite length_map, length_seq.
    + intros i Hi. rewrite nth_map_seq by lia. apply Hin. lia.
Qed.

Lemma NewPolynomial_pow2 (w : nat) :
  NewPolynomial (2 ^ w) = Ret (mkPolynomial (repeat 0 (2 ^ w))).
Proof.
  unfold NewPolynomial.
  replace (isPowerOfTwo (2 ^ w)) with true
    by (symmetry; apply isPowerOfTwo_spec; eauto).
  reflexivity.
Qed.

Lemma Hadamard_spec (mul : Multiplier) (w : nat) (a b : Polynomial) :
  0 < Mod mul -> Deg a = (2 ^ w)%nat -> Deg b = (2 ^ w)%nat ->
  Hadamard mul a b =
  Ret (mkPolynomial
         (map (fun i => (nth i (Coeffs a) 0 * nth i (Coeffs b) 0) mod Mod mul)
              (seq 0 (2 ^ w)))).
Proof.
  intros Hq Ha Hb. unfold Hadamard. rewrite Ha, Hb, Nat.eqb_refl. cbn [negb].
  rewrite NewPolynomial_pow2. cbn [bind Coeffs].
  rewrite (fill_loop _ (fun i => (nth i (Coeffs a) 0 * nth i (Coeffs b) 0) mod Mod mul)).
  - reflexivity.
  - apply repeat_length.
  - intros i c Hi HL. unfold hadamard_step, Deg in *.
    rewrite !index_Ret by lia. cbn [bind].
    rewrite store_Ret by lia. now rewrite big_Mod_pos.
Qed.

Lemma mul_copy_loop (x y a0 b0 : list Z) (n : nat) :
  length x = n -> length y = n -> length a0 = n -> length b0 = n ->
  for_loop n 0 (mul_copy_step x y) (a0, b0) = Ret (x, y).
Proof.
  intros Hx Hy Ha Hb.
  destruct (for_loop_inv
    (fun k (st : list Z * list Z) =>
       length (fst st) = n /\ length (snd st) = n /\
       forall i, (i < k)%nat ->
         nth i (fst st) 0 = nth i x 0 /\ nth i (snd st) 0 = nth i y 0)
    n O (mul_copy_step x y) (a0, b0)) as ([a b] & E & HLa & HLb & Hin).
  - cbn [fst snd]. repeat split; auto; lia.
  - intros k [a b] Hk (HLa & HLb & Hin). cbn [fst snd] in *.
    rewrite Nat.add_0_l. unfold mul_copy_step.
    rewrite !index_Ret by lia. cbn [bind].
    rewrite !store_Ret by lia. cbn [bind].
    eexists. split; [reflexivity|]. cbn [fst snd].
    split; [now rewrite length_upd|]. split; [now rewrite length_upd|].
    intros i Hi. destruct (Nat.eq_dec i k) as [->|Hne].
    + rewrite !nth_upd_eq by lia. auto.
    + rewrite !nth_upd_ne by lia. apply Hin. lia.
  - cbn [fst snd] in *. rewrite E. do 2 f_equal.
    + apply (nth_ext _ _ 0 0); [lia|]. intros i Hi. apply Hin. lia.
    + apply (nth_ext _ _ 0 0); [lia|]. intros i Hi. apply Hin. lia.
Qed.

Lemma tconv_block0 (n : nat) (r : Z) (x y : list Z) (k : nat) :
  tconv n r (blockf x (0 * n)) (blockf y (0 * n)) k =
  tconv n r (fun i => nth i x 0) (fun j => nth j y 0) k.
Proof. reflexivity. Qed.

(** The product computed by a well-formed multiplier: the canonical residues
    of the reference convolution. *)
Lemma Multiplier_Mul_wf (mul : Multiplier) (w : nat) (x y : Polynomial) :
  wf_multiplier mul w -> Deg x = (2 ^ w)%nat -> Deg y = (2 ^ w)%nat ->
  Multiplier_Mul mul x y =
  Ret (mkPolynomial (map (fun c => c mod Mod mul)
                         (reference_convolution (Coeffs x) (Coeffs y)))).
Proof.
  intros Hwf Hx Hy.
  pose proof (wf_q_pos mul w Hwf) as Hq.
  unfold Multiplier_Mul. rewrite Hx, Hy, Nat.eqb_refl. cbn [negb].
  rewrite NewPolynomial_pow2. cbn [bind Coeffs].
  rewrite (mul_copy_loop _ _ _ _ (2 ^ w)%nat Hx Hy (repeat_length _ _) (repeat_length _ _)).
  cbn [bind].
  set (C := mkPolynomial (reference_convolution (Coeffs x) (Coeffs y))).
  assert (HC : Deg C = (2 ^ w)%nat)
    by (unfold Deg, C; cbn [Coeffs]; now rewrite length_reference_convolution).
  destruct (NTT_spec mul w Hwf (mkPolynomial (Coeffs x)) Hx) as (A' & EA & CA).
  destruct (NTT_spec mul w Hwf (mkPolynomial (Coeffs y)) Hy) as (B' & EB & CB).
  destruct (NTT_spec mul w Hwf C HC) as (C' & EC & CC).
  cbn [Coeffs] in CA, CB.
  rewrite EA. cbn [bind]. rewrite EB. cbn [bind].
  assert (HLA : length A' = (2 ^ w)%nat) by (rewrite (chain_ntt_length _ _ _ _ _ _ CA); exact Hx).
  assert (HLB : length B' = (2 ^ w)%nat) by (rewrite (chain_ntt_length _ _ _ _ _ _ CB); exact Hy).
  rewrite (Hadamard_spec mul w (mkPolynomial A') (mkPolynomial B') Hq HLA HLB).
  cbn [bind Coeffs].
  assert (Hfinal : conv_inv (Mod mul) (rootsBitReverse mul) (2 ^ w) 1 A' B' C').
  { apply (conv_inv_chain (Mod mul) (rootsBitReverse mul) w w O
             (Coeffs x) (Coeffs y) (Coeffs C)); try assumption; try lia.
    - exact (wf_tree _ _ Hwf).
    - intros i k Hi Hk. change (2 ^ 0)%nat with 1%nat in Hi.
      assert (i = O) by lia. subst i.
      rewrite tconv_block0. unfold C. cbn [Coeffs].
      rewrite nth_reference_convolution by (unfold Deg in Hx; lia).
      unfold Deg in Hx. rewrite Hx. reflexivity. }
  rewrite (INTT_of_NTT mul w Hwf C C' _ HC).
  - cbn [bind Coeffs]. do 2 f_equal. unfold C. cbn [Coeffs].
    rewrite map_map. apply map_ext. intros c.
    rewrite big_Mod_pos by exact Hq. apply Zmod_mod.
  - unfold Deg. cbn [Coeffs]. now rewrite length_map, length_seq.
  - exact EC.
  - intros i Hi. cbn [Coeffs]. rewrite nth_map_seq by exact Hi.
    rewrite cong_mod.
    pose proof (Hfinal i O Hi ltac:(lia)) as H.
    rewrite Nat.mul_1_r, Nat.add_0_r in H. rewrite H.
    rewrite tconv_1. unfold blockf. rewrite Nat.add_0_r. reflexivity.
Qed.

Lemma Multiplier_Mul_spec (cands : list Z) (n : nat) (q : Z) (mul : Multiplier)
      (x y : Polynomial) :
  NewMultiplier cands n q = Ret mul -> Deg x = n -> Deg y = n ->
  Multiplier_Mul mul x y =
  Ret (mkPolynomial (map (fun c => c mod q)
                         (reference_convolution (Coeffs x) (Coeffs y)))).
Proof.
  intros Hnew Hx Hy.
  destruct (NewMultiplier_Ret _ _ _ _ Hnew) as (HN & HM & w & Hwf).
  rewrite <- HM. apply (Multiplier_Mul_wf mul w); [exact Hwf | |];
    rewrite <- (wf_N _ _ Hwf); congruence.
Qed.

(** The multiplier used by the examples: [N = 2], [q = 5], and a random
    source that proposes [3] and then [2] as roots of unity. *)
Definition mul_2_5 : Multiplier :=
  mkMultiplier 2 5 3 [1; 3] [1; 2].

Lemma NewMultiplier_2_5 : NewMultiplier [4; 3] 2 5 = Ret mul_2_5.
Proof. vm_compute. reflexivity. Qed.

(* ================================================================== *)
(** ** Theorems on the prime-field multiplier *)

(** C1: for a multiplier built by [NewMultiplier N q] (so [N] is a power of
    two, [q] is prime and [q = 1 (mod 2N)]) and polynomials [x], [y] of
    length [N], [Multiplier.Mul] returns a polynomial of length [N] whose
    coefficients are congruent modulo [q] to those of the reference
    negacyclic convolution. *)
Theorem Multiplier_Mul_reference (cands : list Z) (n : nat) (q : Z)
        (mul : Multiplier) (x y : Polynomial) :
  NewMultiplier cands n q = Ret mul -> Deg x = n -> Deg y = n ->
  exists z, Multiplier_Mul mul x y = Ret z /\ Deg z = n /\
            forall i, (i < n)%nat ->
              cong q (nth i (Coeffs z) 0)
                   (nth i (reference_convolution (Coeffs x) (Coeffs y)) 0).
Proof.
  intros Hnew Hx Hy.
  rewrite (Multiplier_Mul_spec cands n q mul x y Hnew Hx Hy).
  eexists. split; [reflexivity|]. unfold Deg in *. cbn [Coeffs].
  split.
  - now rewrite length_map, length_reference_convolution.
  - intros i Hi.
    rewrite nth_map_Z by (rewrite length_reference_convolution; lia).
    apply cong_mod.
Qed.

Lemma Multiplier_Mul_reference_witness :
  exists z, Multiplier_Mul mul_2_5 (mkPolynomial [3; 4]) (mkPolynomial [1; 2]) = Ret z /\
            Deg z = 2%nat /\
            forall i, (i < 2)%nat ->
              cong 5 (nth i (Coeffs z) 0)
                   (nth i (reference_convolution [3; 4] [1; 2]) 0).
Proof.
  exact (Multiplier_Mul_reference [4; 3] 2 5 mul_2_5
           (mkPolynomial [3; 4]) (mkPolynomial [1; 2])
           NewMultiplier_2_5 eq_refl eq_refl).
Defined.

(** C3: for a multiplier built by [NewMultiplier N q] and a polynomial [a] of
    length [N], [NTT] followed by [INTT] returns the coefficients of [a]
    reduced modulo [q]; when they already lie in [[0, q)] it returns [a]. *)
Theorem NTT_INTT_roundtrip (cands : list Z) (n : nat) (q : Z)
        (mul : Multiplier) (a : Polynomial) :
  NewMultiplier cands n q = Ret mul -> Deg a = n ->
  exists a1 a2, NTT mul a = Ret a1 /\ INTT mul a1 = Ret a2 /\
                Coeffs a2 = map (fun c => c mod q) (Coeffs a) /\
                (Forall (fun c => 0 <= c < q) (Coeffs a) -> a2 = a).
Proof.
  intros Hnew Ha.
  destruct (NewMultiplier_Ret _ _ _ _ Hnew) as (HN & HM & w & Hwf).
  assert (Ha' : Deg a = (2 ^ w)%nat) by (rewrite <- (wf_N _ _ Hwf); congruence).
  destruct (NTT_spec mul w Hwf a Ha') as (a' & E & Ch).
  exists (mkPolynomial a'), (mkPolynomial (map (fun c => c mod q) (Coeffs a))).
  split; [exact E|]. split.
  - rewrite <- HM. apply (INTT_of_NTT mul w Hwf a a'); auto.
    + unfold Deg. cbn [Coeffs]. rewrite (chain_ntt_length _ _ _ _ _ _ Ch). exact Ha'.
    + intros; reflexivity.
  - split; [reflexivity|]. intros Hrange. destruct a as [ca]. cbn [Coeffs] in *.
    f_equal. rewrite <- (map_id ca) at 2. apply map_ext_in.
    intros c Hc. rewrite Forall_forall in Hrange. apply Z.mod_small. auto.
Qed.

Lemma NTT_INTT_roundtrip_witness :
  exists a1 a2, NTT mul_2_5 (mkPolynomial [3; 9]) = Ret a1 /\
                INTT mul_2_5 a1 = Ret a2 /\
                Coeffs a2 = map (fun c => c mod 5) [3; 9] /\
                (Forall (fun c => 0 <= c < 5) [3; 9] -> a2 = mkPolynomial [3; 9]).
Proof.
  exact (NTT_INTT_roundtrip [4; 3] 2 5 mul_2_5 (mkPolynomial [3; 9])
           NewMultiplier_2_5 eq_refl).
Defined.

(* ================================================================== *)
(** ** Symmetric reduction *)

(** [c] lies in the symmetric interval [(-q/2, q/2]]. *)
Definition symmetric_range (q c : Z) : Prop := - q < 2 * c <= q.

Lemma symmetricModulus_coeff_range (q v : Z) :
  0 < q -> symmetric_range q (symmetricModulus_coeff q v).
Proof.
  intros Hq. unfold symmetric_range, symmetricModulus_coeff, big_Quo.
  rewrite big_Mod_pos by exact Hq.
  rewrite Z.quot_div_nonneg by lia.
  pose proof (Z.mod_pos_bound v q Hq) as Hv.
  pose proof (Z.div_mod q 2 ltac:(lia)) as Hdm.
  pose proof (Z.mod_pos_bound q 2 ltac:(lia)) as Hr.
  destruct (Z.ltb_spec (q / 2) (v mod q)); [lia|].
  destruct (Z.ltb_spec (v mod q) (- (q / 2))); lia.
Qed.

Lemma symmetricModulus_coeff_cong (q v : Z) :
  0 < q -> cong q (symmetricModulus_coeff q v) v.
Proof.
  intros Hq. unfold symmetricModulus_coeff.
  rewrite big_Mod_pos by exact Hq.
  destruct (Z.ltb_spec (big_Quo q 2) (v mod q)).
  - rewrite cong_mod. apply cong_divide; [lia|]. exists (-1). ring.
  - destruct (Z.ltb_spec (v mod q) (- big_Quo q 2)).
    + rewrite cong_mod. apply cong_divide; [lia|]. exists 1. ring.
    + apply cong_mod.
Qed.

(** A symmetric representative is left alone. *)
Lemma symmetricModulus_coeff_id (q c : Z) :
  0 < q -> symmetric_range q c -> symmetricModulus_coeff q c = c.
Proof.
  intros Hq Hc. unfold symmetric_range in Hc.
  unfold symmetricModulus_coeff, big_Quo.
  rewrite big_Mod_pos by exact Hq.
  rewrite Z.quot_div_nonneg by lia.
  pose proof (Z.div_mod q 2 ltac:(lia)) as Hdm.
  pose proof (Z.mod_pos_bound q 2 ltac:(lia)) as Hr.
  destruct (Z.le_gt_cases 0 c) as [Hpos|Hneg].
  - rewrite Z.mod_small by lia.
    destruct (Z.ltb_spec (q / 2) c); [lia|].
    destruct (Z.ltb_spec c (- (q / 2))); lia.
  - assert (Hm : c mod q = c + q).
    { symmetry. apply (Z.mod_unique c q (-1) (c + q)); lia. }
    rewrite Hm.
    destruct (Z.ltb_spec (q / 2) (c + q)); lia.
Qed.

Lemma symmetricModulus_coeff_mod (q c : Z) :
  0 < q -> symmetricModulus_coeff q (c mod q) = symmetricModulus_coeff q c.
Proof.
  intros Hq. unfold symmetricModulus_coeff.
  rewrite !big_Mod_pos by exact Hq. now rewrite Zmod_mod.
Qed.

(** C4, counterexample: [Multiplier.Mul] returns non-negative residues; for
    [N = 2], [q = 5], [x = 3], [y = 1] the coefficient [3] exceeds [5/2]. *)
Lemma C4_Mul_not_symmetric :
  ~ (forall (cands : list Z) (n : nat) (q : Z) (mul : Multiplier) (x y z : Polynomial),
       NewMultiplier cands n q = Ret mul -> Deg x = n -> Deg y = n ->
       Multiplier_Mul mul x y = Ret z ->
       Forall (symmetric_range q) (Coeffs z)).
Proof.
  intros H.
  specialize (H [4; 3] 2%nat 5 mul_2_5 (mkPolynomial [3; 0]) (mkPolynomial [1; 0])
                (mkPolynomial [3; 0]) NewMultiplier_2_5 eq_refl eq_refl eq_refl).
  cbn [Coeffs] in H. apply Forall_inv in H. unfold symmetric_range in H. lia.
Qed.

Lemma bind_Ret_inv {A B : Type} (c : outcome A) (k : A -> outcome B) (b : B) :
  bind c k = Ret b -> exists a, c = Ret a /\ k a = Ret b.
Proof. destruct c as [a| |]; cbn [bind]; [eauto | discriminate | discriminate]. Qed.

(** Whatever [Multiplier.Mul] returns went through its final [big.Int.Mod]. *)
Lemma Multiplier_Mul_Ret_inv (mul : Multiplier) (x y z : Polynomial) :
  Multiplier_Mul mul x y = Ret z ->
  exists c, Coeffs z = map (fun coeff => big_Mod coeff (Mod mul)) c.
Proof.
  unfold Multiplier_Mul.
  destruct (negb (Deg x =? Deg y)%nat); [discriminate|].
  intros H.
  apply bind_Ret_inv in H. destruct H as (a0 & _ & H).
  apply bind_Ret_inv in H. destruct H as (b0 & _ & H).
  apply bind_Ret_inv in H. destruct H as ([a b] & _ & H).
  apply bind_Ret_inv in H. destruct H as (a1 & _ & H).
  apply bind_Ret_inv in H. destruct H as (b1 & _ & H).
  apply bind_Ret_inv in H. destruct H as (c0 & _ & H).
  apply bind_Ret_inv in H. destruct H as (c1 & _ & H).
  injection H as <-. cbn [Coeffs]. eauto.
Qed.

(** C4, amended: for a multiplier built by [NewMultiplier] and all inputs,
    the coefficients of the polynomial that [Multiplier.Mul] returns are the
    non-negative residues in [[0, q)]; they are symmetric representatives in
    [(-q/2, q/2]] only after the caller applies [Polynomial.Mod q].  On
    inputs of length [N] the call returns. *)
Theorem Multiplier_Mul_range (cands : list Z) (n : nat) (q : Z) (mul : Multiplier) :
  NewMultiplier cands n q = Ret mul ->
  (forall x y z, Multiplier_Mul mul x y = Ret z ->
                 Forall (fun c => 0 <= c < q) (Coeffs z) /\
                 Forall (symmetric_range q) (Coeffs (Mod_ z q))) /\
  (forall x y, Deg x = n -> Deg y = n -> exists z, Multiplier_Mul mul x y = Ret z).
Proof.
  intros Hnew.
  destruct (NewMultiplier_Ret _ _ _ _ Hnew) as (HN & HM & w & Hwf).
  pose proof (wf_q_pos mul w Hwf) as Hq. rewrite HM in Hq.
  split.
  - intros x y z Hz.
    destruct (Multiplier_Mul_Ret_inv mul x y z Hz) as [c Hc].
    cbn [Mod_ symmetricModulus Coeffs]. rewrite Hc, HM. split.
    + apply Forall_forall. intros v Hv. apply in_map_iff in Hv.
      destruct Hv as (v0 & <- & _). rewrite big_Mod_pos by exact Hq.
      apply Z.mod_pos_bound. exact Hq.
    + apply Forall_forall. intros v Hv. apply in_map_iff in Hv.
      destruct Hv as (v0 & <- & _). now apply symmetricModulus_coeff_range.
  - intros x y Hx Hy.
    rewrite (Multiplier_Mul_spec cands n q mul x y Hnew Hx Hy). eauto.
Qed.

Lemma Multiplier_Mul_range_witness :
  (forall x y z, Multiplier_Mul mul_2_5 x y = Ret z ->
                 Forall (fun c => 0 <= c < 5) (Coeffs z) /\
                 Forall (symmetric_range 5) (Coeffs (Mod_ z 5))) /\
  (forall x y, Deg x = 2%nat -> Deg y = 2%nat ->
               exists z, Multiplier_Mul mul_2_5 x y = Ret z).
Proof. exact (Multiplier_Mul_range [4; 3] 2 5 mul_2_5 NewMultiplier_2_5). Defined.

(* ================================================================== *)
(** ** The CRT multiplier *)

Definition garner (p pInv a b : Z) : Z := (b - a) * pInv * p + a.

Lemma NewCRTMultiplier_Ret (candsP candsQ : list Z) (n : nat) (p q : Z)
      (m : CRTMultiplier) :
  NewCRTMultiplier candsP candsQ n p q = Ret m ->
  NewMultiplier candsP n p = Ret (multiplierP m) /\
  NewMultiplier candsQ n q = Ret (multiplierQ m) /\
  Z.prime p /\ Z.prime q /\ p <> q /\
  PQ m = p * q /\ pInvQ m = modularInverse p q.
Proof.
  unfold NewCRTMultiplier.
  destruct (isPowerOfTwo n); [|discriminate]. cbn [negb].
  destruct (ProbablyPrime p) eqn:Hp; [|discriminate].
  destruct (ProbablyPrime q) eqn:Hq; [|discriminate].
  destruct (Z.eqb_spec p q) as [|Hne]; [discriminate|]. cbn [negb orb].
  destruct (NewMultiplier candsP n p) as [mP| |]; cbn [bind]; try discriminate.
  destruct (NewMultiplier candsQ n q) as [mQ| |]; cbn [bind]; try discriminate.
  intros H. injection H as <-. cbn.
  apply ProbablyPrime_spec in Hp, Hq. tauto.
Qed.

Lemma CRTMultiplier_Mul_spec (candsP candsQ : list Z) (n : nat) (p q : Z)
      (m : CRTMultiplier) (x y : Polynomial) :
  NewCRTMultiplier candsP candsQ n p q = Ret m -> Deg x = n -> Deg y = n ->
  let ref := reference_convolution (Coeffs x) (Coeffs y) in
  Multiplier_Mul (multiplierP m) x y = Ret (mkPolynomial (map (fun c => c mod p) ref)) /\
  Multiplier_Mul (multiplierQ m) x y = Ret (mkPolynomial (map (fun c => c mod q) ref)) /\
  CRTMultiplier_Mul m x y =
  Ret (mkPolynomial
         (map (fun c => garner p (modularInverse p q) (c mod p) (c mod q)) ref)).
Proof.
  intros Hnew Hx Hy ref.
  destruct (NewCRTMultiplier_Ret _ _ _ _ _ _ Hnew) as (HP & HQ & _ & _ & _ & _ & Hinv).
  pose proof (Multiplier_Mul_spec _ _ _ _ x y HP Hx Hy) as EP.
  pose proof (Multiplier_Mul_spec _ _ _ _ x y HQ Hx Hy) as EQ.
  fold ref in EP, EQ.
  split; [exact EP|]. split; [exact EQ|].
  unfold CRTMultiplier_Mul. rewrite EP, EQ. cbn [bind Coeffs].
  destruct (NewMultiplier_Ret _ _ _ _ HP) as (HN & HM & w & Hwf).
  assert (Hn : n = (2 ^ w)%nat) by (rewrite <- (wf_N _ _ Hwf); congruence).
  rewrite Hx, Hn, NewPolynomial_pow2. cbn [bind Coeffs].
  assert (HLr : length ref = (2 ^ w)%nat).
  { unfold ref. rewrite length_reference_convolution. unfold Deg in Hx. lia. }
  rewrite (fill_loop _ (fun i => garner p (modularInverse p q)
                                   (nth i ref 0 mod p) (nth i ref 0 mod q))).
  - cbn [bind]. do 2 f_equal. apply (nth_ext _ _ 0 0).
    + now rewrite !length_map, length_seq.
    + intros i Hi. rewrite length_map, length_seq in Hi.
      rewrite nth_map_seq by exact Hi.
      rewrite (nth_map_Z (fun c => garner p (modularInverse p q) (c mod p) (c mod q)))
        by lia.
      reflexivity.
  - apply repeat_length.
  - intros i c Hi HL. unfold crt_step.
    rewrite !index_Ret by (rewrite length_map; lia). cbn [bind].
    rewrite store_Ret by lia.
    rewrite !nth_map_Z by lia. rewrite HM, Hinv. reflexivity.
Qed.

Lemma distinct_primes_unit (p q : Z) :
  Z.prime p -> Z.prime q -> p <> q -> p mod q <> 0.
Proof.
  intros Hp Hq Hne Hz.
  pose proof (Z.prime_ge_2 q Hq).
  apply Z.mod_divide in Hz; [|lia].
  pose proof (Z.divide_prime_prime q p Hq Hp Hz). congruence.
Qed.

Lemma garner_cong (p q a b : Z) :
  Z.prime p -> Z.prime q -> p <> q ->
  cong p (garner p (modularInverse p q) a b) a /\
  cong q (garner p (modularInverse p q) a b) b.
Proof.
  intros Hp Hq Hne. unfold garner. split.
  - apply cong_divide; [pose proof (Z.prime_ge_2 p Hp); lia|].
    exists ((b - a) * modularInverse p q). ring.
  - pose proof (modularInverse_prime p q Hq (distinct_primes_unit p q Hp Hq Hne)) as Hinv.
    transitivity ((b - a) * (p * modularInverse p q) + a).
    + apply cong_eq. ring.
    + rewrite Hinv. apply cong_eq. ring.
Qed.

(** Congruences modulo two distinct primes combine. *)
Lemma cong_product (p q a b : Z) :
  Z.prime p -> Z.prime q -> p <> q ->
  cong p a b -> cong q a b -> cong (p * q) a b.
Proof.
  intros Hp Hq Hne H1 H2.
  pose proof (Z.prime_ge_2 p Hp). pose proof (Z.prime_ge_2 q Hq).
  apply cong_divide in H1; [|lia]. apply cong_divide in H2; [|lia].
  apply cong_divide; [nia|].
  destruct H1 as [k Hk]. rewrite Hk in *.
  assert (Hco : Z.gcd q p = 1).
  { apply Z.coprime_prime_l; [exact Hq|].
    intros Hd. pose proof (Z.divide_prime_prime q p Hq Hp Hd). congruence. }
  rewrite Z.mul_comm in H2.
  apply (Z.gauss q p k H2) in Hco.
  destruct Hco as [k' ->]. exists k'. ring.
Qed.

(** The CRT multiplier used by the examples: [N = 2], [p = 5], [q = 13]. *)
Definition crt_2_5_13 : CRTMultiplier :=
  mkCRTMultiplier 65 2 8 mul_2_5 (mkMultiplier 2 13 7 [1; 5] [1; 8]).

Lemma NewCRTMultiplier_2_5_13 : NewCRTMultiplier [4; 3] [5] 2 5 13 = Ret crt_2_5_13.
Proof. vm_compute. reflexivity. Qed.

(** C2: for a CRT multiplier built over distinct primes [p] and [q] and
    polynomials [x], [y] of length [N], [CRTMultiplier.Mul] returns [z] with
    [z_i = a_i (mod p)] and [z_i = b_i (mod q)], where [a] and [b] are the
    products of the two prime-field multipliers, and [z_i] is congruent
    modulo [p * q] to the reference negacyclic convolution. *)
Theorem CRTMultiplier_Mul_reference (candsP candsQ : list Z) (n : nat) (p q : Z)
        (m : CRTMultiplier) (x y : Polynomial) :
  NewCRTMultiplier candsP candsQ n p q = Ret m -> Deg x = n -> Deg y = n ->
  exists a b z,
    Multiplier_Mul (multiplierP m) x y = Ret a /\
    Multiplier_Mul (multiplierQ m) x y = Ret b /\
    CRTMultiplier_Mul m x y = Ret z /\ Deg z = n /\
    forall i, (i < n)%nat ->
      cong p (nth i (Coeffs z) 0) (nth i (Coeffs a) 0) /\
      cong q (nth i (Coeffs z) 0) (nth i (Coeffs b) 0) /\
      cong (p * q) (nth i (Coeffs z) 0)
           (nth i (reference_convolution (Coeffs x) (Coeffs y)) 0).
Proof.
  intros Hnew Hx Hy.
  destruct (CRTMultiplier_Mul_spec _ _ _ _ _ _ x y Hnew Hx Hy) as (EP & EQ & EZ).
  destruct (NewCRTMultiplier_Ret _ _ _ _ _ _ Hnew) as (_ & _ & Hp & Hq & Hne & _ & _).
  do 3 eexists. split; [exact EP|]. split; [exact EQ|]. split; [exact EZ|].
  unfold Deg in *. cbn [Coeffs].
  assert (HL : length (reference_convolution (Coeffs x) (Coeffs y)) = n)
    by (rewrite length_reference_convolution; exact Hx).
  split; [now rewrite length_map|].
  intros i Hi.
  rewrite (nth_map_Z (fun c => garner p (modularInverse p q) (c mod p) (c mod q))) by lia.
  rewrite !nth_map_Z by lia.
  destruct (garner_cong p q (nth i (reference_convolution (Coeffs x) (Coeffs y)) 0 mod p)
              (nth i (reference_convolution (Coeffs x) (Coeffs y)) 0 mod q) Hp Hq Hne)
    as [G1 G2].
  split; [exact G1|]. split; [exact G2|].
  apply cong_product; try assumption.
  - rewrite G1. apply cong_mod.
  - rewrite G2. apply cong_mod.
Qed.

Lemma CRTMultiplier_Mul_reference_witness :
  exists a b z,
    Multiplier_Mul (multiplierP crt_2_5_13) (mkPolynomial [7; 3]) (mkPolynomial [1; 2]) = Ret a /\
    Multiplier_Mul (multiplierQ crt_2_5_13) (mkPolynomial [7; 3]) (mkPolynomial [1; 2]) = Ret b /\
    CRTMultiplier_Mul crt_2_5_13 (mkPolynomial [7; 3]) (mkPolynomial [1; 2]) = Ret z /\
    Deg z = 2%nat /\
    forall i, (i < 2)%nat ->
      cong 5 (nth i (Coeffs z) 0) (nth i (Coeffs a) 0) /\
      cong 13 (nth i (Coeffs z) 0) (nth i (Coeffs b) 0) /\
      cong (5 * 13) (nth i (Coeffs z) 0)
           (nth i (reference_convolution [7; 3] [1; 2]) 0).
Proof.
  exact (CRTMultiplier_Mul_reference [4; 3] [5] 2 5 13 crt_2_5_13
           (mkPolynomial [7; 3]) (mkPolynomial [1; 2])
           NewCRTMultiplier_2_5_13 eq_refl eq_refl).
Defined.





(* ================================================================== *)
(** ** The integer multiplier *)

Lemma normInfinite_acc (l : list Z) (acc : Z) :
  0 <= acc ->
  let r := fold_left (fun norm val => if Z.abs norm <? Z.abs val then Z.abs val else norm)
                     l acc in
  acc <= r /\ forall v, In v l -> Z.abs v <= r.
Proof.
  revert acc. induction l as [|v l IH]; intros acc Hacc; cbn zeta.
  - simpl. split; [lia | tauto].
  - cbn [fold_left].
    destruct (Z.ltb_spec (Z.abs acc) (Z.abs v)) as [Hlt|Hge].
    + destruct (IH (Z.abs v) ltac:(lia)) as [H1 H2]. cbn zeta in H1, H2.
      split; [lia|]. intros u [<-|Hu]; [lia | auto].
    + destruct (IH acc Hacc) as [H1 H2]. cbn zeta in H1, H2.
      split; [lia|]. intros u [<-|Hu]; [lia | auto].
Qed.

Lemma normInfinite_bound (pol : Polynomial) (i : nat) :
  Z.abs (nth i (Coeffs pol) 0) <= normInfinite pol.
Proof.
  destruct (normInfinite_acc (Coeffs pol) 0 ltac:(lia)) as [H1 H2].
  cbn zeta in H1, H2. fold (normInfinite pol) in H1, H2.
  destruct (Nat.lt_ge_cases i (length (Coeffs pol))) as [Hi|Hi].
  - apply H2, nth_In, Hi.
  - rewrite nth_overflow by exact Hi. simpl. exact H1.
Qed.

Lemma sumZ_abs_le (n : nat) (f : nat -> Z) (M : Z) :
  (forall i, (i < n)%nat -> Z.abs (f i) <= M) ->
  Z.abs (sumZ n f) <= Z.of_nat n * M.
Proof.
  induction n as [|n IH]; intros H.
  - simpl. lia.
  - cbn [sumZ]. specialize (IH ltac:(intros; apply H; lia)).
    specialize (H n ltac:(lia)). lia.
Qed.

(** The coefficients of the negacyclic product are bounded by
    [n * |a|_inf * |b|_inf]. *)
Lemma tconv_bound (n : nat) (a b : nat -> Z) (X Y : Z) (k : nat) :
  (k < n)%nat ->
  (forall i, (i < n)%nat -> Z.abs (a i) <= X) ->
  (forall j, (j < n)%nat -> Z.abs (b j) <= Y) ->
  Z.abs (tconv n (-1) a b k) <= Z.of_nat n * (X * Y).
Proof.
  intros Hk Ha Hb. unfold tconv.
  apply sumZ_abs_le. intros i Hi.
  set (j0 := if (i <=? k)%nat then (k - i)%nat else (k + n - i)%nat).
  assert (Hj0 : (j0 < n)%nat) by (unfold j0; destruct (Nat.leb_spec i k); lia).
  rewrite (sumZ_single n _ j0 Hj0).
  - pose proof (Ha i Hi). pose proof (Hb j0 Hj0).
    assert (Hkap : Z.abs (kappa n (-1) (i + j0) k) <= 1).
    { unfold kappa. destruct (i + j0 =? k)%nat; [simpl; lia|].
      destruct (i + j0 =? k + n)%nat; simpl; lia. }
    rewrite !Z.abs_mul.
    pose proof (Z.abs_nonneg (a i)). pose proof (Z.abs_nonneg (b j0)).
    pose proof (Z.abs_nonneg (kappa n (-1) (i + j0) k)).
    assert (Z.abs (a i) * Z.abs (b j0) <= X * Y) by nia.
    nia.
  - intros j Hj Hne. unfold kappa.
    destruct (Nat.eqb_spec (i + j) k).
    + exfalso. apply Hne. unfold j0. destruct (Nat.leb_spec i k); lia.
    + destruct (Nat.eqb_spec (i + j) (k + n)).
      * exfalso. apply Hne. unfold j0. destruct (Nat.leb_spec i k); lia.
      * ring.
Qed.

Lemma reference_convolution_bound (x y : Polynomial) (k : nat) :
  (k < Deg x)%nat ->
  Z.abs (nth k (reference_convolution (Coeffs x) (Coeffs y)) 0)
  <= Z.of_nat (Deg x) * (normInfinite x * normInfinite y).
Proof.
  intros Hk. unfold Deg in *.
  rewrite nth_reference_convolution by exact Hk.
  apply tconv_bound; [exact Hk | |]; intros; apply normInfinite_bound.
Qed.

Lemma next_prime_Ret (fuel : nat) (start step q : Z) :
  next_prime fuel start step = Ret q ->
  ProbablyPrime q = true /\ exists k, 0 <= k /\ q = start + k * step.
Proof.
  revert start. induction fuel as [|fuel IH]; intros start; cbn [next_prime];
    destruct (ProbablyPrime start) eqn:E; cbn [negb]; try discriminate.
  - intros H. injection H as <-. split; [exact E|]. exists 0. lia.
  - intros H. injection H as <-. split; [exact E|]. exists 0. lia.
  - intros H. apply IH in H. destruct H as (Hp & k & Hk & ->).
    split; [exact Hp|]. exists (k + 1). lia.
Qed.

(** The prime that [ZMultiplier.Mul] derives is congruent to [1] modulo [2N]
    and the coefficients of the product are symmetric representatives
    modulo it. *)
Lemma ZMultiplier_prime_facts (fuel : nat) (n : nat) (x y : Polynomial) (q : Z) :
  (0 < n)%nat -> Deg x = n ->
  next_prime fuel (Z.of_nat (2 * n) * normInfinite x * normInfinite y + 1)
             (Z.of_nat (2 * n)) = Ret q ->
  Z.prime q /\ q mod Z.of_nat (2 * n) = 1 /\
  Forall (symmetric_range q) (reference_convolution (Coeffs x) (Coeffs y)).
Proof.
  intros Hn Hx Hq.
  destruct (next_prime_Ret _ _ _ _ Hq) as (Hprime & k & Hk & Hqk).
  pose proof (proj1 (ProbablyPrime_spec q) Hprime) as Hp.
  split; [exact Hp|]. split.
  - rewrite Hqk.
    replace (Z.of_nat (2 * n) * normInfinite x * normInfinite y + 1 + k * Z.of_nat (2 * n))
      with (1 + (normInfinite x * normInfinite y + k) * Z.of_nat (2 * n)) by ring.
    rewrite Z_mod_plus_full. apply Z.mod_small. lia.
  - apply Forall_forall. intros c Hc.
    apply In_nth with (d := 0) in Hc. destruct Hc as (i & Hi & <-).
    rewrite length_reference_convolution in Hi.
    pose proof (reference_convolution_bound x y i Hi) as Hb. rewrite Hx in Hb.
    assert (Hnn : 0 <= normInfinite x * normInfinite y).
    { pose proof (normInfinite_bound x O). pose proof (normInfinite_bound y O).
      pose proof (Z.abs_nonneg (nth 0 (Coeffs x) 0)).
      pose proof (Z.abs_nonneg (nth 0 (Coeffs y) 0)). nia. }
    unfold symmetric_range.
    assert (Hqge : 2 * (Z.of_nat n * (normInfinite x * normInfinite y)) + 1 <= q).
    { rewrite Hqk. rewrite Nat2Z.inj_mul. change (Z.of_nat 2) with 2. nia. }
    lia.
Qed.

Lemma ZMultiplier_Mul_returns (fuel : nat) (cands : list Z) (n : nat)
      (zm : ZMultiplier) (x y : Polynomial) (q g : Z) :
  NewZMultiplier n = Ret zm -> Deg x = n -> Deg y = n ->
  next_prime fuel (Z.of_nat (2 * n) * normInfinite x * normInfinite y + 1)
             (Z.of_nat (2 * n)) = Ret q ->
  FindPrimitiveRootOfUnity cands (2 * n) q = Ret g ->
  ZMultiplier_Mul fuel cands zm x y =
  Ret (mkPolynomial (reference_convolution (Coeffs x) (Coeffs y))).
Proof.
  intros Hnew Hx Hy Hq Hg.
  unfold NewZMultiplier in Hnew.
  destruct (isPowerOfTwo n) eqn:Hpow; [|discriminate]. cbn [negb] in Hnew.
  injection Hnew as <-.
  unfold ZMultiplier_Mul. cbn [zN]. rewrite Hx, Hy, Nat.eqb_refl. cbn [negb].
  rewrite Hq. cbn [bind].
  assert (Hn : (0 < n)%nat).
  { apply isPowerOfTwo_spec in Hpow. destruct Hpow as [w ->]. apply pow2_pos. }
  destruct (ZMultiplier_prime_facts fuel n x y q Hn Hx Hq) as (Hp & Hmod & Hsym).
  pose proof (Z.prime_ge_2 q Hp) as Hq2.
  assert (Hmul : exists mul, NewMultiplier cands n q = Ret mul).
  { unfold NewMultiplier. rewrite Hpow. cbn [negb].
    replace (ProbablyPrime q) with true by (symmetry; now apply ProbablyPrime_spec).
    cbn [negb].
    rewrite big_Mod_pos by lia. rewrite Hmod. cbn [negb Z.eqb Pos.eqb].
    rewrite Hg. cbn [bind]. eauto. }
  destruct Hmul as [mul Hmul]. rewrite Hmul. cbn [bind].
  rewrite (Multiplier_Mul_spec cands n q mul x y Hmul Hx Hy). cbn [bind].
  unfold Mod_, symmetricModulus. cbn [Coeffs]. do 2 f_equal.
  rewrite map_map.
  transitivity (map (fun c : Z => c) (reference_convolution (Coeffs x) (Coeffs y)));
    [|apply map_id].
  apply map_ext_in. intros c Hc.
  rewrite symmetricModulus_coeff_mod by lia.
  apply symmetricModulus_coeff_id; [lia|].
  rewrite Forall_forall in Hsym. auto.
Qed.

(** [ZMultiplier.Mul] only returns when both searches have returned. *)
Lemma ZMultiplier_Mul_inv (fuel : nat) (cands : list Z) (n : nat)
      (x y z : Polynomial) :
  Deg x = n -> Deg y = n ->
  ZMultiplier_Mul fuel cands (mkZMultiplier n) x y = Ret z ->
  exists q g,
    next_prime fuel (Z.of_nat (2 * n) * normInfinite x * normInfinite y + 1)
               (Z.of_nat (2 * n)) = Ret q /\
    FindPrimitiveRootOfUnity cands (2 * n) q = Ret g.
Proof.
  intros Hx Hy. unfold ZMultiplier_Mul. cbn [zN].
  rewrite Hx, Hy, Nat.eqb_refl. cbn [negb].
  destruct (next_prime fuel _ _) as [q| |]; cbn [bind]; try discriminate.
  unfold NewMultiplier.
  destruct (isPowerOfTwo n); cbn [negb bind]; [|discriminate].
  destruct (ProbablyPrime q); cbn [negb bind]; [|discriminate].
  destruct (big_Mod q (Z.of_nat (2 * n)) =? 1); cbn [negb bind]; [|discriminate].
  destruct (FindPrimitiveRootOfUnity cands (2 * n) q) as [g| |] eqn:Hg;
    cbn [bind]; try discriminate.
  intros _. exists q, g. split; [reflexivity | exact Hg].
Qed.

(** *** Primes congruent to [1] modulo a power of two

    The progression [B, B + 2N, B + 4N, ...] that [ZMultiplier.Mul] walks
    contains a prime: every prime divisor of [a^N + 1], for [N] a power of
    two and [a] an even multiple of [B!], is larger than [B] and congruent
    to [1] modulo [2N]. *)

Lemma prime_divisor (m : Z) : 1 < m -> exists p, Z.prime p /\ (p | m).
Proof.
  intros Hm.
  assert (H : forall k : nat, forall m, 1 < m -> m <= Z.of_nat k ->
                exists p, Z.prime p /\ (p | m)).
  { clear m Hm. induction k as [|k IH]; intros m Hm Hk; [lia|].
    destruct (ProbablyPrime m) eqn:E.
    - exists m. split; [now apply ProbablyPrime_spec | apply Z.divide_refl].
    - unfold ProbablyPrime in E.
      destruct (Z.ltb_spec 1 m) as [_|]; [|lia]. cbn [andb] in E.
      assert (Hex : exists d, In d (seq 2 (Z.to_nat m - 2)) /\ m mod Z.of_nat d = 0).
      { revert E. generalize (seq 2 (Z.to_nat m - 2)).
        induction l as [|d l IHl]; cbn [forallb]; [discriminate|].
        destruct (Z.eqb_spec (m mod Z.of_nat d) 0) as [Hd|Hd]; cbn [negb andb].
        - intros _. exists d. split; [now left | exact Hd].
        - intros E. destruct (IHl E) as (d' & Hin & Hd'). exists d'. split; [now right|exact Hd']. }
      destruct Hex as (d & Hin & Hd). apply in_seq in Hin.
      destruct (IH (Z.of_nat d) ltac:(lia) ltac:(lia)) as (p & Hp & Hpd).
      exists p. split; [exact Hp|].
      apply (Z.divide_trans _ (Z.of_nat d)); [exact Hpd|].
      apply Z.mod_divide; [lia | exact Hd]. }
  apply (H (Z.to_nat m) m Hm). lia.
Qed.

Lemma two_adic (n : Z) : 0 < n -> exists (e : nat) (m : Z), n = 2 ^ Z.of_nat e * m /\ Z.odd m = true.
Proof.
  intros Hn.
  assert (H : forall k : nat, forall n, 0 < n -> n <= Z.of_nat k ->
                exists (e : nat) (m : Z), n = 2 ^ Z.of_nat e * m /\ Z.odd m = true).
  { clear n Hn. induction k as [|k IH]; intros n Hn Hk; [lia|].
    destruct (Z.odd n) eqn:E.
    - exists O, n. split; [|exact E].
      change (Z.of_nat 0) with 0. rewrite Z.pow_0_r. lia.
    - assert (He : Z.even n = true) by (rewrite <- Z.negb_odd, E; reflexivity).
      apply Z.even_spec in He. destruct He as [h Hh].
      destruct (IH h ltac:(lia) ltac:(lia)) as (e & m & He & Hm).
      exists (S e), m. split; [|exact Hm].
      rewrite Nat2Z.inj_succ, Z.pow_succ_r by lia. rewrite Hh, He. ring. }
  apply (H (Z.to_nat n) n Hn). lia.
Qed.

Lemma divide_fact (d n : nat) : (1 <= d <= n)%nat -> (Z.of_nat d | Z.of_nat (fact n)).
Proof.
  induction n as [|n IH]; intros Hd; [lia|].
  change (fact (S n)) with (S n * fact n)%nat. rewrite Nat2Z.inj_mul.
  destruct (Nat.eq_dec d (S n)) as [->|Hne].
  - apply Z.divide_factor_l.
  - apply Z.divide_mul_r. apply IH. lia.
Qed.

(** If [a^N = -1] modulo an odd prime [p], with [N = 2^w], then the order
    of [a] is [2N], which divides [p - 1]. *)
Lemma order_pow2_divides (w : nat) (p a : Z) :
  Z.prime p -> 2 < p -> cong p (a ^ Z.of_nat (2 ^ w)) (-1) ->
  (Z.of_nat (2 * 2 ^ w) | p - 1).
Proof.
  intros Hp Hp2 Ha.
  destruct (two_adic (p - 1) ltac:(lia)) as (e & m & Hpm & Hm).
  destruct (Nat.lt_ge_cases w e) as [Hlt|Hge].
  - exists (2 ^ Z.of_nat (e - S w) * m). rewrite Hpm.
    rewrite <- Nat.pow_succ_r', Nat2Z.inj_pow.
    change (Z.of_nat 2) with 2.
    replace (Z.of_nat e) with (Z.of_nat (e - S w) + Z.of_nat (S w)) by lia.
    rewrite Z.pow_add_r by lia. ring.
  - exfalso.
    assert (Hm0 : 0 < m).
    { destruct (Z.lt_trichotomy m 0) as [Hneg|[H0|Hpos]]; [|subst m; discriminate|exact Hpos].
      assert (0 < 2 ^ Z.of_nat e) by (apply Z.pow_pos_nonneg; lia). nia. }
    assert (Hnz : a mod p <> 0).
    { intros Hz. apply Z.mod_divide in Hz; [|lia].
      assert (HdN : (p | a ^ Z.of_nat (2 ^ w))).
      { pose proof (pow2_pos w).
        replace (Z.of_nat (2 ^ w)) with (Z.succ (Z.of_nat (2 ^ w - 1))) by lia.
        rewrite Z.pow_succ_r by lia. now apply Z.divide_mul_l. }
      apply cong_divide in Ha; [|lia].
      assert (H1 : (p | 1)).
      { replace 1 with (a ^ Z.of_nat (2 ^ w) - -1 - a ^ Z.of_nat (2 ^ w)) by ring.
        now apply Z.divide_sub_r. }
      apply Z.divide_1_r in H1. lia. }
    pose proof (ZmodInv.Z.fermat_nz p a Hp Hnz) as Hf.
    assert (Hf' : cong p (a ^ (p - 1)) 1).
    { apply cong_iff. rewrite Hf. symmetry. apply Z.mod_small. lia. }
    (* a ^ (2^w * m) computed in two ways *)
    assert (E1 : cong p (a ^ (Z.of_nat (2 ^ w) * m)) (-1)).
    { rewrite Z.pow_mul_r by lia.
      rewrite <- (Z2Nat.id m) by lia.
      rewrite (cong_pow p _ _ (Z.to_nat m) Ha). rewrite Z2Nat.id by lia.
      apply cong_eq.
      transitivity (- 1 ^ m);
        [exact (Z.pow_opp_odd 1 m (proj1 (Z.odd_spec m) Hm)) | now rewrite Z.pow_1_l by lia]. }
    assert (E2 : cong p (a ^ (Z.of_nat (2 ^ w) * m)) 1).
    { replace (Z.of_nat (2 ^ w) * m) with ((p - 1) * Z.of_nat (2 ^ (w - e))).
      - rewrite Z.pow_mul_r by lia.
        rewrite (cong_pow p _ _ _ Hf'). apply cong_eq. apply Z.pow_1_l. lia.
      - rewrite Hpm. rewrite !Nat2Z.inj_pow. change (Z.of_nat 2) with 2.
        replace (Z.of_nat w) with (Z.of_nat e + Z.of_nat (w - e)) by lia.
        rewrite Z.pow_add_r by lia. ring. }
    rewrite E1 in E2. apply cong_divide in E2; [|lia].
    destruct E2 as [c Hc]. assert (Hpc : p * c = -2) by lia.
    destruct (Z.lt_ge_cases c 0); nia.
Qed.

Lemma primes_1_mod_pow2 (w : nat) (B : Z) :
  exists p, Z.prime p /\ B < p /\ p mod Z.of_nat (2 * 2 ^ w) = 1.
Proof.
  set (a := 2 * Z.of_nat (fact (Z.to_nat B))).
  assert (Hfact : 0 < Z.of_nat (fact (Z.to_nat B))) by (pose proof (lt_O_fact (Z.to_nat B)); lia).
  assert (Ha : 2 <= a) by (unfold a; lia).
  pose proof (pow2_pos w) as Hw.
  assert (HaN : 2 <= a ^ Z.of_nat (2 ^ w)).
  { replace (Z.of_nat (2 ^ w)) with (Z.succ (Z.of_nat (2 ^ w - 1))) by lia.
    rewrite Z.pow_succ_r by lia.
    assert (0 < a ^ Z.of_nat (2 ^ w - 1)) by (apply Z.pow_pos_nonneg; lia). nia. }
  destruct (prime_divisor (a ^ Z.of_nat (2 ^ w) + 1) ltac:(lia)) as (p & Hp & Hdiv).
  pose proof (Z.prime_ge_2 p Hp) as Hp2.
  (* no divisor of [a] divides [a^N + 1] *)
  assert (Hnot : forall d, 1 < d -> (d | a) -> ~ (d | a ^ Z.of_nat (2 ^ w) + 1)).
  { intros d Hd Hda Hdm.
    assert (HdN : (d | a ^ Z.of_nat (2 ^ w))).
    { replace (Z.of_nat (2 ^ w)) with (Z.succ (Z.of_nat (2 ^ w - 1))) by lia.
      rewrite Z.pow_succ_r by lia. now apply Z.divide_mul_l. }
    assert (H1 : (d | 1)).
    { replace 1 with (a ^ Z.of_nat (2 ^ w) + 1 - a ^ Z.of_nat (2 ^ w)) by ring.
      now apply Z.divide_sub_r. }
    apply Z.divide_1_r in H1. lia. }
  assert (HpB : B < p).
  { destruct (Z.lt_ge_cases B p) as [|Hle]; [assumption|]. exfalso.
    apply (Hnot p ltac:(lia)); [|exact Hdiv].
    unfold a. apply Z.divide_mul_r.
    rewrite <- (Z2Nat.id p) by lia. apply divide_fact. lia. }
  assert (Hodd : 2 < p).
  { destruct (Z.eq_dec p 2) as [->|]; [|lia]. exfalso.
    apply (Hnot 2 ltac:(lia)); [|exact Hdiv]. unfold a. apply Z.divide_factor_l. }
  exists p. split; [exact Hp|]. split; [exact HpB|].
  assert (Hc : cong p (a ^ Z.of_nat (2 ^ w)) (-1)).
  { apply cong_divide; [lia|]. destruct Hdiv as [c Hc]. exists c. lia. }
  destruct (order_pow2_divides w p a Hp Hodd Hc) as [c Hc'].
  symmetry. apply (Z.mod_unique p (Z.of_nat (2 * 2 ^ w)) c 1); lia.
Qed.

(** *** A primitive root of unity exists

    A monic polynomial of degree [d] has at most [d] roots modulo a prime;
    hence [X^((q-1)/2) - 1] does not vanish on all of [1 .. q-1], and a
    power of a non-root is a primitive [2N]-th root of unity. *)

(** [f] is a polynomial function of degree at most [d], in Horner form. *)
Fixpoint is_poly (d : nat) (f : Z -> Z) : Prop :=
  match d with
  | O => exists c, forall x, f x = c
  | S d' => exists c g, is_poly d' g /\ forall x, f x = c + x * g x
  end.

(** [f] is a monic polynomial function of degree [d]. *)
Fixpoint is_monic (d : nat) (f : Z -> Z) : Prop :=
  match d with
  | O => forall x, f x = 1
  | S d' => exists c g, is_monic d' g /\ forall x, f x = c + x * g x
  end.

Lemma is_monic_poly (d : nat) : forall f, is_monic d f -> is_poly d f.
Proof.
  induction d as [|d IH]; intros f; cbn [is_monic is_poly].
  - intros H. exists 1. exact H.
  - intros (c & g & Hg & Hf). exists c, g. auto.
Qed.

Lemma is_poly_scale (d : nat) (r : Z) :
  forall f, is_poly d f -> is_poly d (fun x => r * f x).
Proof.
  induction d as [|d IH]; intros f; cbn [is_poly].
  - intros [c Hc]. exists (r * c). intros x. now rewrite Hc.
  - intros (c & g & Hg & Hf). exists (r * c), (fun x => r * g x).
    split; [now apply IH|]. intros x. rewrite Hf. ring.
Qed.

Lemma is_monic_add_poly (d : nat) :
  forall f h, is_monic (S d) f -> is_poly d h -> is_monic (S d) (fun x => f x + h x).
Proof.
  induction d as [|d IH]; intros f h.
  - cbn [is_monic is_poly]. intros (c & g & Hg & Hf) [c' Hh].
    exists (c + c'), g. split; [exact Hg|]. intros x. rewrite Hf, Hh. ring.
  - intros (c & g & Hg & Hf) (c' & h' & Hh' & Hh).
    exists (c + c'), (fun x => g x + h' x). split; [now apply IH|].
    intros x. rewrite Hf, Hh. ring.
Qed.

(** The factor theorem, over the integers. *)
Lemma is_monic_factor (d : nat) :
  forall f r, is_monic (S d) f ->
    exists h, is_monic d h /\ forall x, f x - f r = (x - r) * h x.
Proof.
  induction d as [|d IH]; intros f r.
  - cbn [is_monic]. intros (c & g & Hg & Hf).
    exists (fun _ => 1). split; [reflexivity|].
    intros x. rewrite !Hf, !Hg. ring.
  - intros (c & g & Hg & Hf).
    destruct (IH g r Hg) as (h' & Hh' & Hgr).
    exists (fun x => g x + r * h' x). split.
    + apply is_monic_add_poly; [exact Hg|].
      apply is_poly_scale, is_monic_poly, Hh'.
    + intros x. rewrite !Hf.
      replace (c + x * g x - (c + r * g r))
        with ((x - r) * g x + r * (g x - g r)) by ring.
      rewrite Hgr. ring.
Qed.

Lemma monic_roots_bound (q : Z) (d : nat) :
  Z.prime q ->
  forall f l, is_monic d f ->
    NoDup (map (fun r => r mod q) l) ->
    (forall r, In r l -> f r mod q = 0) ->
    (length l <= d)%nat.
Proof.
  intros Hq. pose proof (Z.prime_ge_2 q Hq) as Hq2.
  induction d as [|d IH]; intros f l Hf Hnd Hroots.
  - destruct l as [|r l]; [reflexivity|]. exfalso.
    specialize (Hroots r (or_introl eq_refl)). cbn [is_monic] in Hf.
    rewrite Hf, Z.mod_small in Hroots by lia. discriminate.
  - destruct l as [|r l]; [cbn; lia|]. cbn [length].
    apply le_n_S.
    destruct (is_monic_factor d f r Hf) as (h & Hh & Hfr).
    cbn [map] in Hnd. apply NoDup_cons_iff in Hnd. destruct Hnd as [Hnotin Hnd].
    apply (IH h l Hh Hnd).
    intros s Hs.
    assert (Hfs := Hroots s (or_intror Hs)).
    assert (Hfr0 := Hroots r (or_introl eq_refl)).
    apply Z.mod_divide in Hfs; [|lia]. apply Z.mod_divide in Hfr0; [|lia].
    assert (Hd : (q | (s - r) * h s)).
    { rewrite <- Hfr. now apply Z.divide_sub_r. }
    apply Z.divide_prime_mul in Hd; [|exact Hq].
    destruct Hd as [Hd|Hd].
    + exfalso. apply Hnotin. apply in_map_iff. exists s. split; [|exact Hs].
      apply (proj1 (cong_iff q s r)). apply cong_divide; [lia | exact Hd].
    + apply Z.mod_divide; [lia | exact Hd].
Qed.

Lemma pow_is_monic (n : nat) : is_monic n (fun x => x ^ Z.of_nat n).
Proof.
  induction n as [|n IH]; cbn [is_monic].
  - intros x. apply Z.pow_0_r.
  - exists 0, (fun x => x ^ Z.of_nat n). split; [exact IH|].
    intros x. rewrite Nat2Z.inj_succ, Z.pow_succ_r by lia. ring.
Qed.

(** Some [x] in [1 .. q-1] is not a root of [X^D - 1] when [D < q - 1]. *)
Lemma exists_non_root (q : Z) (D : nat) :
  Z.prime q -> (1 <= D)%nat -> Z.of_nat D < q - 1 ->
  exists x, 1 <= x < q /\ x ^ Z.of_nat D mod q <> 1.
Proof.
  intros Hq HD HDq. pose proof (Z.prime_ge_2 q Hq) as Hq2.
  set (l := map Z.of_nat (seq 1 (Z.to_nat (q - 1)))).
  destruct (existsb (fun x => negb (x ^ Z.of_nat D mod q =? 1)) l) eqn:E.
  - apply existsb_exists in E. destruct E as (x & Hin & Hx).
    apply in_map_iff in Hin. destruct Hin as (k & <- & Hk). apply in_seq in Hk.
    exists (Z.of_nat k). split; [lia|].
    now apply negb_true_iff, Z.eqb_neq in Hx.
  - exfalso.
    assert (Hall : forall x, In x l -> x ^ Z.of_nat D mod q = 1).
    { intros x Hin.
      destruct (Z.eqb_spec (x ^ Z.of_nat D mod q) 1) as [H1|H1]; [exact H1|].
      assert (Hex : existsb (fun x => negb (x ^ Z.of_nat D mod q =? 1)) l = true).
      { apply existsb_exists. exists x. split; [exact Hin|].
        now apply negb_true_iff, Z.eqb_neq. }
      congruence. }
    assert (Hmonic : is_monic D (fun x => x ^ Z.of_nat D - 1)).
    { destruct D as [|D]; [lia|]. cbn [is_monic].
      exists (-1), (fun x => x ^ Z.of_nat D). split; [apply pow_is_monic|].
      intros x. rewrite Nat2Z.inj_succ, Z.pow_succ_r by lia. ring. }
    assert (Hlen : (length l <= D)%nat).
    { apply (monic_roots_bound q D Hq _ l Hmonic).
      - unfold l. rewrite map_map.
        apply NoDup_map_NoDup_ForallPairs; [|apply seq_NoDup].
        intros a b Ha Hb Hab. apply in_seq in Ha. apply in_seq in Hb.
        rewrite !Z.mod_small in Hab by lia. lia.
      - intros r Hr. rewrite <- Zminus_mod_idemp_l, (Hall r Hr).
        reflexivity. }
    unfold l in Hlen. rewrite length_map, length_seq in Hlen. lia.
Qed.

Lemma exists_primitive_root (w : nat) (q : Z) :
  Z.prime q -> q mod Z.of_nat (2 * 2 ^ w) = 1 ->
  exists g, isPrimitiveRoot (2 * 2 ^ w) q g = true.
Proof.
  intros Hq Hmod. pose proof (Z.prime_ge_2 q Hq) as Hq2.
  pose proof (pow2_pos w) as Hw.
  pose proof (Z.div_mod q (Z.of_nat (2 * 2 ^ w)) ltac:(lia)) as Hdm.
  rewrite Hmod in Hdm.
  set (c := q / Z.of_nat (2 * 2 ^ w)) in *.
  assert (Hc : 0 < c) by nia.
  destruct (exists_non_root q (2 ^ w * Z.to_nat c)%nat Hq) as (x & Hx & Hnr).
  - nia.
  - rewrite Nat2Z.inj_mul, Z2Nat.id by lia. nia.
  - exists (x ^ c). unfold isPrimitiveRoot.
    replace (2 * 2 ^ w / 2)%nat with (2 ^ w)%nat
      by (rewrite Nat.mul_comm, Nat.div_mul; lia).
    rewrite <- !Z.pow_mul_r by lia.
    replace (c * Z.of_nat (2 * 2 ^ w)) with (q - 1) by lia.
    rewrite ZmodInv.Z.fermat_nz; [|exact Hq|rewrite Z.mod_small; lia].
    cbn [Z.eqb Pos.eqb andb]. apply negb_true_iff, Z.eqb_neq.
    rewrite Nat2Z.inj_mul, Z2Nat.id in Hnr by lia.
    now rewrite (Z.mul_comm c).
Qed.

(** *** The prime search returns *)

Lemma next_prime_found (j : nat) :
  forall (fuel : nat) (start step : Z),
    ProbablyPrime (start + Z.of_nat j * step) = true -> (j <= fuel)%nat ->
    exists q, next_prime fuel start step = Ret q.
Proof.
  induction j as [|j IH]; intros fuel start step Hp Hfuel.
  - replace (start + Z.of_nat 0 * step) with start in Hp by (cbn; ring).
    exists start. destruct fuel; cbn [next_prime]; now rewrite Hp.
  - destruct (ProbablyPrime start) eqn:E.
    + exists start. destruct fuel; cbn [next_prime]; now rewrite E.
    + destruct fuel as [|fuel]; [lia|]. cbn [next_prime]. rewrite E. cbn [negb].
      apply IH; [|lia].
      replace (start + step + Z.of_nat j * step) with (start + Z.of_nat (S j) * step)
        by lia.
      exact Hp.
Qed.

Lemma next_prime_mono (fuel : nat) :
  forall (fuel' : nat) (start step q : Z),
    next_prime fuel start step = Ret q -> (fuel <= fuel')%nat ->
    next_prime fuel' start step = Ret q.
Proof.
  induction fuel as [|fuel IH]; intros fuel' start step q H Hle.
  - cbn [next_prime] in H. destruct (ProbablyPrime start) eqn:E; [|discriminate].
    destruct fuel'; cbn [next_prime]; rewrite E; exact H.
  - cbn [next_prime] in H. destruct (ProbablyPrime start) eqn:E; cbn [negb] in H.
    + destruct fuel'; cbn [next_prime]; rewrite E; exact H.
    + destruct fuel' as [|fuel']; [lia|]. cbn [next_prime]. rewrite E. cbn [negb].
      apply IH; [exact H | lia].
Qed.

Lemma next_prime_no_panic (fuel : nat) :
  forall (start step : Z) (msg : string), next_prime fuel start step <> Panic msg.
Proof.
  induction fuel as [|fuel IH]; intros start step msg; cbn [next_prime];
    destruct (ProbablyPrime start); cbn [negb]; try discriminate. apply IH.
Qed.

Lemma FindPrimitiveRootOfUnity_no_panic (cands : list Z) (m : nat) (q : Z) (msg : string) :
  FindPrimitiveRootOfUnity cands m q <> Panic msg.
Proof.
  induction cands as [|c rest IH]; cbn [FindPrimitiveRootOfUnity]; [discriminate|].
  destruct (isPrimitiveRoot m q c); [discriminate | exact IH].
Qed.

(** The search of [ZMultiplier.Mul] meets a prime: from some fuel on it
    returns, and always the same prime. *)
Lemma ZMultiplier_prime_search (w : nat) (B : Z) :
  B mod Z.of_nat (2 * 2 ^ w) = 1 ->
  exists (fuel0 : nat) (q : Z),
    forall fuel, (fuel0 <= fuel)%nat ->
      next_prime fuel B (Z.of_nat (2 * 2 ^ w)) = Ret q.
Proof.
  intros HB. pose proof (pow2_pos w) as Hw.
  destruct (primes_1_mod_pow2 w B) as (p & Hp & HBp & Hpm).
  set (s := Z.of_nat (2 * 2 ^ w)) in *.
  assert (Hs : 2 <= s) by (unfold s; lia).
  pose proof (Z.div_mod p s ltac:(lia)) as Hdp.
  pose proof (Z.div_mod B s ltac:(lia)) as HdB.
  rewrite Hpm in Hdp. rewrite HB in HdB.
  set (j := p / s - B / s) in *.
  assert (Hj : 0 <= j) by nia.
  assert (Hpj : p = B + Z.of_nat (Z.to_nat j) * s) by (rewrite Z2Nat.id by lia; nia).
  destruct (next_prime_found (Z.to_nat j) (Z.to_nat j) B s) as [q Hq].
  - rewrite <- Hpj. now apply ProbablyPrime_spec.
  - lia.
  - exists (Z.to_nat j), q. intros fuel Hfuel.
    now apply (next_prime_mono (Z.to_nat j)).
Qed.

Lemma ZMultiplier_Mul_outcome (fuel : nat) (cands : list Z) (n : nat)
      (zm : ZMultiplier) (x y : Polynomial) :
  NewZMultiplier n = Ret zm -> Deg x = n -> Deg y = n ->
  ZMultiplier_Mul fuel cands zm x y =
    Ret (mkPolynomial (reference_convolution (Coeffs x) (Coeffs y))) \/
  ZMultiplier_Mul fuel cands zm x y = Timeout.
Proof.
  intros Hnew Hx Hy.
  assert (Hpow : isPowerOfTwo n = true).
  { unfold NewZMultiplier in Hnew. destruct (isPowerOfTwo n); [reflexivity | discriminate]. }
  assert (Hn : (0 < n)%nat).
  { apply isPowerOfTwo_spec in Hpow. destruct Hpow as [w ->]. apply pow2_pos. }
  assert (Hzm : zm = mkZMultiplier n).
  { unfold NewZMultiplier in Hnew. rewrite Hpow in Hnew. now injection Hnew as <-. }
  destruct (next_prime fuel (Z.of_nat (2 * n) * normInfinite x * normInfinite y + 1)
                       (Z.of_nat (2 * n))) as [q|msg|] eqn:Hq.
  - destruct (FindPrimitiveRootOfUnity cands (2 * n) q) as [g|msg|] eqn:Hg.
    + left. exact (ZMultiplier_Mul_returns fuel cands n zm x y q g Hnew Hx Hy Hq Hg).
    + exfalso. exact (FindPrimitiveRootOfUnity_no_panic _ _ _ _ Hg).
    + right.
      destruct (ZMultiplier_prime_facts fuel n x y q Hn Hx Hq) as (Hp & Hmod & _).
      pose proof (Z.prime_ge_2 q Hp) as Hq2.
      rewrite Hzm. unfold ZMultiplier_Mul. cbn [zN].
      rewrite Hx, Hy, Nat.eqb_refl. cbn [negb]. rewrite Hq. cbn [bind].
      unfold NewMultiplier. rewrite Hpow. cbn [negb].
      replace (ProbablyPrime q) with true by (symmetry; now apply ProbablyPrime_spec).
      cbn [negb].
      rewrite big_Mod_pos by lia. rewrite Hmod. cbn [negb Z.eqb Pos.eqb].
      rewrite Hg. reflexivity.
  - exfalso. exact (next_prime_no_panic _ _ _ _ Hq).
  - right. rewrite Hzm. unfold ZMultiplier_Mul. cbn [zN].
    rewrite Hx, Hy, Nat.eqb_refl. cbn [negb]. rewrite Hq. reflexivity.
Qed.

(** C6: for a [ZMultiplier] of power-of-two dimension [N] and polynomials
    [x], [y] of length [N] with arbitrary integer coefficients,
    [ZMultiplier.Mul] returns exactly the integer negacyclic product.  The
    search in [B, B + 2N, B + 4N, ...] terminates: from some number of
    steps on it returns a prime [q], congruent to [1] modulo [2N], that
    bounds the coefficients of the product inside [(-q/2, q/2]]; a
    primitive [2N]-th root of unity [g] modulo [q] exists, and as soon as the
    root search is offered [g] the call returns the product.  Whatever the
    fuel and the candidates, the call yields the product or is still
    searching: it never panics and never returns anything else. *)
Theorem ZMultiplier_Mul_exact (n : nat) (zm : ZMultiplier) (x y : Polynomial) :
  NewZMultiplier n = Ret zm -> Deg x = n -> Deg y = n ->
  (exists (fuel0 : nat) (q g : Z),
     Z.prime q /\ q mod Z.of_nat (2 * n) = 1 /\
     Forall (symmetric_range q) (reference_convolution (Coeffs x) (Coeffs y)) /\
     isPrimitiveRoot (2 * n) q g = true /\
     forall fuel cands, (fuel0 <= fuel)%nat -> In g cands ->
       ZMultiplier_Mul fuel cands zm x y =
       Ret (mkPolynomial (reference_convolution (Coeffs x) (Coeffs y)))) /\
  (forall fuel cands,
     ZMultiplier_Mul fuel cands zm x y =
       Ret (mkPolynomial (reference_convolution (Coeffs x) (Coeffs y))) \/
     ZMultiplier_Mul fuel cands zm x y = Timeout).
Proof.
  intros Hnew Hx Hy.
  split; [|intros fuel cands; now apply (ZMultiplier_Mul_outcome fuel cands n)].
  assert (Hpow : isPowerOfTwo n = true).
  { unfold NewZMultiplier in Hnew. destruct (isPowerOfTwo n); [reflexivity | discriminate]. }
  destruct (proj1 (isPowerOfTwo_spec n) Hpow) as [w Hw].
  pose proof (pow2_pos w) as Hpos.
  set (B := Z.of_nat (2 * n) * normInfinite x * normInfinite y + 1).
  assert (HB : B mod Z.of_nat (2 * 2 ^ w) = 1).
  { unfold B. rewrite Hw.
    replace (Z.of_nat (2 * 2 ^ w) * normInfinite x * normInfinite y + 1)
      with (1 + (normInfinite x * normInfinite y) * Z.of_nat (2 * 2 ^ w)) by ring.
    rewrite Z_mod_plus_full. apply Z.mod_small. lia. }
  destruct (ZMultiplier_prime_search w B HB) as (fuel0 & q & Hsearch).
  rewrite <- Hw in Hsearch.
  assert (Hq0 := Hsearch fuel0 (le_n _)). unfold B in Hq0.
  destruct (ZMultiplier_prime_facts fuel0 n x y q ltac:(lia) Hx Hq0) as (Hp & Hmod & Hsym).
  destruct (exists_primitive_root w q Hp ltac:(rewrite <- Hw; exact Hmod)) as [g Hg].
  rewrite <- Hw in Hg.
  exists fuel0, q, g. repeat (split; [assumption|]).
  intros fuel cands Hfuel Hin.
  destruct (FindPrimitiveRootOfUnity_returns cands (2 * n) q g Hin Hg) as [g' Hg'].
  apply (ZMultiplier_Mul_returns fuel cands n zm x y q g' Hnew Hx Hy); [|exact Hg'].
  exact (Hsearch fuel Hfuel).
Qed.

Lemma ZMultiplier_Mul_exact_witness :
  (exists (fuel0 : nat) (q g : Z),
     Z.prime q /\ q mod Z.of_nat (2 * 2) = 1 /\
     Forall (symmetric_range q)
            (reference_convolution (Coeffs (mkPolynomial [1; 2]))
                                   (Coeffs (mkPolynomial [3; -1]))) /\
     isPrimitiveRoot (2 * 2) q g = true /\
     forall fuel cands, (fuel0 <= fuel)%nat -> In g cands ->
       ZMultiplier_Mul fuel cands (mkZMultiplier 2) (mkPolynomial [1; 2])
                       (mkPolynomial [3; -1]) =
       Ret (mkPolynomial (reference_convolution (Coeffs (mkPolynomial [1; 2]))
                                                (Coeffs (mkPolynomial [3; -1]))))) /\
  (forall fuel cands,
     ZMultiplier_Mul fuel cands (mkZMultiplier 2) (mkPolynomial [1; 2])
                     (mkPolynomial [3; -1]) =
       Ret (mkPolynomial (reference_convolution (Coeffs (mkPolynomial [1; 2]))
                                                (Coeffs (mkPolynomial [3; -1])))) \/
     ZMultiplier_Mul fuel cands (mkZMultiplier 2) (mkPolynomial [1; 2])
                     (mkPolynomial [3; -1]) = Timeout).
Proof.
  exact (ZMultiplier_Mul_exact 2 (mkZMultiplier 2) (mkPolynomial [1; 2])
           (mkPolynomial [3; -1]) eq_refl eq_refl eq_refl).
Defined.

Example ZMultiplier_Mul_run :
  ZMultiplier_Mul 5 [12] (mkZMultiplier 2) (mkPolynomial [1; 2]) (mkPolynomial [3; -1]) =
  Ret (mkPolynomial [5; 5]).
Proof. vm_compute. reflexivity. Qed.

(* ================================================================== *)
(** ** Karatsuba *)

(** *** The full (acyclic) convolution *)

Definition delta (s k : nat) : Z := if (s =? k)%nat then 1 else 0.

(** Coefficient [k] of the product of two polynomials with [n] coefficients. *)
Definition fconv (n : nat) (a b : nat -> Z) (k : nat) : Z :=
  sumZ n (fun i => sumZ n (fun j => a i * b j * delta (i + j) k)).

Lemma fconv_ext (n : nat) (a a' b b' : nat -> Z) (k : nat) :
  (forall i, (i < n)%nat -> a i = a' i) ->
  (forall j, (j < n)%nat -> b j = b' j) ->
  fconv n a b k = fconv n a' b' k.
Proof.
  intros Ha Hb. unfold fconv.
  apply sumZ_ext. intros i Hi. apply sumZ_ext. intros j Hj.
  now rewrite Ha, Hb.
Qed.

Lemma fconv_support (n : nat) (a b : nat -> Z) (k : nat) :
  (2 * n <= k + 1)%nat -> fconv n a b k = 0.
Proof.
  intros Hk. unfold fconv.
  apply sumZ_zero. intros i Hi. apply sumZ_zero. intros j Hj.
  unfold delta. destruct (Nat.eqb_spec (i + j) k); [lia | ring].
Qed.

Lemma dsum_add (n : nat) (F G : nat -> nat -> Z) :
  sumZ n (fun i => sumZ n (fun j => F i j)) + sumZ n (fun i => sumZ n (fun j => G i j)) =
  sumZ n (fun i => sumZ n (fun j => F i j + G i j)).
Proof.
  rewrite sumZ_add. apply sumZ_ext. intros i _. now rewrite sumZ_add.
Qed.

Lemma dsum_sub (n : nat) (F G : nat -> nat -> Z) :
  sumZ n (fun i => sumZ n (fun j => F i j)) - sumZ n (fun i => sumZ n (fun j => G i j)) =
  sumZ n (fun i => sumZ n (fun j => F i j - G i j)).
Proof.
  replace (sumZ n (fun i => sumZ n (fun j => F i j))
           - sumZ n (fun i => sumZ n (fun j => G i j)))
    with (sumZ n (fun i => sumZ n (fun j => F i j))
          + -1 * sumZ n (fun i => sumZ n (fun j => G i j))) by ring.
  rewrite dsum_lin. apply sumZ_ext. intros i _. apply sumZ_ext. intros j _. ring.
Qed.

(** Karatsuba's identity on the cross term. *)
Lemma fconv_cross (n : nat) (a a' b b' : nat -> Z) (k : nat) :
  fconv n (fun i => a i + a' i) (fun j => b j + b' j) k - fconv n a' b' k - fconv n a b k =
  fconv n a b' k + fconv n a' b k.
Proof.
  unfold fconv. rewrite !dsum_sub, dsum_add.
  apply sumZ_ext. intros i _. apply sumZ_ext. intros j _. ring.
Qed.

(** The product of two polynomials with [2h] coefficients, from the four
    products of their halves. *)
Lemma fconv_halves (h : nat) (a b : nat -> Z) (k : nat) :
  fconv (2 * h) a b k =
  fconv h a b k
  + (if (k <? h)%nat then 0
     else fconv h a (fun j => b (j + h)%nat) (k - h)
          + fconv h (fun i => a (i + h)%nat) b (k - h))
  + (if (k <? 2 * h)%nat then 0
     else fconv h (fun i => a (i + h)%nat) (fun j => b (j + h)%nat) (k - 2 * h)).
Proof.
  unfold fconv. rewrite dsum_halves.
  destruct (Nat.ltb_spec k h) as [H1|H1]; destruct (Nat.ltb_spec k (2 * h)) as [H2|H2];
    try lia.
  - rewrite !Z.add_0_r. apply sumZ_ext. intros i Hi. apply sumZ_ext. intros j Hj.
    unfold delta.
    case_eqb; ring.
  - rewrite Z.add_0_r, !dsum_add. apply sumZ_ext. intros i Hi. apply sumZ_ext. intros j Hj.
    unfold delta.
    case_eqb; ring.
  - rewrite !dsum_add. apply sumZ_ext. intros i Hi. apply sumZ_ext. intros j Hj.
    unfold delta.
    case_eqb; ring.
Qed.

(** The negacyclic fold of the full convolution is the negacyclic
    convolution. *)
Lemma fconv_fold (n : nat) (a b : nat -> Z) (k : nat) :
  (0 < n)%nat ->
  fconv n a b k - fconv n a b (k + n) = tconv n (-1) a b k.
Proof.
  intros Hn. unfold fconv, tconv. rewrite dsum_sub.
  apply sumZ_ext. intros i _. apply sumZ_ext. intros j _.
  unfold delta, kappa.
  destruct (Nat.eqb_spec (i + j) k); destruct (Nat.eqb_spec (i + j) (k + n));
    try lia; ring.
Qed.

(** *** [karatsubaRec] computes the full convolution *)

Definition lf (x : list Z) : nat -> Z := fun i => nth i x 0.

(** What [karatsubaRec] returns on slices of length [2^w]: the single product
    for [w = 0] and the convolution padded to [2 * 2^w] entries otherwise. *)
Definition kconv (w : nat) (x y : list Z) : list Z :=
  match w with
  | O => [nth 0 x 0 * nth 0 y 0]
  | S _ => map (fconv (2 ^ w) (lf x) (lf y)) (seq 0 (2 * 2 ^ w))
  end.

Lemma nth_app_if (l l' : list Z) (k : nat) :
  nth k (l ++ l') 0 =
  if (k <? length l)%nat then nth k l 0 else nth (k - length l) l' 0.
Proof.
  destruct (Nat.ltb_spec k (length l)).
  - now apply app_nth1.
  - now apply app_nth2.
Qed.

Lemma length_addSlices (x y : list Z) :
  length (addSlices x y) = Nat.min (length x) (length y).
Proof. unfold addSlices. now rewrite length_map, length_combine. Qed.

Lemma length_subSlices (x y : list Z) :
  length (subSlices x y) = Nat.min (length x) (length y).
Proof. unfold subSlices. now rewrite length_map, length_combine. Qed.

Lemma nth_addSlices (x y : list Z) (k : nat) :
  length x = length y ->
  nth k (addSlices x y) 0 = nth k x 0 + nth k y 0.
Proof.
  revert y k. induction x as [|a x IH]; intros [|b y] k H; simpl in H; try lia.
  - destruct k; reflexivity.
  - destruct k as [|k]; [reflexivity|]. apply (IH y k). lia.
Qed.

Lemma nth_subSlices (x y : list Z) (k : nat) :
  length x = length y ->
  nth k (subSlices x y) 0 = nth k x 0 - nth k y 0.
Proof.
  revert y k. induction x as [|a x IH]; intros [|b y] k H; simpl in H; try lia.
  - destruct k; reflexivity.
  - destruct k as [|k]; [reflexivity|]. apply (IH y k). lia.
Qed.

Lemma length_kconv (w : nat) (x y : list Z) :
  length (kconv (S w) x y) = (2 * 2 ^ S w)%nat.
Proof. unfold kconv. now rewrite length_map, length_seq. Qed.

Lemma nth_kconv (w : nat) (x y : list Z) (k : nat) :
  nth k (kconv (S w) x y) 0 = fconv (2 ^ S w) (lf x) (lf y) k.
Proof.
  destruct (Nat.lt_ge_cases k (2 * 2 ^ S w)) as [Hk|Hk].
  - unfold kconv. now rewrite nth_map_seq.
  - rewrite nth_overflow by (rewrite length_kconv; lia).
    symmetry. apply fconv_support. lia.
Qed.

Lemma go_copy_same (dst src : list Z) :
  length dst = length src -> go_copy dst src = src.
Proof.
  intros H. unfold go_copy.
  rewrite firstn_all2 by lia. rewrite skipn_all2 by lia. apply app_nil_r.
Qed.

(** The two halves of the result of one step of the recursion. *)
Lemma crossL_eq (h : nat) (cross : list Z) :
  length cross = (2 * h)%nat ->
  firstn h (repeat 0 (2 * h)) ++ go_copy (skipn h (repeat 0 (2 * h))) (firstn h cross) =
  firstn h (repeat 0 (2 * h)) ++ firstn h cross.
Proof.
  intros HL. rewrite go_copy_same; [reflexivity|].
  rewrite length_skipn, length_firstn, repeat_length. lia.
Qed.

Lemma crossR_eq (h : nat) (cross : list Z) :
  length cross = (2 * h)%nat ->
  go_copy (firstn h (repeat 0 (2 * h))) (skipn h cross) ++ skipn h (repeat 0 (2 * h)) =
  skipn h cross ++ skipn h (repeat 0 (2 * h)).
Proof.
  intros HL. rewrite go_copy_same; [reflexivity|].
  rewrite length_skipn, length_firstn, repeat_length. lia.
Qed.

Lemma nth_crossL (h : nat) (cross : list Z) (k : nat) :
  length cross = (2 * h)%nat ->
  nth k (firstn h (repeat 0 (2 * h)) ++ firstn h cross) 0 =
  if (k <? h)%nat then 0 else if (k <? 2 * h)%nat then nth (k - h) cross 0 else 0.
Proof.
  intros HL.
  assert (E : length (firstn h (repeat 0 (2 * h))) = h)
    by (rewrite length_firstn, repeat_length; lia).
  rewrite nth_app_if, E.
  destruct (Nat.ltb_spec k h) as [H1|H1].
  - rewrite nth_firstn. destruct (k <? h)%nat; [apply nth_repeat | reflexivity].
  - rewrite nth_firstn.
    destruct (Nat.ltb_spec (k - h) h); destruct (Nat.ltb_spec k (2 * h));
      try lia; reflexivity.
Qed.

Lemma nth_crossR (h : nat) (cross : list Z) (k : nat) :
  length cross = (2 * h)%nat ->
  nth k (skipn h cross ++ skipn h (repeat 0 (2 * h))) 0 =
  if (k <? h)%nat then nth (k + h) cross 0 else 0.
Proof.
  intros HL.
  assert (E : length (skipn h cross) = h) by (rewrite length_skipn; lia).
  rewrite nth_app_if, E.
  destruct (Nat.ltb_spec k h) as [H1|H1].
  - rewrite nth_skipn. f_equal. lia.
  - rewrite nth_skipn. apply nth_repeat.
Qed.

Lemma length_crossL (h : nat) (cross : list Z) :
  length cross = (2 * h)%nat ->
  length (firstn h (repeat 0 (2 * h)) ++ firstn h cross) = (2 * h)%nat.
Proof.
  intros HL. rewrite length_app, !length_firstn, repeat_length. lia.
Qed.

Lemma length_crossR (h : nat) (cross : list Z) :
  length cross = (2 * h)%nat ->
  length (skipn h cross ++ skipn h (repeat 0 (2 * h))) = (2 * h)%nat.
Proof.
  intros HL. rewrite length_app, !length_skipn, repeat_length. lia.
Qed.

Lemma karatsuba_base (x0 x1 y0 y1 : Z) :
  ([x0 * y0] ++ subSlices (subSlices [(x0 + x1) * (y0 + y1)] [x1 * y1]) [x0 * y0])
  ++ ([x1 * y1] ++ [0]) =
  kconv 1 [x0; x1] [y0; y1].
Proof.
  unfold kconv, fconv, lf, delta. cbn.
  f_equal; [ring|]. f_equal; [ring|]. f_equal; [ring|]. f_equal. ring.
Qed.

Lemma karatsubaRec_spec (w : nat) :
  forall (fuel : nat) (x y : list Z),
    length x = (2 ^ w)%nat -> length y = (2 ^ w)%nat -> (w < fuel)%nat ->
    karatsubaRec fuel x y = Ret (kconv w x y).
Proof.
  induction w as [|w IH]; intros fuel x y Hx Hy Hfuel;
    (destruct fuel as [|fuel]; [lia|]); cbn [karatsubaRec].
  - rewrite Hx, Hy. reflexivity.
  - rewrite Hx, Hy, Nat.eqb_refl. cbn [negb].
    assert (Hl : (2 ^ S w = 2 * 2 ^ w)%nat) by apply Nat.pow_succ_r'.
    pose proof (pow2_pos w) as Hpos.
    destruct (Nat.eqb_spec (2 ^ S w) 1); [lia|].
    replace (isPowerOfTwo (2 ^ S w)) with true
      by (symmetry; apply isPowerOfTwo_spec; eauto).
    cbn [negb]. rewrite pow2_half.
    set (h := (2 ^ w)%nat) in *.
    assert (HxL : length (firstn h x) = h) by (rewrite length_firstn; lia).
    assert (HxR : length (skipn h x) = h) by (rewrite length_skipn; lia).
    assert (HyL : length (firstn h y) = h) by (rewrite length_firstn; lia).
    assert (HyR : length (skipn h y) = h) by (rewrite length_skipn; lia).
    rewrite (IH fuel (firstn h x) (firstn h y) HxL HyL ltac:(lia)). cbn [bind].
    rewrite (IH fuel (addSlices (firstn h x) (skipn h x))
                (addSlices (firstn h y) (skipn h y))
                ltac:(rewrite length_addSlices; lia)
                ltac:(rewrite length_addSlices; lia) ltac:(lia)).
    cbn [bind].
    rewrite (IH fuel (skipn h x) (skipn h y) HxR HyR ltac:(lia)). cbn [bind].
    destruct w as [|w].
    + (* halves of length 1 *)
      destruct x as [|x0 [|x1 [|? ?]]]; simpl in Hx; try lia.
      destruct y as [|y0 [|y1 [|? ?]]]; simpl in Hy; try lia.
      cbn. f_equal.
      f_equal; [ring|]. f_equal; [ring|]. f_equal; [ring|]. f_equal. ring.
    + (* halves of length at least 2 *)
      set (z0 := kconv (S w) (firstn h x) (firstn h y)).
      set (z1 := kconv (S w) (addSlices (firstn h x) (skipn h x))
                       (addSlices (firstn h y) (skipn h y))).
      set (z2 := kconv (S w) (skipn h x) (skipn h y)).
      assert (Hz0 : length z0 = (2 * h)%nat) by apply length_kconv.
      assert (Hz1 : length z1 = (2 * h)%nat) by apply length_kconv.
      assert (Hz2 : length z2 = (2 * h)%nat) by apply length_kconv.
      set (cross := subSlices (subSlices z1 z2) z0).
      assert (Hc : length cross = (2 * h)%nat).
      { unfold cross. rewrite !length_subSlices. lia. }
      rewrite Hc.
      assert (Hh2 : (2 <= h)%nat).
      { unfold h. rewrite Nat.pow_succ_r'. pose proof (pow2_pos w). lia. }
      destruct (Nat.eqb_spec (2 * h) 1); [lia|].
      rewrite Hl. rewrite (crossL_eq h cross Hc), (crossR_eq h cross Hc).
      f_equal. apply (nth_ext _ _ 0 0).
      * rewrite length_app, !length_addSlices, length_crossL, length_crossR by exact Hc.
        rewrite length_kconv. lia.
      * intros k _.
        rewrite nth_kconv, Hl. fold h.
        rewrite nth_app_if, length_addSlices, length_crossL, Hz0 by exact Hc.
        replace (Nat.min (2 * h) (2 * h)) with (2 * h)%nat by lia.
        rewrite fconv_halves.
        assert (Hcross : forall k',
                  nth k' cross 0 =
                  fconv h (lf x) (fun j => lf y (j + h)%nat) k'
                  + fconv h (fun i => lf x (i + h)%nat) (lf y) k').
        { intros k'. unfold cross.
          rewrite !nth_subSlices by (rewrite ?length_subSlices; lia).
          unfold z0, z1, z2. rewrite !nth_kconv. fold h.
          rewrite (fconv_ext h (lf (addSlices (firstn h x) (skipn h x)))
                     (fun i => lf (firstn h x) i + lf (skipn h x) i)
                     (lf (addSlices (firstn h y) (skipn h y)))
                     (fun j => lf (firstn h y) j + lf (skipn h y) j)).
          2,3: intros i Hi; unfold lf; apply nth_addSlices; lia.
          rewrite fconv_cross.
          f_equal; apply fconv_ext; intros i Hi; unfold lf;
            rewrite ?nth_firstn, ?nth_skipn;
            try (destruct (Nat.ltb_spec i h); [|lia]); try reflexivity;
            f_equal; lia. }
        assert (Hz0k : forall k', nth k' z0 0 = fconv h (lf x) (lf y) k').
        { intros k'. unfold z0. rewrite nth_kconv. fold h.
          apply fconv_ext; intros i Hi; unfold lf; rewrite nth_firstn;
            (destruct (Nat.ltb_spec i h); [reflexivity | lia]). }
        assert (Hz2k : forall k', nth k' z2 0 =
                  fconv h (fun i => lf x (i + h)%nat) (fun j => lf y (j + h)%nat) k').
        { intros k'. unfold z2. rewrite nth_kconv. fold h.
          apply fconv_ext; intros i Hi; unfold lf; rewrite nth_skipn; f_equal; lia. }
        destruct (Nat.ltb_spec k (2 * h)) as [H1|H1].
        -- rewrite nth_addSlices by (rewrite length_crossL by exact Hc; lia).
           rewrite (nth_crossL h cross k Hc), Hz0k.
           destruct (Nat.ltb_spec k h); destruct (Nat.ltb_spec k (2 * h));
             try lia; rewrite ?Hcross; ring.
        -- rewrite nth_addSlices by (rewrite length_crossR by exact Hc; lia).
           rewrite (nth_crossR h cross (k - 2 * h) Hc), Hz2k.
           rewrite (fconv_support h (lf x) (lf y) k) by lia.
           destruct (Nat.ltb_spec k h); [lia|].
           destruct (Nat.ltb_spec (k - 2 * h) h).
           ++ rewrite Hcross. replace (k - 2 * h + h)%nat with (k - h)%nat by lia. ring.
           ++ rewrite !(fconv_support h _ _ (k - h)) by lia. ring.
Qed.

Lemma karatsuba_fold_loop (l : nat) (karat : list Z) :
  length karat = (2 * l)%nat ->
  exists karat', for_loop l 0 (karatsuba_fold_step l) karat = Ret karat' /\
                 length karat' = (2 * l)%nat /\
                 forall i, (i < l)%nat ->
                   nth i karat' 0 = nth i karat 0 - nth (i + l) karat 0.
Proof.
  intros HL.
  destruct (for_loop_inv
    (fun c k =>
       length k = (2 * l)%nat /\
       (forall i, (i < c)%nat -> nth i k 0 = nth i karat 0 - nth (i + l) karat 0) /\
       (forall i, (c <= i)%nat -> nth i k 0 = nth i karat 0))
    l O (karatsuba_fold_step l) karat) as (k' & E & HL' & Hin & _).
  - repeat split; intros; try lia; reflexivity.
  - intros c k Hc (HLk & Hin & Hout). rewrite Nat.add_0_l.
    unfold karatsuba_fold_step. rewrite !index_Ret by lia. cbn [bind].
    rewrite store_Ret by lia. eexists. split; [reflexivity|].
    split; [now rewrite length_upd|]. split.
    + intros i Hi. destruct (Nat.eq_dec i c) as [->|Hne].
      * rewrite nth_upd_eq by lia. rewrite !Hout by lia. reflexivity.
      * rewrite nth_upd_ne by lia. apply Hin. lia.
    + intros i Hi. rewrite nth_upd_ne by lia. apply Hout. lia.
  - exists k'. auto.
Qed.

(** [Karatsuba] on polynomials of length [2^(w+1)]: the negacyclic fold of
    the full convolution. *)
Lemma Karatsuba_fold (w : nat) (p q : Polynomial) :
  Deg p = (2 ^ S w)%nat -> Deg q = (2 ^ S w)%nat ->
  Karatsuba p q =
  Ret (mkPolynomial
         (map (fun i => fconv (Deg p) (lf (Coeffs p)) (lf (Coeffs q)) i
                        - fconv (Deg p) (lf (Coeffs p)) (lf (Coeffs q)) (i + Deg p))
              (seq 0 (Deg p)))).
Proof.
  intros Hp Hq. unfold Karatsuba. rewrite Hp, Hq.
  replace (isPowerOfTwo (2 ^ S w)) with true
    by (symmetry; apply isPowerOfTwo_spec; eauto).
  cbn [negb orb].
  rewrite (karatsubaRec_spec (S w) (S (2 ^ S w)) (Coeffs p) (Coeffs q) Hp Hq)
    by (pose proof (lin_lt_pow2 (S w)); lia).
  cbn [bind].
  destruct (karatsuba_fold_loop (2 ^ S w) (kconv (S w) (Coeffs p) (Coeffs q))
              (length_kconv w _ _)) as (k' & E & HL & Hnth).
  rewrite E. cbn [bind]. rewrite HL.
  destruct (Nat.leb_spec (2 ^ S w) (2 * 2 ^ S w)); [|lia].
  do 2 f_equal. apply (nth_ext _ _ 0 0).
  - rewrite length_firstn, length_map, length_seq. lia.
  - intros i Hi. rewrite length_firstn in Hi.
    rewrite nth_firstn. destruct (Nat.ltb_spec i (2 ^ S w)); [|lia].
    rewrite nth_map_seq by lia. rewrite Hnth by lia. now rewrite !nth_kconv.
Qed.

Lemma negacyclic_fold_reference (x y : list Z) :
  (0 < length x)%nat ->
  map (fun i => fconv (length x) (lf x) (lf y) i
                - fconv (length x) (lf x) (lf y) (i + length x))
      (seq 0 (length x)) =
  reference_convolution x y.
Proof.
  intros Hn. apply (nth_ext _ _ 0 0).
  - now rewrite length_map, length_seq, length_reference_convolution.
  - intros i Hi. rewrite length_map, length_seq in Hi.
    rewrite nth_map_seq by exact Hi.
    rewrite nth_reference_convolution by exact Hi.
    now apply fconv_fold.
Qed.

(** [Karatsuba] returns the negacyclic product for every power-of-two length
    from [2] on, and then agrees modulo [q] with [Multiplier.Mul]. *)
Theorem Karatsuba_correct (w : nat) (p q : Polynomial) :
  Deg p = (2 ^ S w)%nat -> Deg q = (2 ^ S w)%nat ->
  Karatsuba p q = Ret (mkPolynomial (reference_convolution (Coeffs p) (Coeffs q))).
Proof.
  intros Hp Hq. rewrite (Karatsuba_fold w p q Hp Hq). do 2 f_equal.
  apply negacyclic_fold_reference. unfold Deg in Hp. rewrite Hp. apply pow2_pos.
Qed.

Theorem Karatsuba_agrees_with_Mul (cands : list Z) (w : nat) (q : Z)
        (mul : Multiplier) (x y : Polynomial) :
  NewMultiplier cands (2 ^ S w) q = Ret mul ->
  Deg x = (2 ^ S w)%nat -> Deg y = (2 ^ S w)%nat ->
  exists k z, Karatsuba x y = Ret k /\ Multiplier_Mul mul x y = Ret z /\
              Coeffs z = map (fun c => c mod q) (Coeffs k) /\
              Mod_ z q = Mod_ k q.
Proof.
  intros Hnew Hx Hy.
  rewrite (Karatsuba_correct w x y Hx Hy).
  rewrite (Multiplier_Mul_spec cands _ q mul x y Hnew Hx Hy).
  do 2 eexists. split; [reflexivity|]. split; [reflexivity|].
  cbn [Coeffs]. split; [reflexivity|].
  unfold Mod_, symmetricModulus. cbn [Coeffs]. f_equal.
  rewrite map_map. apply map_ext. intros c.
  apply symmetricModulus_coeff_mod.
  destruct (NewMultiplier_Ret _ _ _ _ Hnew) as (_ & HM & w' & Hwf).
  rewrite <- HM. exact (wf_q_pos mul w' Hwf).
Qed.

(** C7: on polynomials of length [1], a power of two, [karatsubaRec] returns
    the slice [[a * b]] of length [1] and the folding loop of [Karatsuba]
    reads [karat[1]]: the call panics instead of returning the negacyclic
    product [[a * b]]. *)
Theorem Karatsuba_length_one_panics (a b : Z) :
  isPowerOfTwo 1 = true /\
  karatsubaRec 2 [a] [b] = Ret [a * b] /\
  reference_convolution [a] [b] = [a * b] /\
  Karatsuba (mkPolynomial [a]) (mkPolynomial [b]) = Panic "index out of range".
Proof.
  split; [reflexivity|]. split; [reflexivity|]. split.
  - unfold reference_convolution, reference_row, reference_step. cbn.
    reflexivity.
  - reflexivity.
Qed.

(* ================================================================== *)
(** ** ScaleNearest *)

(** [c / d] rounded to the nearest integer, halves away from zero. *)
Definition round_half_away (c d : Z) : Z :=
  Z.sgn c * Z.sgn d * ((2 * Z.abs c + Z.abs d) / (2 * Z.abs d)).

(** [ScaleNearest] rejects a zero denominator. *)
Lemma ScaleNearest_zero_panics (p : Polynomial) :
  ScaleNearest p 0 = Panic "division by zero".
Proof. reflexivity. Qed.

(** C8: the sign of the denominator is not taken into account.  For the
    coefficient [5] and [d = -1] the code computes [trunc(|5| / (-1) + 0.5)],
    that is [-4], where [round(5 / (-1))] is [-5]. *)
Theorem ScaleNearest_negative_scale :
  ScaleNearest (mkPolynomial [5; 0]) (-1) = Ret (mkPolynomial [-4; 0]) /\
  round_half_away 5 (-1) = -5.
Proof. split; vm_compute; reflexivity. Qed.

(** A coefficient of 64 bits or more: the sum [|c| / d + 0.5] is rounded to
    the precision of [|c|], and the tie goes to the even neighbour. *)
Lemma ScaleNearest_large_coefficient :
  ScaleNearest (mkPolynomial [2 ^ 63 + 1; 0]) 1 = Ret (mkPolynomial [2 ^ 63 + 2; 0]) /\
  round_half_away (2 ^ 63 + 1) 1 = 2 ^ 63 + 1.
Proof. split; vm_compute; reflexivity. Qed.

(** On small operands the code rounds as documented. *)
Example ScaleNearest_by_3 :
  ScaleNearest (mkPolynomial [7; 8; -7; -8; 9; 10; 1; 0]) 3 =
  Ret (mkPolynomial (map (fun c => round_half_away c 3) [7; 8; -7; -8; 9; 10; 1; 0])).
Proof. vm_compute. reflexivity. Qed.

(* ================================================================== *)
(** ** HWT *)

(** *** The Hamming weight along the loop *)

Fixpoint hw (v : list Z) : Z :=
  match v with
  | [] => 0
  | x :: r => (if x =? 0 then 0 else 1) + hw r
  end.

Lemma HammingWeight_hw (v : list Z) : HammingWeight v = hw v.
Proof.
  unfold HammingWeight.
  assert (H : forall h, fold_left (fun h x => if negb (x =? 0) then h + 1 else h) v h
                        = h + hw v).
  { induction v as [|x r IH]; intros h; cbn [fold_left hw]; [lia|].
    rewrite IH. destruct (x =? 0); cbn [negb]; lia. }
  rewrite H. lia.
Qed.

Lemma hw_repeat (n : nat) : hw (repeat 0 n) = 0.
Proof. induction n as [|n IH]; simpl; [reflexivity | exact IH]. Qed.

Lemma hw_upd (v : list Z) (k : nat) (x : Z) :
  (k < length v)%nat -> nth k v 0 = 0 -> x <> 0 -> hw (upd v k x) = hw v + 1.
Proof.
  revert k. induction v as [|y r IH]; intros [|k] Hk Hnth Hx;
    cbn [length nth upd hw] in *; try lia.
  - subst y. destruct (Z.eqb_spec x 0); [contradiction|]. cbn [Z.eqb]. lia.
  - rewrite IH by (try lia; assumption). lia.
Qed.

Lemma upd_upd (v : list Z) (k : nat) (a b : Z) : upd (upd v k a) k b = upd v k b.
Proof.
  revert k. induction v as [|y r IH]; intros [|k]; simpl; try reflexivity.
  now rewrite IH.
Qed.

Lemma Forall_upd (P : Z -> Prop) (v : list Z) (k : nat) (x : Z) :
  Forall P v -> P x -> Forall P (upd v k x).
Proof.
  revert k. induction v as [|y r IH]; intros [|k] Hv Hx; simpl; auto;
    inversion Hv; subst; constructor; auto.
Qed.

Definition ternary_minus (x : Z) : Prop := x = 0 \/ x = -1.

Lemma HWT_loop_sound (dim hamming : Z) (n : nat) :
  forall (tape : list draw) (i : Z) (vec res : list Z),
    (length tape <= n)%nat ->
    0 < dim \/ hamming <= i ->
    length vec = Z.to_nat dim ->
    Forall ternary_minus vec ->
    HWT_loop tape dim hamming i vec = Ret res ->
    length res = Z.to_nat dim /\ Forall ternary_minus res /\
    hw res = hw vec + Z.max 0 (hamming - i).
Proof.
  induction n as [|n IH]; intros tape i vec res Hn Hdim HL HF Hrun.
  - destruct tape; [|simpl in Hn; lia]. simpl in Hrun.
    destruct (Z.ltb_spec i hamming);
      [destruct (dim <=? 0); discriminate|].
    injection Hrun as <-. repeat split; auto. lia.
  - destruct tape as [|[r|msg] tape1]; cbn [HWT_loop] in Hrun;
      destruct (Z.ltb_spec i hamming) as [Hi|Hi];
      try (injection Hrun as <-; repeat split; auto; lia);
      (destruct (Z.leb_spec dim 0) as [Hle|Hgt]; [try discriminate; lia|]);
      try discriminate.
    assert (Hd : 0 < dim) by lia.
    pose proof (Z.mod_pos_bound r dim Hd) as Hidx.
    unfold index_Z in Hrun.
    destruct (Z.ltb_spec (r mod dim) 0); [lia|].
    rewrite index_Ret in Hrun by lia. cbn [bind] in Hrun.
    destruct (Z.eqb_spec (nth (Z.to_nat (r mod dim)) vec 0) 0) as [Hz|Hnz];
      cbn [negb] in Hrun.
    + destruct tape1 as [|[c|msg] tape2]; try discriminate.
      unfold store_Z in Hrun.
      destruct (Z.ltb_spec (r mod dim) 0); [lia|].
      assert (Hstep : (if c mod 2 =? 0
                       then store vec (Z.to_nat (r mod dim)) 1
                       else Ret vec) = Ret (if c mod 2 =? 0
                                            then upd vec (Z.to_nat (r mod dim)) 1
                                            else vec)).
      { destruct (c mod 2 =? 0); [apply store_Ret; lia | reflexivity]. }
      rewrite Hstep in Hrun. cbn [bind] in Hrun.
      rewrite store_Ret in Hrun by (destruct (c mod 2 =? 0); rewrite ?length_upd; lia).
      cbn [bind] in Hrun.
      assert (Hupd : upd (if c mod 2 =? 0 then upd vec (Z.to_nat (r mod dim)) 1 else vec)
                         (Z.to_nat (r mod dim)) (-1)
                     = upd vec (Z.to_nat (r mod dim)) (-1)).
      { destruct (c mod 2 =? 0); [apply upd_upd | reflexivity]. }
      rewrite Hupd in Hrun.
      apply IH in Hrun.
      * destruct Hrun as (H1 & H2 & H3). split; [exact H1|]. split; [exact H2|].
        rewrite H3, hw_upd by (try lia; assumption). lia.
      * simpl in Hn. lia.
      * left. exact Hd.
      * now rewrite length_upd.
      * apply Forall_upd; [exact HF | right; reflexivity].
    + replace (i - 1 + 1) with i in Hrun by lia.
      apply IH in Hrun; auto. simpl in Hn. lia.
Qed.

(** A random source on which [HWT] returns: the indices [0, 1, ...] in turn. *)
Definition fresh_tape (i d : nat) : list draw :=
  flat_map (fun k => [Entropy (Z.of_nat k); Entropy 0]) (seq i d).

Lemma HWT_loop_returns (dim h : nat) (d : nat) :
  forall (i : nat) (vec : list Z),
    (i + d = h)%nat -> (h <= dim)%nat -> length vec = dim ->
    (forall k, (i <= k)%nat -> nth k vec 0 = 0) ->
    exists res, HWT_loop (fresh_tape i d) (Z.of_nat dim) (Z.of_nat h) (Z.of_nat i) vec
                = Ret res.
Proof.
  induction d as [|d IH]; intros i vec Hid Hh HL Hz.
  - simpl. destruct (Z.ltb_spec (Z.of_nat i) (Z.of_nat h)); [lia|]. eauto.
  - unfold fresh_tape. cbn [seq flat_map app HWT_loop].
    destruct (Z.ltb_spec (Z.of_nat i) (Z.of_nat h)); [|lia].
    destruct (Z.leb_spec (Z.of_nat dim) 0); [lia|].
    rewrite Z.mod_small by lia.
    unfold index_Z, store_Z.
    destruct (Z.ltb_spec (Z.of_nat i) 0); [lia|].
    rewrite Nat2Z.id. rewrite index_Ret by lia. cbn [bind].
    rewrite (Hz i (Nat.le_refl i)). cbn [Z.eqb negb].
    change (0 mod 2 =? 0) with true. cbv iota.
    rewrite store_Ret by lia. cbn [bind].
    rewrite store_Ret by (rewrite length_upd; lia). cbn [bind].
    replace (Z.of_nat i + 1) with (Z.of_nat (S i)) by lia.
    apply (IH (S i)); try lia.
    + now rewrite !length_upd.
    + intros k Hk. rewrite !nth_upd_ne by lia. apply Hz. lia.
Qed.

(** C9, counterexample: with [hamming > dim], [HWT] returns an error value to
    its caller instead of aborting. *)
Lemma C9_HWT_does_not_abort :
  ~ (forall (tape : list draw) (dim hamming : Z),
       dim < hamming -> exists msg, HWT tape dim hamming = Panic msg).
Proof.
  intros H. destruct (H [] 5 6 ltac:(lia)) as [msg Hmsg]. discriminate Hmsg.
Qed.

(** C9, amended: when [HWT] is called with [hamming > dim] it does not
    abort: it returns the nil vector together with the error
    "impossible hamming weight", whatever the random source. *)
Theorem HWT_impossible_weight (tape : list draw) (dim hamming : Z) :
  dim < hamming ->
  HWT tape dim hamming = Ret ([], Some "impossible hamming weight"%string).
Proof.
  intros H. unfold HWT. destruct (Z.ltb_spec dim hamming); [reflexivity | lia].
Qed.

Lemma HWT_impossible_weight_witness :
  HWT [Entropy 3] 5 6 = Ret ([], Some "impossible hamming weight"%string).
Proof. apply (HWT_impossible_weight [Entropy 3] 5 6). lia. Defined.

(** C10: for [0 <= hamming <= dim] and every random source, the vector that
    [HWT] returns has length [dim], exactly [hamming] non-zero entries, and
    all of them are [-1] (the value [+1] never appears); the error is nil.
    There are random sources on which [HWT] returns. *)
Theorem HWT_weight (dim hamming : Z) :
  0 <= hamming <= dim ->
  (forall tape vec err,
     HWT tape dim hamming = Ret (vec, err) ->
     err = None /\ Z.of_nat (length vec) = dim /\
     HammingWeight vec = hamming /\ Forall ternary_minus vec) /\
  (exists tape vec, HWT tape dim hamming = Ret (vec, None)).
Proof.
  intros Hrange. split.
  - intros tape vec err Hrun. unfold HWT in Hrun.
    destruct (Z.ltb_spec dim hamming); [lia|].
    destruct (Z.ltb_spec dim 0); [lia|].
    destruct (HWT_loop tape dim hamming 0 (repeat 0 (Z.to_nat dim))) as [res| |] eqn:E;
      cbn [bind] in Hrun; try discriminate.
    injection Hrun as <- <-.
    apply (HWT_loop_sound dim hamming (length tape)) in E.
    + destruct E as (H1 & H2 & H3). split; [reflexivity|].
      split; [lia|]. split; [|exact H2].
      rewrite HammingWeight_hw, H3, hw_repeat. lia.
    + lia.
    + lia.
    + apply repeat_length.
    + apply Forall_forall. intros x Hx. apply repeat_spec in Hx. now left.
  - destruct (HWT_loop_returns (Z.to_nat dim) (Z.to_nat hamming) (Z.to_nat hamming)
                O (repeat 0 (Z.to_nat dim)))
      as [res Hres]; try lia.
    + apply repeat_length.
    + intros k _. apply nth_repeat.
    + rewrite !Z2Nat.id in Hres by lia. change (Z.of_nat 0) with 0 in Hres.
      exists (fresh_tape 0 (Z.to_nat hamming)), res.
      unfold HWT.
      destruct (Z.ltb_spec dim hamming); [lia|].
      destruct (Z.ltb_spec dim 0); [lia|].
      rewrite Hres. reflexivity.
Qed.

Lemma HWT_weight_witness :
  (forall tape vec err,
     HWT tape 5 2 = Ret (vec, err) ->
     err = None /\ Z.of_nat (length vec) = 5 /\
     HammingWeight vec = 2 /\ Forall ternary_minus vec) /\
  (exists tape vec, HWT tape 5 2 = Ret (vec, None)).
Proof. apply (HWT_weight 5 2). lia. Defined.

(** A run with a rejected index and both values of the coin. *)
Example HWT_run :
  HWT [Entropy 7; Entropy 0; Entropy 2; Entropy 7; Entropy 3; Entropy 1] 5 2 =
  Ret ([0; 0; -1; -1; 0], None).
Proof. reflexivity. Qed.

(* ================================================================== *)
(** * Further properties of the package *)

(** ** [Polynomial.Mod], continued *)

Lemma symmetricModulus_coeff_canonical (q a b : Z) :
  0 < q ->
  symmetricModulus_coeff q a = symmetricModulus_coeff q b <-> cong q a b.
Proof.
  intros Hq. split.
  - intros H. rewrite <- (symmetricModulus_coeff_cong q a Hq), H.
    now apply symmetricModulus_coeff_cong.
  - intros H. apply cong_iff in H.
    rewrite <- (symmetricModulus_coeff_mod q a Hq), H.
    now apply symmetricModulus_coeff_mod.
Qed.

(** X1 ([Polynomial.Mod], [symmetricModulus]): for a positive modulus [q],
    [p.Mod(q)] keeps the length of [p], puts every coefficient in the
    symmetric interval [(-q/2, q/2]] and changes no coefficient modulo [q]. *)
Theorem Mod_symmetric_representative (p : Polynomial) (q : Z) :
  0 < q ->
  Deg (Mod_ p q) = Deg p /\
  forall i, (i < Deg p)%nat ->
    symmetric_range q (nth i (Coeffs (Mod_ p q)) 0) /\
    cong q (nth i (Coeffs (Mod_ p q)) 0) (nth i (Coeffs p) 0).
Proof.
  intros Hq. unfold Mod_, symmetricModulus, Deg. cbn [Coeffs].
  split; [apply length_map|].
  intros i Hi. rewrite nth_map_Z by exact Hi. split.
  - now apply symmetricModulus_coeff_range.
  - now apply symmetricModulus_coeff_cong.
Qed.

Lemma Mod_symmetric_representative_witness :
  Deg (Mod_ (mkPolynomial [7; -3]) 5) = Deg (mkPolynomial [7; -3]) /\
  forall i, (i < Deg (mkPolynomial [7; -3]%Z))%nat ->
    symmetric_range 5 (nth i (Coeffs (Mod_ (mkPolynomial [7; -3]) 5)) 0) /\
    cong 5 (nth i (Coeffs (Mod_ (mkPolynomial [7; -3]) 5)) 0)
         (nth i (Coeffs (mkPolynomial [7; -3])) 0).
Proof. apply (Mod_symmetric_representative (mkPolynomial [7; -3]) 5). reflexivity. Defined.

Lemma Mod_eq_of_cong (p p' : Polynomial) (q : Z) :
  0 < q -> Deg p = Deg p' ->
  (forall i, (i < Deg p)%nat -> cong q (nth i (Coeffs p) 0) (nth i (Coeffs p') 0)) ->
  Mod_ p q = Mod_ p' q.
Proof.
  intros Hq HL Hc. unfold Mod_, symmetricModulus, Deg in *. f_equal.
  apply (nth_ext _ _ 0 0).
  - now rewrite !length_map.
  - intros i Hi. rewrite length_map in Hi.
    rewrite !nth_map_Z by lia.
    apply (symmetricModulus_coeff_canonical q _ _ Hq). now apply Hc.
Qed.

(** X2 ([Polynomial.Mod]): for a positive modulus, two polynomials have the
    same image under [Mod(q)] exactly when they have the same length and
    their coefficients are congruent modulo [q]: the image is a canonical
    form of the residue class, which is what the tests compare. *)
Theorem Mod_canonical (p p' : Polynomial) (q : Z) :
  0 < q ->
  Mod_ p q = Mod_ p' q <->
  Deg p = Deg p' /\
  forall i, (i < Deg p)%nat -> cong q (nth i (Coeffs p) 0) (nth i (Coeffs p') 0).
Proof.
  intros Hq. split.
  - unfold Mod_, symmetricModulus, Deg. intros H. injection H as H.
    assert (HL : length (Coeffs p) = length (Coeffs p')).
    { rewrite <- (length_map (symmetricModulus_coeff q) (Coeffs p)), H.
      apply length_map. }
    split; [exact HL|]. intros i Hi.
    apply (symmetricModulus_coeff_canonical q _ _ Hq).
    rewrite <- !nth_map_Z by lia. now rewrite H.
  - intros [HL Hc]. now apply Mod_eq_of_cong.
Qed.

Lemma Mod_canonical_witness :
  Mod_ (mkPolynomial [7; -3]) 5 = Mod_ (mkPolynomial [2; 12]) 5 <->
  Deg (mkPolynomial [7; -3]) = Deg (mkPolynomial [2; 12]) /\
  forall i, (i < Deg (mkPolynomial [7; -3]%Z))%nat ->
    cong 5 (nth i (Coeffs (mkPolynomial [7; -3])) 0)
         (nth i (Coeffs (mkPolynomial [2; 12])) 0).
Proof.
  apply (Mod_canonical (mkPolynomial [7; -3]) (mkPolynomial [2; 12]) 5). reflexivity.
Defined.

(** X3 ([symmetricModulus]): with a negative modulus [q < -1] the result is
    not symmetric: [big.Int.Mod] reduces into [[0, |q|)], the truncated half
    [q/2] is negative, so the first branch is always taken and every
    coefficient ends up in [[|q|, 2|q|)]. *)
Theorem Mod_negative_modulus (p : Polynomial) (q : Z) (i : nat) :
  q < -1 -> (i < Deg p)%nat ->
  nth i (Coeffs (Mod_ p q)) 0 = nth i (Coeffs p) 0 mod (- q) - q /\
  - q <= nth i (Coeffs (Mod_ p q)) 0 < - 2 * q.
Proof.
  intros Hq Hi. unfold Mod_, symmetricModulus, Deg in *. cbn [Coeffs].
  rewrite nth_map_Z by exact Hi.
  unfold symmetricModulus_coeff, big_Mod, big_Quo.
  rewrite Z.abs_neq by lia.
  pose proof (Z.mod_pos_bound (nth i (Coeffs p) 0) (- q) ltac:(lia)) as Hv.
  assert (Hh : Z.quot q 2 < 0).
  { pose proof (Z.quot_opp_l (- q) 2 ltac:(lia)) as Ho. rewrite Z.opp_involutive in Ho.
    rewrite Ho, Z.quot_div_nonneg by lia.
    assert (0 < - q / 2) by (apply Z.div_str_pos; lia). lia. }
  destruct (Z.ltb_spec (Z.quot q 2) (nth i (Coeffs p) 0 mod - q)); lia.
Qed.

Lemma Mod_negative_modulus_witness :
  nth 0 (Coeffs (Mod_ (mkPolynomial [7; -3]) (-5))) 0
  = nth 0 (Coeffs (mkPolynomial [7; -3])) 0 mod (- (-5)) - (-5) /\
  - (-5) <= nth 0 (Coeffs (Mod_ (mkPolynomial [7; -3]) (-5))) 0 < - 2 * (-5).
Proof.
  apply (Mod_negative_modulus (mkPolynomial [7; -3]) (-5) 0); [lia | cbn; lia].
Defined.

(** ** [Karatsuba], continued *)

(** X4 ([Karatsuba], [karatsubaRec]): [Karatsuba(p, q)] returns exactly when
    [p] and [q] have the same power-of-two length [N >= 2], and what it
    returns is then the negacyclic convolution of [p] and [q]; on every
    other pair of inputs it panics. *)
Theorem Karatsuba_returns_iff (p q r : Polynomial) :
  Karatsuba p q = Ret r <->
  (exists w, Deg p = (2 ^ S w)%nat /\ Deg q = (2 ^ S w)%nat) /\
  r = mkPolynomial (reference_convolution (Coeffs p) (Coeffs q)).
Proof.
  split.
  - intros H.
    assert (Hw : exists w, Deg p = (2 ^ S w)%nat /\ Deg q = (2 ^ S w)%nat).
    { unfold Karatsuba in H.
      destruct (isPowerOfTwo (Deg p)) eqn:Hp; [|discriminate].
      destruct (isPowerOfTwo (Deg q)) eqn:Hq; [|discriminate].
      cbn [negb orb] in H.
      apply isPowerOfTwo_spec in Hp. destruct Hp as [a Ha].
      apply isPowerOfTwo_spec in Hq. destruct Hq as [b Hb].
      cbn [karatsubaRec] in H. fold (Deg p) in H. fold (Deg q) in H.
      destruct (Nat.eqb_spec (Deg p) (Deg q)) as [Heq|Hne]; [|discriminate].
      cbn [negb] in H.
      assert (a = b).
      { apply (Nat.pow_inj_r 2); [lia|]. congruence. }
      subst b.
      destruct a as [|w]; [|eauto].
      exfalso. rewrite Ha in H. change (2 ^ 0)%nat with 1%nat in H.
      cbn [Nat.eqb bind for_loop karatsuba_fold_step] in H.
      unfold index in H. cbn [nth_error bind] in H. discriminate. }
    split; [exact Hw|].
    destruct Hw as (w & Hp & Hq).
    rewrite (Karatsuba_correct w p q Hp Hq) in H. now injection H.
  - intros [(w & Hp & Hq) ->]. now apply (Karatsuba_correct w).
Qed.

(** ** The algebra of [Multiplier.Mul] *)

Lemma sumZ_swap (n m : nat) (F : nat -> nat -> Z) :
  sumZ n (fun i => sumZ m (fun j => F i j)) =
  sumZ m (fun j => sumZ n (fun i => F i j)).
Proof.
  induction n as [|n IH]; cbn [sumZ].
  - symmetry. now apply sumZ_zero.
  - rewrite IH, sumZ_add. reflexivity.
Qed.

Lemma tconv_comm (n : nat) (r : Z) (a b : nat -> Z) (k : nat) :
  tconv n r a b k = tconv n r b a k.
Proof.
  unfold tconv. rewrite sumZ_swap.
  apply sumZ_ext. intros i _. apply sumZ_ext. intros j _.
  rewrite (Nat.add_comm j i). ring.
Qed.

Lemma tconv_ext (n : nat) (r : Z) (a a' b b' : nat -> Z) (k : nat) :
  (forall i, (i < n)%nat -> a i = a' i) ->
  (forall j, (j < n)%nat -> b j = b' j) ->
  tconv n r a b k = tconv n r a' b' k.
Proof.
  intros Ha Hb. unfold tconv.
  apply sumZ_ext. intros i Hi. apply sumZ_ext. intros j Hj.
  now rewrite (Ha i Hi), (Hb j Hj).
Qed.

Lemma reference_convolution_comm (x y : list Z) :
  length x = length y -> reference_convolution x y = reference_convolution y x.
Proof.
  intros HL. apply (nth_ext _ _ 0 0).
  - now rewrite !length_reference_convolution.
  - intros k Hk. rewrite length_reference_convolution in Hk.
    rewrite !nth_reference_convolution by lia.
    rewrite <- HL. apply tconv_comm.
Qed.

(** X5 ([Multiplier.Mul]): the product does not depend on the order of its
    operands. *)
Theorem Multiplier_Mul_comm (cands : list Z) (n : nat) (q : Z) (mul : Multiplier)
        (x y : Polynomial) :
  NewMultiplier cands n q = Ret mul -> Deg x = n -> Deg y = n ->
  Multiplier_Mul mul x y = Multiplier_Mul mul y x.
Proof.
  intros Hnew Hx Hy.
  rewrite (Multiplier_Mul_spec cands n q mul x y Hnew Hx Hy).
  rewrite (Multiplier_Mul_spec cands n q mul y x Hnew Hy Hx).
  rewrite reference_convolution_comm by (unfold Deg in *; congruence).
  reflexivity.
Qed.

Lemma Multiplier_Mul_comm_witness :
  Multiplier_Mul mul_2_5 (mkPolynomial [3; 4]) (mkPolynomial [1; 2]) =
  Multiplier_Mul mul_2_5 (mkPolynomial [1; 2]) (mkPolynomial [3; 4]).
Proof.
  exact (Multiplier_Mul_comm [4; 3] 2 5 mul_2_5 (mkPolynomial [3; 4]) (mkPolynomial [1; 2])
           NewMultiplier_2_5 eq_refl eq_refl).
Defined.

(** The monomial [X^s] as a slice of length [n]. *)
Definition monomial (n s : nat) : list Z := upd (repeat 0 n) s 1.

Lemma nth_monomial (n s j : nat) :
  (s < n)%nat -> nth j (monomial n s) 0 = if (j =? s)%nat then 1 else 0.
Proof.
  intros Hs. unfold monomial.
  destruct (Nat.eqb_spec j s) as [->|Hne].
  - apply nth_upd_eq. now rewrite repeat_length.
  - rewrite nth_upd_ne by lia.
    destruct (Nat.lt_ge_cases j n).
    + now rewrite nth_repeat_lt.
    + apply nth_overflow. now rewrite repeat_length.
Qed.

(** Multiplication by [X^s] in [Z[X]/(X^n - r)]: a rotation by [s] places
    in which the coefficients that wrap around pick up the factor [r]. *)
Lemma tconv_monomial (n : nat) (r : Z) (a : nat -> Z) (s k : nat) :
  (s < n)%nat -> (k < n)%nat ->
  tconv n r a (fun j => if (j =? s)%nat then 1 else 0) k =
  if (s <=? k)%nat then a (k - s)%nat else r * a (n + k - s)%nat.
Proof.
  intros Hs Hk. unfold tconv.
  rewrite (sumZ_ext n _ (fun i => a i * kappa n r (i + s) k)).
  2:{ intros i Hi. rewrite (sumZ_single n _ s Hs).
      - rewrite Nat.eqb_refl. ring.
      - intros j _ Hne. destruct (Nat.eqb_spec j s); [contradiction|ring]. }
  destruct (Nat.leb_spec s k) as [Hle|Hlt].
  - rewrite (sumZ_single n _ (k - s)%nat) by
      (try lia; intros i Hi Hne; unfold kappa; case_eqb; try ring).
    unfold kappa. case_eqb; try ring.
  - rewrite (sumZ_single n _ (n + k - s)%nat) by
      (try lia; intros i Hi Hne; unfold kappa; case_eqb; try ring).
    unfold kappa. case_eqb; try ring.
Qed.

(** X6 ([Multiplier.Mul]): multiplying by the monomial [X^s], [s < N],
    rotates the coefficients by [s] places and negates those that wrap
    around ([X^N = -1]); the coefficients are reduced into [[0, q)].  With
    [s = 0] the multiplier by the constant [1] returns [x mod q]. *)
Theorem Multiplier_Mul_monomial (cands : list Z) (n : nat) (q : Z) (mul : Multiplier)
        (x : Polynomial) (s : nat) :
  NewMultiplier cands n q = Ret mul -> Deg x = n -> (s < n)%nat ->
  Multiplier_Mul mul x (mkPolynomial (monomial n s)) =
  Ret (mkPolynomial
         (map (fun k => (if (s <=? k)%nat then nth (k - s) (Coeffs x) 0
                         else - nth (n + k - s) (Coeffs x) 0) mod q)
              (seq 0 n))).
Proof.
  intros Hnew Hx Hs.
  assert (Hm : Deg (mkPolynomial (monomial n s)) = n).
  { unfold Deg, monomial. cbn [Coeffs]. now rewrite length_upd, repeat_length. }
  rewrite (Multiplier_Mul_spec cands n q mul x _ Hnew Hx Hm).
  do 2 f_equal. cbn [Coeffs]. unfold Deg in Hx.
  apply (nth_ext _ _ 0 0).
  - now rewrite !length_map, length_seq, length_reference_convolution.
  - intros k Hk. rewrite length_map, length_reference_convolution in Hk.
    rewrite nth_map_Z by (rewrite length_reference_convolution; lia).
    rewrite nth_map_seq by lia.
    rewrite nth_reference_convolution by lia.
    rewrite Hx.
    rewrite (tconv_ext n (-1) _ (fun i => nth i (Coeffs x) 0)
               _ (fun j => if (j =? s)%nat then 1 else 0) k).
    + rewrite tconv_monomial by lia.
      destruct (s <=? k)%nat; f_equal; ring.
    + reflexivity.
    + intros j Hj. now apply nth_monomial.
Qed.

Lemma Multiplier_Mul_monomial_witness :
  Multiplier_Mul mul_2_5 (mkPolynomial [3; 4]) (mkPolynomial (monomial 2 1)) =
  Ret (mkPolynomial
         (map (fun k => (if (1 <=? k)%nat then nth (k - 1) (Coeffs (mkPolynomial [3; 4])) 0
                         else - nth (2 + k - 1) (Coeffs (mkPolynomial [3; 4])) 0) mod 5)
              (seq 0 2))).
Proof.
  exact (Multiplier_Mul_monomial [4; 3] 2 5 mul_2_5 (mkPolynomial [3; 4]) 1
           NewMultiplier_2_5 eq_refl (le_n 2)).
Defined.

(** ** The transforms, continued *)

(** From the last stage on, every coefficient is a residue in [[0, q)]. *)
Lemma ntt_chain_reduced (q : Z) (roots : list Z) (w : nat) (a a' : list Z) :
  0 < q -> (1 <= w)%nat ->
  chain (map (ntt_stage_rel q roots w) (seq 0 w)) a a' ->
  forall x, (x < 2 ^ w)%nat -> 0 <= nth x a' 0 < q.
Proof.
  intros Hq Hw Hc x Hx.
  destruct w as [|w]; [lia|].
  rewrite seq_S, map_app in Hc. apply chain_app in Hc.
  destruct Hc as (a1 & _ & Hlast). cbn [map chain Nat.add] in Hlast.
  destruct Hlast as (a2 & [_ Hst] & ->).
  replace (S w - 1 - w)%nat with O in Hst by lia.
  change (2 ^ 0)%nat with 1%nat in Hst.
  rewrite Nat.pow_succ_r' in Hx.
  destruct (block_decompose (2 ^ w) 1 x ltac:(lia) ltac:(lia))
    as (i & k & Hi & Hk & Hxk).
  destruct (Hst i k Hi Hk) as [C1 C2].
  destruct Hxk as [-> | ->].
  - rewrite C1. unfold ct_lo. now apply Z.mod_pos_bound.
  - rewrite C2. unfold ct_hi. now apply Z.mod_pos_bound.
Qed.

(** X7 ([NTT]): for a multiplier built by [NewMultiplier], [NTT] returns on
    every input of length [N] and keeps the length; for [N >= 2] all the
    coefficients it returns are residues in [[0, q)], whereas for [N = 1]
    there is no stage and the input is returned as it is, reduced or not. *)
Theorem NTT_range (cands : list Z) (n : nat) (q : Z) (mul : Multiplier)
        (a : Polynomial) :
  NewMultiplier cands n q = Ret mul -> Deg a = n ->
  exists a', NTT mul a = Ret a' /\ Deg a' = n /\
             (n = 1%nat -> a' = a) /\
             ((2 <= n)%nat -> Forall (fun c => 0 <= c < q) (Coeffs a')).
Proof.
  intros Hnew Ha.
  destruct (NewMultiplier_Ret _ _ _ _ Hnew) as (HN & HM & w & Hwf).
  pose proof (wf_q_pos mul w Hwf) as Hq. rewrite HM in Hq.
  assert (Hn : n = (2 ^ w)%nat) by (rewrite <- HN; apply (wf_N _ _ Hwf)).
  destruct (NTT_spec mul w Hwf a ltac:(congruence)) as (a' & E & C).
  rewrite HM in C.
  pose proof (chain_ntt_length _ _ _ _ _ _ C) as HL.
  exists (mkPolynomial a'). split; [exact E|]. split; [|split].
  - unfold Deg in *. cbn [Coeffs]. lia.
  - intros H1. rewrite Hn in H1.
    destruct w as [|w].
    + cbn [seq map chain] in C. subst a'. now destruct a.
    + rewrite Nat.pow_succ_r' in H1. pose proof (pow2_pos w). lia.
  - intros H2. cbn [Coeffs]. apply Forall_forall. intros c Hc.
    destruct (In_nth _ _ 0 Hc) as (x & Hx & <-).
    apply (ntt_chain_reduced q (rootsBitReverse mul) w (Coeffs a) a' Hq);
      [|exact C|unfold Deg in *; lia].
    destruct w; [cbn in Hn; lia | lia].
Qed.

Lemma NTT_range_witness :
  exists a', NTT mul_2_5 (mkPolynomial [7; -3]) = Ret a' /\ Deg a' = 2%nat /\
             (2%nat = 1%nat -> a' = mkPolynomial [7; -3]) /\
             ((2 <= 2)%nat -> Forall (fun c => 0 <= c < 5) (Coeffs a')).
Proof.
  exact (NTT_range [4; 3] 2 5 mul_2_5 (mkPolynomial [7; -3]) NewMultiplier_2_5 eq_refl).
Defined.

(** X8 ([NTT], [Hadamard]): the convolution theorem.  The transform of the
    negacyclic convolution of [x] and [y] is, coefficient by coefficient and
    modulo [q], the product of the transforms of [x] and [y]; [Hadamard]
    applied to the two transforms returns its residues. *)
Theorem NTT_convolution (cands : list Z) (n : nat) (q : Z) (mul : Multiplier)
        (x y : Polynomial) :
  NewMultiplier cands n q = Ret mul -> Deg x = n -> Deg y = n ->
  exists X Y Z,
    NTT mul x = Ret X /\ NTT mul y = Ret Y /\
    NTT mul (mkPolynomial (reference_convolution (Coeffs x) (Coeffs y))) = Ret Z /\
    (forall i, (i < n)%nat ->
       cong q (nth i (Coeffs Z) 0) (nth i (Coeffs X) 0 * nth i (Coeffs Y) 0)) /\
    Hadamard mul X Y = Ret (mkPolynomial (map (fun c => c mod q) (Coeffs Z))).
Proof.
  intros Hnew Hx Hy.
  destruct (NewMultiplier_Ret _ _ _ _ Hnew) as (HN & HM & w & Hwf).
  pose proof (wf_q_pos mul w Hwf) as Hq.
  assert (Hn : n = (2 ^ w)%nat) by (rewrite <- HN; apply (wf_N _ _ Hwf)).
  rewrite Hn in Hx, Hy |- *. clear HN Hn.
  set (C := mkPolynomial (reference_convolution (Coeffs x) (Coeffs y))).
  assert (HC : Deg C = (2 ^ w)%nat)
    by (unfold Deg, C; cbn [Coeffs]; now rewrite length_reference_convolution).
  destruct (NTT_spec mul w Hwf x Hx) as (A' & EA & CA).
  destruct (NTT_spec mul w Hwf y Hy) as (B' & EB & CB).
  destruct (NTT_spec mul w Hwf C HC) as (C' & EC & CC).
  assert (HLA : length A' = (2 ^ w)%nat) by (rewrite (chain_ntt_length _ _ _ _ _ _ CA); exact Hx).
  assert (HLB : length B' = (2 ^ w)%nat) by (rewrite (chain_ntt_length _ _ _ _ _ _ CB); exact Hy).
  assert (HLC : length C' = (2 ^ w)%nat) by (rewrite (chain_ntt_length _ _ _ _ _ _ CC); exact HC).
  assert (Hfinal : conv_inv (Mod mul) (rootsBitReverse mul) (2 ^ w) 1 A' B' C').
  { apply (conv_inv_chain (Mod mul) (rootsBitReverse mul) w w O
             (Coeffs x) (Coeffs y) (Coeffs C)); try assumption; try lia.
    - exact (wf_tree _ _ Hwf).
    - intros i k Hi Hk. change (2 ^ 0)%nat with 1%nat in Hi.
      assert (i = O) by lia. subst i.
      rewrite tconv_block0. unfold C. cbn [Coeffs].
      rewrite nth_reference_convolution by (unfold Deg in Hx; lia).
      unfold Deg in Hx. rewrite Hx. reflexivity. }
  assert (Hpt : forall i, (i < 2 ^ w)%nat ->
                  cong (Mod mul) (nth i C' 0) (nth i A' 0 * nth i B' 0)).
  { intros i Hi. pose proof (Hfinal i O Hi ltac:(lia)) as H.
    rewrite Nat.mul_1_r, Nat.add_0_r in H. rewrite H.
    rewrite tconv_1. unfold blockf. rewrite Nat.add_0_r. reflexivity. }
  exists (mkPolynomial A'), (mkPolynomial B'), (mkPolynomial C').
  split; [exact EA|]. split; [exact EB|]. split; [exact EC|]. cbn [Coeffs].
  rewrite <- HM. split; [exact Hpt|].
  rewrite (Hadamard_spec mul w (mkPolynomial A') (mkPolynomial B') Hq HLA HLB).
  do 2 f_equal. cbn [Coeffs]. apply (nth_ext _ _ 0 0).
  - now rewrite !length_map, length_seq.
  - intros i Hi. rewrite length_map, length_seq in Hi.
    rewrite nth_map_seq by lia. rewrite nth_map_Z by lia.
    symmetry. apply (proj1 (cong_iff _ _ _)). now apply Hpt.
Qed.

Lemma NTT_convolution_witness :
  exists X Y Z,
    NTT mul_2_5 (mkPolynomial [3; 4]) = Ret X /\
    NTT mul_2_5 (mkPolynomial [1; 2]) = Ret Y /\
    NTT mul_2_5 (mkPolynomial (reference_convolution (Coeffs (mkPolynomial [3; 4]))
                                                     (Coeffs (mkPolynomial [1; 2]))))
    = Ret Z /\
    (forall i, (i < 2)%nat ->
       cong 5 (nth i (Coeffs Z) 0) (nth i (Coeffs X) 0 * nth i (Coeffs Y) 0)) /\
    Hadamard mul_2_5 X Y = Ret (mkPolynomial (map (fun c => c mod 5) (Coeffs Z))).
Proof.
  exact (NTT_convolution [4; 3] 2 5 mul_2_5 (mkPolynomial [3; 4]) (mkPolynomial [1; 2])
           NewMultiplier_2_5 eq_refl eq_refl).
Defined.

(** A Cooley-Tukey stage undoes the Gentleman-Sande stage with the same
    [m] and [t], up to a factor [2]. *)
Lemma ct_undoes_gs (q : Z) (roots rootsInv : list Z) (w e : nat) (c : Z)
      (b b1 a a1 : list Z) :
  (e < w)%nat ->
  (forall i, (i < 2 ^ e)%nat ->
     cong q (nth (2 ^ e + i) roots 0 * nth (2 ^ e + i) rootsInv 0) 1) ->
  intt_stage_rel q rootsInv w e b b1 ->
  ntt_stage_rel q roots w e a a1 ->
  (forall x, (x < 2 ^ w)%nat -> cong q (nth x a 0) (c * nth x b1 0)) ->
  forall x, (x < 2 ^ w)%nat -> cong q (nth x a1 0) (2 * c * nth x b 0).
Proof.
  intros He Hinv [_ Hgs] [_ Hct] Ha x Hx.
  pose proof (pow2_split w e (w - e) ltac:(lia)) as Hsplit.
  replace (w - e)%nat with (S (w - 1 - e)) in Hsplit by lia.
  rewrite Nat.pow_succ_r' in Hsplit.
  set (t := (2 ^ (w - 1 - e))%nat) in *.
  assert (Ht : (0 < t)%nat) by apply pow2_pos.
  destruct (block_decompose (2 ^ e) t x Ht ltac:(lia)) as (i & k & Hi & Hk & Hxk).
  destruct (Hct i k Hi Hk) as [C1 C2].
  destruct (Hgs i k Hi Hk) as [G1 G2].
  assert (A1 := Ha (i * (2 * t) + k)%nat ltac:(pose proof (block_offsets (2 ^ e) i t Hi); lia)).
  assert (A2 := Ha (i * (2 * t) + k + t)%nat ltac:(pose proof (block_offsets (2 ^ e) i t Hi); lia)).
  rewrite G1 in A1. rewrite G2 in A2. unfold gs_lo, gs_hi in A1, A2.
  rewrite cong_mod in A1, A2.
  destruct Hxk as [-> | ->].
  - rewrite C1. unfold ct_lo. rewrite cong_mod, A1, A2.
    transitivity (c * (nth (i * (2 * t) + k) b 0 + nth (i * (2 * t) + k + t) b 0)
                  + c * (nth (i * (2 * t) + k) b 0 - nth (i * (2 * t) + k + t) b 0)
                    * (nth (2 ^ e + i) roots 0 * nth (2 ^ e + i) rootsInv 0)).
    + apply cong_eq. ring.
    + rewrite (Hinv i Hi). apply cong_eq. ring.
  - rewrite C2. unfold ct_hi. rewrite cong_mod, A1, A2.
    transitivity (c * (nth (i * (2 * t) + k) b 0 + nth (i * (2 * t) + k + t) b 0)
                  - c * (nth (i * (2 * t) + k) b 0 - nth (i * (2 * t) + k + t) b 0)
                    * (nth (2 ^ e + i) roots 0 * nth (2 ^ e + i) rootsInv 0)).
    + apply cong_eq. ring.
    + rewrite (Hinv i Hi). apply cong_eq. ring.
Qed.

(** The stages of [NTT] undo the stages of [INTT] up to the factor [2^d]. *)
Lemma ntt_undoes_intt (q : Z) (roots rootsInv : list Z) (w d : nat) :
  forall (e : nat) (c : Z) (b b' a a' : list Z),
    (e + d = w)%nat ->
    (forall k, (1 <= k < 2 ^ w)%nat -> cong q (nth k roots 0 * nth k rootsInv 0) 1) ->
    chain (map (intt_stage_rel q rootsInv w) (rev (seq e d))) b b' ->
    chain (map (ntt_stage_rel q roots w) (seq e d)) a a' ->
    (forall x, (x < 2 ^ w)%nat -> cong q (nth x a 0) (c * nth x b' 0)) ->
    forall x, (x < 2 ^ w)%nat -> cong q (nth x a' 0) (2 ^ Z.of_nat d * c * nth x b 0).
Proof.
  induction d as [|d IH]; intros e c b b' a a' He Hinv Hi Hn Ha x Hx.
  - simpl in Hn, Hi. subst a' b'. rewrite (Ha x Hx). apply cong_eq.
    change (Z.of_nat 0) with 0. rewrite Z.pow_0_r. ring.
  - cbn [seq map chain] in Hn. destruct Hn as (a1 & R1 & Hn).
    cbn [seq rev] in Hi. rewrite map_app in Hi. apply chain_app in Hi.
    destruct Hi as (b1 & Hi & Hlast). cbn [map chain] in Hlast.
    destruct Hlast as (b2 & G & ->).
    assert (Hinv_e : forall i, (i < 2 ^ e)%nat ->
              cong q (nth (2 ^ e + i) roots 0 * nth (2 ^ e + i) rootsInv 0) 1).
    { intros i Hi'. apply Hinv.
      pose proof (pow2_pos e).
      assert (2 * 2 ^ e <= 2 ^ w)%nat
        by (rewrite <- Nat.pow_succ_r'; apply Nat.pow_le_mono_r; lia).
      lia. }
    pose proof (ct_undoes_gs q roots rootsInv w e c b1 b2 a a1 ltac:(lia)
                  Hinv_e G R1 Ha) as H1.
    rewrite (IH (S e) (2 * c) b b1 a1 a' ltac:(lia) Hinv Hi Hn H1 x Hx).
    apply cong_eq. rewrite Nat2Z.inj_succ, Z.pow_succ_r by lia. ring.
Qed.

(** X9 ([INTT], [NTT]): the round trip in the other order.  For a
    multiplier built by [NewMultiplier] and every [a] of length [N], [INTT]
    returns and [NTT] applied to its result returns the residues of [a] in
    [[0, q)]: [NTT(INTT(a)) = a mod q]. *)
Theorem INTT_NTT_roundtrip (cands : list Z) (n : nat) (q : Z) (mul : Multiplier)
        (a : Polynomial) :
  NewMultiplier cands n q = Ret mul -> Deg a = n ->
  exists b, INTT mul a = Ret b /\
            NTT mul b = Ret (mkPolynomial (map (fun c => c mod q) (Coeffs a))).
Proof.
  intros Hnew Ha.
  destruct (NewMultiplier_Ret _ _ _ _ Hnew) as (HN & HM & w & Hwf).
  pose proof (wf_q_pos mul w Hwf) as Hq.
  assert (Hn : n = (2 ^ w)%nat) by (rewrite <- HN; apply (wf_N _ _ Hwf)).
  rewrite Hn in Ha. clear HN Hn.
  destruct (INTT_spec mul w Hwf a Ha) as (b1 & EI & CI).
  pose proof (chain_intt_length _ _ _ _ _ _ CI) as HLb.
  set (b := mkPolynomial (map (fun x => (x * nInvQ mul) mod Mod mul) b1)) in *.
  assert (Hb : Deg b = (2 ^ w)%nat).
  { unfold Deg, b in *. cbn [Coeffs]. rewrite length_map. lia. }
  destruct (NTT_spec mul w Hwf b Hb) as (a' & EN & CN).
  pose proof (chain_ntt_length _ _ _ _ _ _ CN) as HLa.
  exists b. split; [exact EI|]. rewrite EN. do 2 f_equal.
  unfold Deg in Ha, Hb.
  assert (Hcong : forall x, (x < 2 ^ w)%nat ->
                    cong (Mod mul) (nth x a' 0) (nth x (Coeffs a) 0)).
  { intros x Hx.
    rewrite (ntt_undoes_intt (Mod mul) (rootsBitReverse mul) (invRootsBitReverse mul)
               w w O (nInvQ mul) (Coeffs a) b1 (Coeffs b) a' ltac:(lia)
               (wf_inverse _ _ Hwf) CI CN); [| |exact Hx].
    - change 2 with (Z.of_nat 2). rewrite <- Nat2Z.inj_pow.
      transitivity (Z.of_nat (N mul) * nInvQ mul * nth x (Coeffs a) 0).
      + rewrite (wf_N _ _ Hwf). apply cong_eq. ring.
      + rewrite (wf_nInv _ _ Hwf). apply cong_eq. ring.
    - intros y Hy. unfold b. cbn [Coeffs]. rewrite nth_map_Z by lia.
      rewrite cong_mod. apply cong_eq. ring. }
  assert (Hred : forall x, (x < 2 ^ w)%nat -> nth x a' 0 mod Mod mul = nth x a' 0).
  { intros x Hx. destruct w as [|w].
    - cbn [seq map chain] in CN. subst a'. unfold b. cbn [Coeffs].
      rewrite nth_map_Z by (change (2 ^ 0)%nat with 1%nat in *; lia).
      apply Zmod_mod.
    - apply Z.mod_small.
      apply (ntt_chain_reduced (Mod mul) (rootsBitReverse mul) (S w) (Coeffs b) a' Hq);
        [lia | exact CN | exact Hx]. }
  rewrite <- HM.
  apply (nth_ext _ _ 0 0).
  - rewrite length_map. lia.
  - intros x Hx. rewrite nth_map_Z by lia.
    rewrite <- Hred by lia.
    apply (proj1 (cong_iff _ _ _)). apply Hcong. lia.
Qed.

Lemma INTT_NTT_roundtrip_witness :
  exists b, INTT mul_2_5 (mkPolynomial [7; -3]) = Ret b /\
            NTT mul_2_5 b = Ret (mkPolynomial (map (fun c => c mod 5)
                                                   (Coeffs (mkPolynomial [7; -3])))).
Proof.
  exact (INTT_NTT_roundtrip [4; 3] 2 5 mul_2_5 (mkPolynomial [7; -3])
           NewMultiplier_2_5 eq_refl).
Defined.

(** ** [Hadamard] and [Multiplier.Mul] on other lengths *)

(** X10 ([Hadamard]): [Hadamard] does not look at [N].  It returns exactly
    when its operands have the same power-of-two length, and then returns
    the residues in [[0, q)] of the coefficient-wise products. *)
Theorem Hadamard_returns_iff (mul : Multiplier) (a b c : Polynomial) :
  0 < Mod mul ->
  Hadamard mul a b = Ret c <->
  Deg a = Deg b /\ isPowerOfTwo (Deg a) = true /\
  c = mkPolynomial (map (fun i => (nth i (Coeffs a) 0 * nth i (Coeffs b) 0) mod Mod mul)
                        (seq 0 (Deg a))).
Proof.
  intros Hq. split.
  - intros H.
    assert (Hab : Deg a = Deg b /\ isPowerOfTwo (Deg a) = true).
    { unfold Hadamard, NewPolynomial in H.
      destruct (Nat.eqb_spec (Deg a) (Deg b)); [|discriminate].
      destruct (isPowerOfTwo (Deg a)); [auto|discriminate]. }
    destruct Hab as [Hab Hpow]. split; [exact Hab|]. split; [exact Hpow|].
    apply isPowerOfTwo_spec in Hpow. destruct Hpow as [w Hw].
    rewrite (Hadamard_spec mul w a b Hq Hw ltac:(congruence)) in H.
    injection H as <-. now rewrite Hw.
  - intros (Hab & Hpow & ->).
    apply isPowerOfTwo_spec in Hpow. destruct Hpow as [w Hw].
    rewrite (Hadamard_spec mul w a b Hq Hw ltac:(congruence)). now rewrite Hw.
Qed.

Lemma Hadamard_returns_iff_witness :
  Hadamard mul_2_5 (mkPolynomial [3; 4; 1; 1]) (mkPolynomial [2; 2; 0; 7])
  = Ret (mkPolynomial [1; 3; 0; 2]) <->
  Deg (mkPolynomial [3; 4; 1; 1]) = Deg (mkPolynomial [2; 2; 0; 7]) /\
  isPowerOfTwo (Deg (mkPolynomial [3; 4; 1; 1])) = true /\
  mkPolynomial [1; 3; 0; 2] =
  mkPolynomial (map (fun i => (nth i (Coeffs (mkPolynomial [3; 4; 1; 1])) 0
                               * nth i (Coeffs (mkPolynomial [2; 2; 0; 7])) 0)
                              mod Mod mul_2_5)
                    (seq 0 (Deg (mkPolynomial [3; 4; 1; 1])))).
Proof.
  apply (Hadamard_returns_iff mul_2_5 (mkPolynomial [3; 4; 1; 1])
           (mkPolynomial [2; 2; 0; 7]) (mkPolynomial [1; 3; 0; 2])).
  reflexivity.
Defined.

(** X11 ([Multiplier.Mul], [NTT]): [Multiplier.Mul] does not compare the
    length of its operands with [N].  On operands of equal power-of-two
    length shorter than [N] the first butterfly of [NTT] reads
    [a.Coeffs[N/2]], past the end of the slice, and the call panics. *)
Theorem Multiplier_Mul_short_panics (cands : list Z) (n : nat) (q : Z)
        (mul : Multiplier) (x y : Polynomial) :
  NewMultiplier cands n q = Ret mul ->
  Deg x = Deg y -> isPowerOfTwo (Deg x) = true -> (Deg x < n)%nat ->
  Multiplier_Mul mul x y = Panic "index out of range".
Proof.
  intros Hnew Hxy Hpow Hlt.
  destruct (NewMultiplier_Ret _ _ _ _ Hnew) as (HN & HM & w & Hwf).
  assert (Hn : n = (2 ^ w)%nat) by (rewrite <- HN; apply (wf_N _ _ Hwf)).
  apply isPowerOfTwo_spec in Hpow. destruct Hpow as [v Hv].
  assert (Hvw : (v < w)%nat).
  { apply (Nat.pow_lt_mono_r_iff 2); lia. }
  destruct w as [|w]; [lia|].
  assert (Hle : (2 ^ v <= 2 ^ w)%nat) by (apply Nat.pow_le_mono_r; lia).
  unfold Multiplier_Mul. rewrite <- Hxy, Nat.eqb_refl. cbn [negb].
  rewrite Hv, NewPolynomial_pow2. cbn [bind Coeffs].
  rewrite (mul_copy_loop (Coeffs x) (Coeffs y) _ _ (2 ^ v)%nat Hv
             ltac:(unfold Deg in *; congruence)
             (repeat_length _ _) (repeat_length _ _)).
  cbn [bind]. unfold NTT. cbn [Coeffs]. rewrite HN, Hn.
  pose proof (pow2_pos (S w)) as Hpos.
  destruct (2 ^ S w)%nat as [|f] eqn:Hf; [lia|].
  cbn [ntt_stages].
  destruct (Nat.ltb_spec 1 (S f)) as [_|Hbad].
  2:{ rewrite Nat.pow_succ_r' in Hf. pose proof (pow2_pos w). lia. }
  rewrite <- Hf, pow2_half.
  cbn [for_loop bind]. unfold ntt_block.
  rewrite index_Ret by (rewrite (wf_roots_len _ _ Hwf), Nat.pow_succ_r';
                        pose proof (pow2_pos w); lia).
  cbn [bind].
  pose proof (pow2_pos w) as Hw.
  destruct (2 ^ w)%nat as [|t] eqn:Ht; [lia|].
  cbn [for_loop]. unfold ntt_butterfly.
  unfold Deg in Hv.
  rewrite index_Ret by (pose proof (pow2_pos v); lia). cbn [bind].
  unfold index at 1.
  replace (nth_error (Coeffs x) (2 * 0 * S t + S t)) with (@None Z).
  - reflexivity.
  - symmetry. apply nth_error_None. lia.
Qed.

Lemma Multiplier_Mul_short_panics_witness :
  Multiplier_Mul mul_2_5 (mkPolynomial [3]) (mkPolynomial [4]) = Panic "index out of range".
Proof.
  exact (Multiplier_Mul_short_panics [4; 3] 2 5 mul_2_5 (mkPolynomial [3]) (mkPolynomial [4])
           NewMultiplier_2_5 eq_refl eq_refl (le_n 2)).
Defined.

(** ** Sums and differences *)

(** A loop that combines two slices entry by entry. *)
Lemma zip_loop (body : nat -> list Z -> outcome (list Z)) (f : Z -> Z -> Z)
      (p q : list Z) (w : nat) :
  length p = (2 ^ w)%nat -> length q = (2 ^ w)%nat ->
  (forall i c, (i < 2 ^ w)%nat -> length c = (2 ^ w)%nat ->
     body i c = Ret (upd c i (f (nth i p 0) (nth i q 0)))) ->
  (result <- NewPolynomial (length p) ;;
   c <- for_loop (Deg result) 0 body (Coeffs result) ;;
   Ret (mkPolynomial c)) =
  Ret (mkPolynomial (map (fun i => f (nth i p 0) (nth i q 0)) (seq 0 (length p)))).
Proof.
  intros Hp Hq Hbody. rewrite Hp, NewPolynomial_pow2. cbn [bind Coeffs].
  unfold Deg. cbn [Coeffs]. rewrite repeat_length.
  rewrite (fill_loop _ (fun i => f (nth i p 0) (nth i q 0)) (2 ^ w)%nat);
    [reflexivity | apply repeat_length | exact Hbody].
Qed.

Lemma Sub_spec (p q : Polynomial) (w : nat) :
  Deg p = (2 ^ w)%nat -> Deg q = (2 ^ w)%nat ->
  Sub p q = Ret (mkPolynomial (map (fun i => nth i (Coeffs p) 0 - nth i (Coeffs q) 0)
                                   (seq 0 (Deg p)))).
Proof.
  intros Hp Hq. unfold Sub. rewrite Hp, Hq, Nat.eqb_refl. cbn [negb].
  rewrite <- Hp. unfold Deg in Hp, Hq.
  apply (zip_loop _ Z.sub (Coeffs p) (Coeffs q) w Hp Hq).
  intros i c Hi Hc. unfold sub_step.
  rewrite !index_Ret by lia. cbn [bind]. now rewrite store_Ret by lia.
Qed.

Lemma addPolPol_spec (p q : Polynomial) (w : nat) :
  Deg p = (2 ^ w)%nat -> Deg q = (2 ^ w)%nat ->
  addPolPol p q = Ret (mkPolynomial (map (fun i => nth i (Coeffs p) 0 + nth i (Coeffs q) 0)
                                         (seq 0 (Deg p)))).
Proof.
  intros Hp Hq. unfold addPolPol. rewrite Hp, Hq, Nat.eqb_refl. cbn [negb].
  rewrite <- Hp. unfold Deg in Hp, Hq.
  apply (zip_loop _ Z.add (Coeffs p) (Coeffs q) w Hp Hq).
  intros i c Hi Hc. unfold addPolPol_step.
  rewrite !index_Ret by lia. cbn [bind]. now rewrite store_Ret by lia.
Qed.

Lemma addPolVec_spec (p : Polynomial) (v : Vector) (w : nat) :
  Deg p = (2 ^ w)%nat -> Vector_Len v = (2 ^ w)%nat ->
  addPolVec p v = Ret (mkPolynomial (map (fun i => nth i (Coeffs p) 0
                                                   + nth i (Vector_Coeffs v) 0)
                                         (seq 0 (Deg p)))).
Proof.
  intros Hp Hq. unfold addPolVec. rewrite Hp, Hq, Nat.eqb_refl. cbn [negb].
  rewrite <- Hp. unfold Deg in Hp. unfold Vector_Len in Hq.
  apply (zip_loop _ Z.add (Coeffs p) (Vector_Coeffs v) w Hp Hq).
  intros i c Hi Hc. unfold addPolVec_step.
  rewrite !index_Ret by lia. cbn [bind]. now rewrite store_Ret by lia.
Qed.

(** X12 ([Sub]): [Sub(p, q)] returns exactly when [p] and [q] have the same
    power-of-two length (the check is made by [NewPolynomial]), and what it
    returns is the coefficient-wise difference. *)
Theorem Sub_returns_iff (p q r : Polynomial) :
  Sub p q = Ret r <->
  Deg p = Deg q /\ isPowerOfTwo (Deg p) = true /\
  r = mkPolynomial (map (fun i => nth i (Coeffs p) 0 - nth i (Coeffs q) 0)
                        (seq 0 (Deg p))).
Proof.
  split.
  - intros H.
    assert (Hpq : Deg p = Deg q /\ isPowerOfTwo (Deg p) = true).
    { unfold Sub, NewPolynomial in H.
      destruct (Nat.eqb_spec (Deg p) (Deg q)); [|discriminate].
      destruct (isPowerOfTwo (Deg p)); [auto|discriminate]. }
    destruct Hpq as [Hpq Hpow]. split; [exact Hpq|]. split; [exact Hpow|].
    apply isPowerOfTwo_spec in Hpow. destruct Hpow as [w Hw].
    rewrite (Sub_spec p q w Hw ltac:(congruence)) in H. now injection H.
  - intros (Hpq & Hpow & ->).
    apply isPowerOfTwo_spec in Hpow. destruct Hpow as [w Hw].
    apply (Sub_spec p q w Hw). congruence.
Qed.

(** X13 ([Add], [addPolPol], [addPolVec]): [Add(p, q)] returns exactly when
    [p] is a polynomial of power-of-two length and [q] is a polynomial or a
    vector of the same length, and what it returns is the coefficient-wise
    sum.  In particular a vector is never accepted as the first operand:
    [Add(v, p)] panics where [Add(p, v)] returns. *)
Theorem Add_returns_iff (p q : operand) (r : Polynomial) :
  Add p q = Ret r <->
  exists pPol, p = OpPolynomial pPol /\ isPowerOfTwo (Deg pPol) = true /\
    exists c, length c = Deg pPol /\
      (q = OpPolynomial (mkPolynomial c) \/ q = OpVector (mkVector c)) /\
      r = mkPolynomial (map (fun i => nth i (Coeffs pPol) 0 + nth i c 0)
                            (seq 0 (Deg pPol))).
Proof.
  split.
  - destruct p as [pPol|pVec|]; cbn [Add asPolynomial asVector];
      [|destruct q; discriminate|destruct q; discriminate].
    intros H. exists pPol. split; [reflexivity|].
    destruct q as [[c]|[c]|]; cbn [asPolynomial asVector] in H; [| |discriminate].
    + assert (Hpq : Deg pPol = length c /\ isPowerOfTwo (Deg pPol) = true).
      { unfold addPolPol, NewPolynomial in H.
        destruct (Nat.eqb_spec (Deg pPol) (Deg (mkPolynomial c))) as [E|]; [|discriminate].
        destruct (isPowerOfTwo (Deg pPol)); [auto|discriminate]. }
      destruct Hpq as [Hpq Hpow]. split; [exact Hpow|].
      exists c. split; [auto|]. split; [auto|].
      apply isPowerOfTwo_spec in Hpow. destruct Hpow as [w Hw].
      rewrite (addPolPol_spec pPol (mkPolynomial c) w Hw) in H
        by (unfold Deg; cbn [Coeffs]; congruence).
      now injection H.
    + assert (Hpq : Deg pPol = length c /\ isPowerOfTwo (Deg pPol) = true).
      { unfold addPolVec, NewPolynomial in H.
        destruct (Nat.eqb_spec (Deg pPol) (Vector_Len (mkVector c))) as [E|]; [|discriminate].
        destruct (isPowerOfTwo (Deg pPol)); [auto|discriminate]. }
      destruct Hpq as [Hpq Hpow]. split; [exact Hpow|].
      exists c. split; [auto|]. split; [auto|].
      apply isPowerOfTwo_spec in Hpow. destruct Hpow as [w Hw].
      rewrite (addPolVec_spec pPol (mkVector c) w Hw) in H
        by (unfold Vector_Len; cbn [Vector_Coeffs]; congruence).
      now injection H.
  - intros (pPol & -> & Hpow & c & Hc & [-> | ->] & ->);
      apply isPowerOfTwo_spec in Hpow; destruct Hpow as [w Hw];
      cbn [Add asPolynomial asVector].
    + apply (addPolPol_spec pPol (mkPolynomial c) w Hw).
      unfold Deg. cbn [Coeffs]. congruence.
    + apply (addPolVec_spec pPol (mkVector c) w Hw).
      unfold Vector_Len. cbn [Vector_Coeffs]. congruence.
Qed.

Lemma pointwise_cancel (f g : Z -> Z -> Z) (p q : list Z) :
  length p = length q ->
  (forall a b, g (f a b) b = a) ->
  map (fun i => g (nth i (map (fun j => f (nth j p 0) (nth j q 0)) (seq 0 (length p))) 0)
                  (nth i q 0))
      (seq 0 (length p)) = p.
Proof.
  intros HL Hfg. apply (nth_ext _ _ 0 0).
  - now rewrite length_map, length_seq.
  - intros i Hi. rewrite length_map, length_seq in Hi.
    rewrite nth_map_seq by lia. rewrite nth_map_seq by lia. apply Hfg.
Qed.

Lemma Add_Sub_inverse (p q : Polynomial) :
  (forall d, Sub p q = Ret d -> Add (OpPolynomial d) (OpPolynomial q) = Ret p) /\
  (forall s, Add (OpPolynomial p) (OpPolynomial q) = Ret s -> Sub s q = Ret p).
Proof.
  split.
  - intros d H.
    assert (Hpq : Deg p = Deg q /\ isPowerOfTwo (Deg p) = true).
    { unfold Sub, NewPolynomial in H.
      destruct (Nat.eqb_spec (Deg p) (Deg q)); [|discriminate].
      destruct (isPowerOfTwo (Deg p)); [auto|discriminate]. }
    destruct Hpq as [Hpq Hpow].
    apply isPowerOfTwo_spec in Hpow. destruct Hpow as [w Hw].
    rewrite (Sub_spec p q w Hw ltac:(congruence)) in H. injection H as <-.
    cbn [Add asPolynomial].
    rewrite (addPolPol_spec _ q w).
    + unfold Deg. cbn [Coeffs]. rewrite length_map, length_seq.
      destruct p as [cp]. do 2 f_equal. cbn [Coeffs].
      apply (pointwise_cancel Z.sub Z.add cp (Coeffs q)); [exact Hpq | intros; ring].
    + unfold Deg. cbn [Coeffs]. now rewrite length_map, length_seq.
    + congruence.
  - intros s H. cbn [Add asPolynomial] in H.
    assert (Hpq : Deg p = Deg q /\ isPowerOfTwo (Deg p) = true).
    { unfold addPolPol, NewPolynomial in H.
      destruct (Nat.eqb_spec (Deg p) (Deg q)); [|discriminate].
      destruct (isPowerOfTwo (Deg p)); [auto|discriminate]. }
    destruct Hpq as [Hpq Hpow].
    apply isPowerOfTwo_spec in Hpow. destruct Hpow as [w Hw].
    rewrite (addPolPol_spec p q w Hw ltac:(congruence)) in H. injection H as <-.
    rewrite (Sub_spec _ q w).
    + unfold Deg. cbn [Coeffs]. rewrite length_map, length_seq.
      destruct p as [cp]. do 2 f_equal. cbn [Coeffs].
      apply (pointwise_cancel Z.add Z.sub cp (Coeffs q)); [exact Hpq | intros; ring].
    + unfold Deg. cbn [Coeffs]. now rewrite length_map, length_seq.
    + congruence.
Qed.

(** X14 ([Sub], [Add]): addition and subtraction undo each other:
    [Sub(p, q)] returns [d] exactly when [Add(d, q)] returns [p]. *)
Theorem Add_Sub_roundtrip (p q d : Polynomial) :
  Sub p q = Ret d <-> Add (OpPolynomial d) (OpPolynomial q) = Ret p.
Proof.
  split.
  - apply (proj1 (Add_Sub_inverse p q)).
  - apply (proj2 (Add_Sub_inverse d q)).
Qed.

(** X15 ([Sub], [Add], [Negate]): on operands of equal length, subtracting
    [q] is adding [q.Negate()], also when that length is not a power of two
    and both calls panic in [NewPolynomial]. *)
Theorem Sub_is_Add_Negate (p q : Polynomial) :
  Deg p = Deg q ->
  Sub p q = Add (OpPolynomial p) (OpPolynomial (Negate q)).
Proof.
  intros Hpq. cbn [Add asPolynomial].
  assert (HNq : Deg (Negate q) = Deg q).
  { unfold Deg, Negate. cbn [Coeffs]. apply length_map. }
  destruct (isPowerOfTwo (Deg p)) eqn:Hpow.
  - apply isPowerOfTwo_spec in Hpow. destruct Hpow as [w Hw].
    rewrite (Sub_spec p q w Hw ltac:(congruence)).
    rewrite (addPolPol_spec p (Negate q) w Hw ltac:(congruence)).
    do 2 f_equal. apply map_ext_in. intros i Hi. apply in_seq in Hi.
    unfold Negate. cbn [Coeffs].
    rewrite nth_map_Z by (unfold Deg in *; lia). ring.
  - unfold Sub, addPolPol, NewPolynomial.
    rewrite HNq, Hpq, Nat.eqb_refl. cbn [negb]. rewrite <- Hpq, Hpow. reflexivity.
Qed.

Lemma Sub_is_Add_Negate_witness :
  Sub (mkPolynomial [7; -3]) (mkPolynomial [2; 12]) =
  Add (OpPolynomial (mkPolynomial [7; -3])) (OpPolynomial (Negate (mkPolynomial [2; 12]))).
Proof.
  exact (Sub_is_Add_Negate (mkPolynomial [7; -3]) (mkPolynomial [2; 12]) eq_refl).
Defined.

(** ** [Multiplier.Mul] is linear *)

Lemma tconv_linear (n : nat) (r c : Z) (a a' b : nat -> Z) (k : nat) :
  tconv n r (fun i => a i + c * a' i) b k = tconv n r a b k + c * tconv n r a' b k.
Proof.
  unfold tconv. rewrite dsum_lin.
  apply sumZ_ext. intros i _. apply sumZ_ext. intros j _. ring.
Qed.

(** X16 ([Multiplier.Mul], [Add], [Scale]): the product is linear in its
    first operand.  With [s = Add(x, c * x')], the coefficients of
    [Mul(s, y)] are those of [Mul(x, y) + c * Mul(x', y)] reduced into
    [[0, q)]. *)
Theorem Multiplier_Mul_linear (cands : list Z) (n : nat) (q : Z) (mul : Multiplier)
        (x x' y : Polynomial) (c : Z) :
  NewMultiplier cands n q = Ret mul -> Deg x = n -> Deg x' = n -> Deg y = n ->
  exists s a b r,
    Add (OpPolynomial x) (OpPolynomial (Scale x' c)) = Ret s /\
    Multiplier_Mul mul x y = Ret a /\
    Multiplier_Mul mul x' y = Ret b /\
    Multiplier_Mul mul s y = Ret r /\
    Coeffs r = map (fun i => (nth i (Coeffs a) 0 + c * nth i (Coeffs b) 0) mod q)
                   (seq 0 n).
Proof.
  intros Hnew Hx Hx' Hy.
  destruct (NewMultiplier_Ret _ _ _ _ Hnew) as (HN & HM & w & Hwf).
  assert (Hn : n = (2 ^ w)%nat) by (rewrite <- HN; apply (wf_N _ _ Hwf)).
  assert (Hsc : Deg (Scale x' c) = n).
  { unfold Deg, Scale in *. cbn [Coeffs]. now rewrite length_map. }
  cbn [Add asPolynomial].
  rewrite (addPolPol_spec x (Scale x' c) w) by congruence.
  set (s := mkPolynomial _).
  assert (Hs : Deg s = n).
  { unfold Deg, s. cbn [Coeffs]. rewrite length_map, length_seq. exact Hx. }
  exists s.
  rewrite (Multiplier_Mul_spec cands n q mul x y Hnew Hx Hy).
  rewrite (Multiplier_Mul_spec cands n q mul x' y Hnew Hx' Hy).
  rewrite (Multiplier_Mul_spec cands n q mul s y Hnew Hs Hy).
  do 3 eexists. repeat (split; [reflexivity|]). cbn [Coeffs].
  unfold Deg in Hx, Hx', Hy, Hs.
  apply (nth_ext _ _ 0 0).
  - now rewrite !length_map, length_seq, length_reference_convolution.
  - intros k Hk. rewrite length_map, length_reference_convolution in Hk.
    rewrite nth_map_Z by (rewrite length_reference_convolution; lia).
    rewrite nth_map_seq by lia.
    rewrite !nth_map_Z by (rewrite length_reference_convolution; lia).
    rewrite !nth_reference_convolution by lia.
    apply (proj1 (cong_iff _ _ _)).
    rewrite !cong_mod. apply cong_eq.
    rewrite Hs, Hx, Hx'. rewrite <- tconv_linear.
    apply tconv_ext; [|reflexivity].
    intros i Hi. unfold s. cbn [Coeffs]. unfold Deg. rewrite Hx.
    rewrite nth_map_seq by lia. unfold Scale. cbn [Coeffs].
    rewrite nth_map_Z by lia. ring.
Qed.

Lemma Multiplier_Mul_linear_witness :
  exists s a b r,
    Add (OpPolynomial (mkPolynomial [3; 4]))
        (OpPolynomial (Scale (mkPolynomial [1; 1]) 2)) = Ret s /\
    Multiplier_Mul mul_2_5 (mkPolynomial [3; 4]) (mkPolynomial [1; 2]) = Ret a /\
    Multiplier_Mul mul_2_5 (mkPolynomial [1; 1]) (mkPolynomial [1; 2]) = Ret b /\
    Multiplier_Mul mul_2_5 s (mkPolynomial [1; 2]) = Ret r /\
    Coeffs r = map (fun i => (nth i (Coeffs a) 0 + 2 * nth i (Coeffs b) 0) mod 5)
                   (seq 0 2).
Proof.
  exact (Multiplier_Mul_linear [4; 3] 2 5 mul_2_5 (mkPolynomial [3; 4]) (mkPolynomial [1; 1])
           (mkPolynomial [1; 2]) 2 NewMultiplier_2_5 eq_refl eq_refl eq_refl).
Defined.

(** ** [MulSimple] *)

(** A loop that adds, modulo [M], the term [f j k] to entry [k] at its
    iteration [j], and keeps every entry in [P]. *)
Lemma sum_loop (M : Z) (P : Z -> Prop) (n cnt : nat) (f : nat -> nat -> Z)
      (body : nat -> list Z -> outcome (list Z)) :
  (forall j res, (j < cnt)%nat -> length res = n ->
     (forall k, (k < n)%nat -> P (nth k res 0)) ->
     exists res', body j res = Ret res' /\ length res' = n /\
       (forall k, (k < n)%nat -> P (nth k res' 0)) /\
       forall k, (k < n)%nat -> cong M (nth k res' 0) (nth k res 0 + f j k)) ->
  forall res0, length res0 = n -> (forall k, (k < n)%nat -> P (nth k res0 0)) ->
  exists res, for_loop cnt 0 body res0 = Ret res /\ length res = n /\
    (forall k, (k < n)%nat -> P (nth k res 0)) /\
    forall k, (k < n)%nat ->
      cong M (nth k res 0) (nth k res0 0 + sumZ cnt (fun j => f j k)).
Proof.
  intros Hbody res0 HL0 HP0.
  apply (for_loop_inv
    (fun c res => length res = n /\
       (forall k, (k < n)%nat -> P (nth k res 0)) /\
       forall k, (k < n)%nat ->
         cong M (nth k res 0) (nth k res0 0 + sumZ c (fun j => f j k)))).
  - split; [exact HL0|]. split; [exact HP0|].
    intros k Hk. cbn [sumZ]. apply cong_eq. ring.
  - intros c res Hc (HL & HP & Hsum). rewrite Nat.add_0_l.
    destruct (Hbody c res Hc HL HP) as (res' & E & HL' & HP' & Hstep).
    exists res'. split; [exact E|]. split; [exact HL'|]. split; [exact HP'|].
    intros k Hk. rewrite (Hstep k Hk), (Hsum k Hk). cbn [sumZ].
    apply cong_eq. ring.
Qed.

(** The term that the pair [(i, j)] contributes to coefficient [k]. *)
Lemma nth_upd_kappa_lo (n i j k : nat) (res : list Z) (v t : Z) :
  (i + j < n)%nat -> (k < n)%nat -> length res = n ->
  forall M, cong M v (nth (i + j) res 0 + t) ->
  cong M (nth k (upd res (i + j) v) 0) (nth k res 0 + t * kappa n (-1) (i + j) k).
Proof.
  intros Hij Hk HL M Hv. unfold kappa.
  destruct (Nat.eqb_spec (i + j) k) as [<-|Hne].
  - rewrite nth_upd_eq by lia. rewrite Hv. apply cong_eq. ring.
  - rewrite nth_upd_ne by lia. case_eqb. apply cong_eq. ring.
Qed.

Lemma nth_upd_kappa_hi (n i j k : nat) (res : list Z) (v t : Z) :
  (i < n)%nat -> (j < n)%nat -> (n <= i + j)%nat -> (k < n)%nat -> length res = n ->
  forall M, cong M v (nth (i + j - n) res 0 - t) ->
  cong M (nth k (upd res (i + j - n) v) 0) (nth k res 0 + t * kappa n (-1) (i + j) k).
Proof.
  intros Hi Hj Hij Hk HL M Hv. unfold kappa.
  destruct (Nat.eq_dec (i + j - n) k) as [<-|Hne].
  - rewrite nth_upd_eq by lia. rewrite Hv. case_eqb. apply cong_eq. ring.
  - rewrite nth_upd_ne by lia. case_eqb. apply cong_eq. ring.
Qed.

Lemma P_upd (P : Z -> Prop) (n idx : nat) (res : list Z) (v : Z) :
  P v -> (forall k, (k < n)%nat -> P (nth k res 0)) ->
  forall k, (k < n)%nat -> P (nth k (upd res idx v) 0).
Proof.
  intros Hv HP k Hk. destruct (Nat.eq_dec k idx) as [->|Hne].
  - destruct (Nat.lt_ge_cases idx (length res)).
    + now rewrite nth_upd_eq.
    + assert (E : upd res idx v = res).
      { clear -H. revert idx H. induction res as [|a res IH]; intros [|idx] H;
          cbn in *; try reflexivity; try lia. f_equal. apply IH. lia. }
      rewrite E. now apply HP.
  - rewrite nth_upd_ne by lia. now apply HP.
Qed.

(** *** Machine integers *)

Lemma wrap_int_range (z : Z) : int_range (wrap_int z).
Proof.
  unfold int_range, wrap_int.
  pose proof (Z.mod_pos_bound (z + 2 ^ 63) (2 ^ 64) ltac:(lia)). lia.
Qed.

Lemma wrap_int_cong (z : Z) : cong (2 ^ 64) (wrap_int z) z.
Proof.
  unfold wrap_int.
  transitivity ((z + 2 ^ 63) - 2 ^ 63); [|apply cong_eq; ring].
  now rewrite cong_mod.
Qed.

Lemma wrap_int_id (z : Z) : int_range z -> wrap_int z = z.
Proof.
  unfold int_range, wrap_int. intros H. rewrite Z.mod_small by lia. ring.
Qed.

Lemma wrap_int_unique (a b : Z) :
  int_range a -> cong (2 ^ 64) a b -> a = wrap_int b.
Proof.
  intros Ha Hab. rewrite <- (wrap_int_id a Ha). unfold wrap_int.
  f_equal. apply (proj1 (cong_iff _ _ _)). now rewrite Hab.
Qed.

(** *** Two vectors *)

Lemma terVec_step_spec (n : nat) (xi yj : Z) (i j : nat) (res : list Z) :
  (i < n)%nat -> (j < n)%nat -> length res = n ->
  (forall k, (k < n)%nat -> int_range (nth k res 0)) ->
  exists res', terVec_step n xi yj i j res = Ret res' /\ length res' = n /\
    (forall k, (k < n)%nat -> int_range (nth k res' 0)) /\
    forall k, (k < n)%nat ->
      cong (2 ^ 64) (nth k res' 0) (nth k res 0 + xi * yj * kappa n (-1) (i + j) k).
Proof.
  intros Hi Hj HL HP. unfold terVec_step.
  destruct (Nat.ltb_spec (i + j) n) as [Hlt|Hge].
  - rewrite index_Ret by lia. cbn [bind]. rewrite store_Ret by lia.
    eexists. split; [reflexivity|]. split; [now rewrite length_upd|]. split.
    + apply P_upd; [apply wrap_int_range | exact HP].
    + intros k Hk. apply nth_upd_kappa_lo; try assumption.
      now rewrite !wrap_int_cong.
  - rewrite index_Ret by lia. cbn [bind]. rewrite store_Ret by lia.
    eexists. split; [reflexivity|]. split; [now rewrite length_upd|]. split.
    + apply P_upd; [apply wrap_int_range | exact HP].
    + intros k Hk. apply nth_upd_kappa_hi; try assumption.
      now rewrite !wrap_int_cong.
Qed.

Lemma cycMulNaiveTerVecTerVec_spec (x y : Vector) :
  Vector_Len x = Vector_Len y ->
  cycMulNaiveTerVecTerVec x y =
  Ret (mkPolynomial (map wrap_int
                         (reference_convolution (Vector_Coeffs x) (Vector_Coeffs y)))).
Proof.
  intros HL. unfold cycMulNaiveTerVecTerVec. rewrite HL, Nat.eqb_refl. cbn [negb].
  rewrite <- HL. unfold Vector_Len in *. cbn [NewVector Vector_Coeffs].
  set (n := length (Vector_Coeffs x)) in *.
  destruct (sum_loop (2 ^ 64) int_range n n
              (fun i k => sumZ n (fun j => nth i (Vector_Coeffs x) 0
                                         * nth j (Vector_Coeffs y) 0
                                         * kappa n (-1) (i + j) k))
              (terVec_row n (Vector_Coeffs x) (Vector_Coeffs y)))
    with (res0 := repeat 0 n) as (res & E & HLr & HP & Hsum).
  - intros i res Hi HLr HP. unfold terVec_row.
    rewrite index_Ret by (fold n; lia). cbn [bind]. rewrite <- HL.
    apply (sum_loop (2 ^ 64) int_range n n
             (fun j k => nth i (Vector_Coeffs x) 0 * nth j (Vector_Coeffs y) 0
                         * kappa n (-1) (i + j) k)); try assumption.
    intros j res1 Hj HL1 HP1. rewrite index_Ret by lia. cbn [bind].
    now apply terVec_step_spec.
  - apply repeat_length.
  - intros k Hk. rewrite nth_repeat_lt by lia. unfold int_range. lia.
  - rewrite E. cbn [bind]. unfold Vector_Polynomial. cbn [Vector_Coeffs].
    rewrite map_id. apply (f_equal (fun c => Ret (mkPolynomial c))).
    apply (nth_ext _ _ 0 0).
    + now rewrite length_map, length_reference_convolution.
    + intros k Hk. rewrite HLr in Hk.
      rewrite nth_map_Z by (rewrite length_reference_convolution; fold n; lia).
      rewrite nth_reference_convolution by (fold n; lia).
      apply wrap_int_unique; [now apply HP|].
      rewrite (Hsum k Hk). rewrite nth_repeat_lt by lia.
      apply cong_eq. fold n. unfold tconv. ring.
Qed.

(** X17 ([MulSimple], [cycMulNaiveTerVecTerVec]): on two vectors of the same
    length, of any length, [MulSimple] returns for every coefficient the
    value of the negacyclic convolution wrapped around to 64 bits: the sums
    are accumulated in machine integers. *)
Theorem MulSimple_vectors (x y : Vector) :
  Vector_Len x = Vector_Len y ->
  MulSimple (OpVector x) (OpVector y) =
  Ret (mkPolynomial (map wrap_int
                         (reference_convolution (Vector_Coeffs x) (Vector_Coeffs y)))).
Proof. intros HL. cbn [MulSimple asPolynomial asVector]. now apply cycMulNaiveTerVecTerVec_spec. Qed.

Lemma MulSimple_vectors_witness :
  MulSimple (OpVector (mkVector [1; 0; -1])) (OpVector (mkVector [0; 1; 1])) =
  Ret (mkPolynomial (map wrap_int
         (reference_convolution (Vector_Coeffs (mkVector [1; 0; -1]))
                                (Vector_Coeffs (mkVector [0; 1; 1]))))).
Proof. exact (MulSimple_vectors (mkVector [1; 0; -1]) (mkVector [0; 1; 1]) eq_refl). Defined.

Lemma cycMulNaiveTerVecTerVec_exact (x y : Vector) (X Y : Z) :
  Vector_Len x = Vector_Len y ->
  Forall (fun c => Z.abs c <= X) (Vector_Coeffs x) ->
  Forall (fun c => Z.abs c <= Y) (Vector_Coeffs y) ->
  Z.of_nat (Vector_Len x) * (X * Y) < 2 ^ 63 ->
  cycMulNaiveTerVecTerVec x y =
  Ret (mkPolynomial (reference_convolution (Vector_Coeffs x) (Vector_Coeffs y))).
Proof.
  intros HL HX HY Hb.
  rewrite (cycMulNaiveTerVecTerVec_spec x y HL). do 2 f_equal.
  unfold Vector_Len in *.
  transitivity (map (fun c : Z => c)
                    (reference_convolution (Vector_Coeffs x) (Vector_Coeffs y)));
    [|apply map_id].
  apply map_ext_in. intros c Hc.
  destruct (In_nth _ _ 0 Hc) as (k & Hk & <-).
  rewrite length_reference_convolution in Hk.
  apply wrap_int_id.
  rewrite nth_reference_convolution by exact Hk.
  assert (Hbound : Z.abs (tconv (length (Vector_Coeffs x)) (-1)
                            (fun i => nth i (Vector_Coeffs x) 0)
                            (fun j => nth j (Vector_Coeffs y) 0) k)
                   <= Z.of_nat (length (Vector_Coeffs x)) * (X * Y)).
  { apply tconv_bound; [exact Hk| |].
    - intros i Hi. rewrite Forall_forall in HX. apply HX, nth_In. exact Hi.
    - intros j Hj. rewrite Forall_forall in HY. apply HY, nth_In. lia. }
  unfold int_range. lia.
Qed.

(** X18 ([MulSimple], [cycMulNaiveTerVecTerVec]): when the entries of [x] and
    [y] are bounded by [X] and [Y] with [n * X * Y < 2^63], nothing
    overflows and the result is the negacyclic convolution itself.  This is
    so for all ternary vectors. *)
Theorem MulSimple_vectors_exact (x y : Vector) (X Y : Z) :
  Vector_Len x = Vector_Len y ->
  Forall (fun c => Z.abs c <= X) (Vector_Coeffs x) ->
  Forall (fun c => Z.abs c <= Y) (Vector_Coeffs y) ->
  Z.of_nat (Vector_Len x) * (X * Y) < 2 ^ 63 ->
  MulSimple (OpVector x) (OpVector y) =
  Ret (mkPolynomial (reference_convolution (Vector_Coeffs x) (Vector_Coeffs y))).
Proof.
  intros HL HX HY Hb. cbn [MulSimple asPolynomial asVector].
  now apply (cycMulNaiveTerVecTerVec_exact x y X Y).
Qed.

Lemma MulSimple_vectors_exact_witness :
  MulSimple (OpVector (mkVector [1; 0; -1])) (OpVector (mkVector [0; 1; 1])) =
  Ret (mkPolynomial (reference_convolution (Vector_Coeffs (mkVector [1; 0; -1]))
                                           (Vector_Coeffs (mkVector [0; 1; 1])))).
Proof.
  apply (MulSimple_vectors_exact (mkVector [1; 0; -1]) (mkVector [0; 1; 1]) 1 1).
  - reflexivity.
  - repeat constructor; cbn; lia.
  - repeat constructor; cbn; lia.
  - reflexivity.
Defined.

(** *** A polynomial and a vector *)

(** How [cycMulNaivePolTerVec] reads an entry of the vector: [0] is skipped,
    [-1] negates, and every other value is taken for [+1]. *)
Definition as_ternary (c : Z) : Z :=
  if c =? 0 then 0 else if c =? -1 then -1 else 1.

Definition ternary (c : Z) : Prop := c = -1 \/ c = 0 \/ c = 1.

Lemma as_ternary_id (c : Z) : ternary c -> as_ternary c = c.
Proof. intros [-> | [-> | ->]]; reflexivity. Qed.

Lemma map_as_ternary_id (v : list Z) : Forall ternary v -> map as_ternary v = v.
Proof.
  induction 1 as [|c v Hc _ IH]; cbn [map]; [reflexivity|].
  now rewrite IH, as_ternary_id.
Qed.

Lemma cong_0 (a b : Z) : cong 0 a b -> a = b.
Proof. intros H. apply cong_iff in H. now rewrite !Z.mod_0_r in H. Qed.

Lemma polTerVec_step_spec (n : nat) (vi pj : Z) (i j : nat) (res : list Z) :
  vi <> 0 -> (i < n)%nat -> (j < n)%nat -> length res = n ->
  exists res', polTerVec_step n vi pj i j res = Ret res' /\ length res' = n /\
    (forall k, (k < n)%nat -> True) /\
    forall k, (k < n)%nat ->
      cong 0 (nth k res' 0) (nth k res 0 + as_ternary vi * pj * kappa n (-1) (i + j) k).
Proof.
  intros Hvi Hi Hj HL. unfold polTerVec_step.
  assert (Hval : (if vi =? -1 then - pj else pj) = as_ternary vi * pj).
  { unfold as_ternary. destruct (Z.eqb_spec vi 0); [contradiction|].
    destruct (vi =? -1); ring. }
  rewrite Hval.
  destruct (Nat.ltb_spec (i + j) n) as [Hlt|Hge].
  - rewrite index_Ret by lia. cbn [bind]. rewrite store_Ret by lia.
    eexists. split; [reflexivity|]. split; [now rewrite length_upd|]. split; [auto|].
    intros k Hk. apply nth_upd_kappa_lo; try assumption. reflexivity.
  - rewrite index_Ret by lia. cbn [bind]. rewrite store_Ret by lia.
    eexists. split; [reflexivity|]. split; [now rewrite length_upd|]. split; [auto|].
    intros k Hk. apply nth_upd_kappa_hi; try assumption. reflexivity.
Qed.

Lemma cycMulNaivePolTerVec_spec (p : Polynomial) (v : Vector) :
  Deg p = Vector_Len v ->
  cycMulNaivePolTerVec p v =
  Ret (mkPolynomial (reference_convolution (map as_ternary (Vector_Coeffs v)) (Coeffs p))).
Proof.
  intros HL. unfold cycMulNaivePolTerVec. rewrite HL, Nat.eqb_refl. cbn [negb].
  unfold Vector_Len, Deg in *.
  set (n := length (Vector_Coeffs v)) in *.
  destruct (sum_loop 0 (fun _ => True) n n
              (fun i k => sumZ n (fun j => as_ternary (nth i (Vector_Coeffs v) 0)
                                         * nth j (Coeffs p) 0
                                         * kappa n (-1) (i + j) k))
              (polTerVec_row n (Coeffs p) (Vector_Coeffs v)))
    with (res0 := repeat 0 n) as (res & E & HLr & _ & Hsum).
  - intros i res Hi HLr _. unfold polTerVec_row.
    rewrite index_Ret by (fold n; lia). cbn [bind].
    destruct (Z.eqb_spec (nth i (Vector_Coeffs v) 0) 0) as [Hz|Hnz].
    + exists res. split; [reflexivity|]. split; [exact HLr|]. split; [auto|].
      intros k Hk. rewrite Hz. cbn [as_ternary Z.eqb].
      rewrite sumZ_zero by (intros; ring). apply cong_eq. ring.
    + rewrite HL.
      apply (sum_loop 0 (fun _ => True) n n
               (fun j k => as_ternary (nth i (Vector_Coeffs v) 0) * nth j (Coeffs p) 0
                           * kappa n (-1) (i + j) k)); try assumption; [|auto].
      intros j res1 Hj HL1 _. rewrite index_Ret by lia. cbn [bind].
      now apply polTerVec_step_spec.
  - apply repeat_length.
  - auto.
  - rewrite E. cbn [bind]. do 2 f_equal.
    apply (nth_ext _ _ 0 0).
    + now rewrite length_reference_convolution, length_map.
    + intros k Hk. rewrite HLr in Hk.
      rewrite nth_reference_convolution by (rewrite length_map; fold n; lia).
      rewrite length_map. fold n.
      apply cong_0. rewrite (Hsum k Hk). rewrite nth_repeat_lt by lia.
      apply cong_eq. unfold tconv. rewrite Z.add_0_l.
      apply sumZ_ext. intros i Hi. apply sumZ_ext. intros j Hj.
      now rewrite nth_map_Z by (fold n; lia).
Qed.

(** X19 ([MulSimple], [cycMulNaivePolTerVec]): on a polynomial [p] and a
    vector [v] of the same length, of any length, [MulSimple] returns the
    negacyclic convolution of [p] with the vector [v] read as ternary:
    every entry of [v] other than [0] and [-1] counts as [+1]. *)
Theorem MulSimple_polynomial_vector (p : Polynomial) (v : Vector) :
  Deg p = Vector_Len v ->
  MulSimple (OpPolynomial p) (OpVector v) =
  Ret (mkPolynomial (reference_convolution (map as_ternary (Vector_Coeffs v)) (Coeffs p))).
Proof.
  intros HL. cbn [MulSimple asPolynomial asVector]. now apply cycMulNaivePolTerVec_spec.
Qed.

Lemma MulSimple_polynomial_vector_witness :
  MulSimple (OpPolynomial (mkPolynomial [5; 7; -2])) (OpVector (mkVector [0; -1; 4])) =
  Ret (mkPolynomial (reference_convolution
                       (map as_ternary (Vector_Coeffs (mkVector [0; -1; 4])))
                       (Coeffs (mkPolynomial [5; 7; -2])))).
Proof.
  exact (MulSimple_polynomial_vector (mkPolynomial [5; 7; -2]) (mkVector [0; -1; 4]) eq_refl).
Defined.

(** X20 ([MulSimple]): [MulSimple(p, q)] returns exactly when [q] is a
    vector and [p] is a polynomial or a vector of the same length as [q].
    It never accepts a polynomial as its second operand, and it does not
    ask for a power-of-two length. *)
Theorem MulSimple_returns_iff (p q : operand) :
  (exists r, MulSimple p q = Ret r) <->
  exists v, q = OpVector v /\
    ((exists pPol, p = OpPolynomial pPol /\ Deg pPol = Vector_Len v) \/
     (exists pVec, p = OpVector pVec /\ Vector_Len pVec = Vector_Len v)).
Proof.
  split.
  - intros [r H].
    destruct q as [qPol|v|]; [destruct p; discriminate| |destruct p; discriminate].
    exists v. split; [reflexivity|].
    destruct p as [pPol|pVec|]; cbn [MulSimple asPolynomial asVector] in H;
      [left|right|discriminate].
    + exists pPol. split; [reflexivity|]. unfold cycMulNaivePolTerVec in H.
      destruct (Nat.eqb_spec (Deg pPol) (Vector_Len v)); [assumption|discriminate].
    + exists pVec. split; [reflexivity|]. unfold cycMulNaiveTerVecTerVec in H.
      destruct (Nat.eqb_spec (Vector_Len pVec) (Vector_Len v)); [assumption|discriminate].
  - intros (v & -> & [(pPol & -> & HL) | (pVec & -> & HL)]);
      cbn [MulSimple asPolynomial asVector].
    + rewrite (cycMulNaivePolTerVec_spec pPol v HL). eauto.
    + rewrite (cycMulNaiveTerVecTerVec_spec pVec v HL). eauto.
Qed.

(** X21 ([MulSimple], [Multiplier.Mul], [Vector.Polynomial]): on a
    polynomial and a ternary vector of length [N], [Multiplier.Mul] applied
    to the polynomial and to the vector converted by [Vector.Polynomial]
    returns the residues modulo [q] of what [MulSimple] returns. *)
Theorem MulSimple_agrees_with_Mul (cands : list Z) (n : nat) (q : Z) (mul : Multiplier)
        (p : Polynomial) (v : Vector) :
  NewMultiplier cands n q = Ret mul -> Deg p = n -> Vector_Len v = n ->
  Forall ternary (Vector_Coeffs v) ->
  exists s z,
    MulSimple (OpPolynomial p) (OpVector v) = Ret s /\
    Multiplier_Mul mul p (Vector_Polynomial v) = Ret z /\
    Coeffs z = map (fun c => c mod q) (Coeffs s).
Proof.
  intros Hnew Hp Hv Hter.
  cbn [MulSimple asPolynomial asVector].
  rewrite (cycMulNaivePolTerVec_spec p v ltac:(congruence)).
  assert (HvP : Deg (Vector_Polynomial v) = n).
  { unfold Deg, Vector_Polynomial, Vector_Len in *. cbn [Coeffs]. now rewrite length_map. }
  rewrite (Multiplier_Mul_spec cands n q mul p _ Hnew Hp HvP).
  do 2 eexists. split; [reflexivity|]. split; [reflexivity|]. cbn [Coeffs].
  unfold Vector_Polynomial. cbn [Coeffs]. rewrite map_id.
  rewrite (map_as_ternary_id _ Hter).
  rewrite reference_convolution_comm by (unfold Deg, Vector_Len in *; congruence).
  reflexivity.
Qed.

Lemma MulSimple_agrees_with_Mul_witness :
  exists s z,
    MulSimple (OpPolynomial (mkPolynomial [3; 4])) (OpVector (mkVector [1; -1])) = Ret s /\
    Multiplier_Mul mul_2_5 (mkPolynomial [3; 4]) (Vector_Polynomial (mkVector [1; -1])) = Ret z /\
    Coeffs z = map (fun c => c mod 5) (Coeffs s).
Proof.
  apply (MulSimple_agrees_with_Mul [4; 3] 2 5 mul_2_5 (mkPolynomial [3; 4]) (mkVector [1; -1])
           NewMultiplier_2_5 eq_refl eq_refl).
  repeat constructor; unfold ternary; lia.
Defined.

(** ** The assertions of the test-suite *)

Lemma cong_big_Mod (m r : Z) : m <> 0 -> cong m (big_Mod r m) r.
Proof.
  intros Hm. apply cong_divide; [exact Hm|]. unfold big_Mod.
  pose proof (Z.div_mod r (Z.abs m) ltac:(lia)) as Hdm.
  destruct (Z.abs_spec m) as [[_ Ha]|[_ Ha]]; rewrite Ha in *.
  - exists (- (r / m)). lia.
  - exists (r / - m). lia.
Qed.

Lemma naive_step_spec (n : nat) (m pi qj : Z) (i j : nat) (res : list Z) :
  m <> 0 -> (i < n)%nat -> (j < n)%nat -> length res = n ->
  exists res', naive_step n m pi qj i j res = Ret res' /\ length res' = n /\
    (forall k, (k < n)%nat -> True) /\
    forall k, (k < n)%nat ->
      cong m (nth k res' 0) (nth k res 0 + pi * qj * kappa n (-1) (i + j) k).
Proof.
  intros Hm Hi Hj HL. unfold naive_step.
  assert (Hred : forall res1 : list Z, length res1 = n ->
            (forall k, (k < n)%nat ->
               cong m (nth k res1 0) (nth k res 0 + pi * qj * kappa n (-1) (i + j) k)) ->
            exists res', (r <- index res1 i ;;
                          if m =? 0 then Panic "division by zero"
                          else store res1 i (big_Mod r m)) = Ret res' /\
              length res' = n /\ (forall k, (k < n)%nat -> True) /\
              forall k, (k < n)%nat ->
                cong m (nth k res' 0) (nth k res 0 + pi * qj * kappa n (-1) (i + j) k)).
  { intros res1 HL1 H1. rewrite index_Ret by lia. cbn [bind].
    destruct (Z.eqb_spec m 0); [contradiction|].
    rewrite store_Ret by lia.
    eexists. split; [reflexivity|]. split; [now rewrite length_upd|]. split; [auto|].
    intros k Hk. destruct (Nat.eq_dec k i) as [->|Hne].
    - rewrite nth_upd_eq by lia. rewrite cong_big_Mod by exact Hm. now apply H1.
    - rewrite nth_upd_ne by lia. now apply H1. }
  destruct (Nat.ltb_spec (i + j) n) as [Hlt|Hge].
  - rewrite index_Ret by lia. cbn [bind]. rewrite store_Ret by lia. cbn [bind].
    apply Hred; [now rewrite length_upd|].
    intros k Hk. apply nth_upd_kappa_lo; try assumption. reflexivity.
  - rewrite index_Ret by lia. cbn [bind]. rewrite store_Ret by lia. cbn [bind].
    apply Hred; [now rewrite length_upd|].
    intros k Hk. apply nth_upd_kappa_hi; try assumption. reflexivity.
Qed.

(** The oracle [naive] returns a polynomial congruent to the reference
    convolution. *)
Lemma naive_spec (p q : Polynomial) (m : Z) (w : nat) :
  m <> 0 -> Deg p = (2 ^ w)%nat -> Deg q = (2 ^ w)%nat ->
  exists r, naive p q m = Ret r /\ Deg r = Deg p /\
    forall k, (k < Deg p)%nat ->
      cong m (nth k (Coeffs r) 0)
             (nth k (reference_convolution (Coeffs p) (Coeffs q)) 0).
Proof.
  intros Hm Hp Hq. unfold naive. rewrite Hp, Hq, Nat.eqb_refl. cbn [negb].
  rewrite NewPolynomial_pow2. cbn [bind Coeffs].
  unfold Deg in *. set (n := (2 ^ w)%nat) in *.
  destruct (sum_loop m (fun _ => True) n n
              (fun i k => sumZ n (fun j => nth i (Coeffs p) 0 * nth j (Coeffs q) 0
                                         * kappa n (-1) (i + j) k))
              (naive_row n m (Coeffs p) (Coeffs q)))
    with (res0 := repeat 0 n) as (res & E & HLr & _ & Hsum).
  - intros i res Hi HLr _. unfold naive_row.
    rewrite index_Ret by lia. cbn [bind]. rewrite Hq.
    apply (sum_loop m (fun _ => True) n n
             (fun j k => nth i (Coeffs p) 0 * nth j (Coeffs q) 0
                         * kappa n (-1) (i + j) k)); try assumption; [|auto].
    intros j res1 Hj HL1 _. rewrite index_Ret by lia. cbn [bind].
    now apply naive_step_spec.
  - apply repeat_length.
  - auto.
  - rewrite E. cbn [bind]. eexists. split; [reflexivity|]. cbn [Coeffs].
    split; [lia|]. intros k Hk.
    rewrite (Hsum k ltac:(lia)). rewrite nth_repeat_lt by lia.
    rewrite nth_reference_convolution by lia. rewrite Hp.
    apply cong_eq. unfold tconv. ring.
Qed.

(** X22 ([naive], [Multiplier.Mul], [Polynomial.Mod]; the assertion of
    [testNTT12289] and [testNTTMedium]): for a multiplier built by
    [NewMultiplier] and all inputs of length [N], the oracle and
    [Multiplier.Mul] return, and after [Mod(q)] the two results are equal,
    whatever the coefficients of the inputs. *)
Theorem test_NTT_assertion (cands : list Z) (n : nat) (q : Z) (mul : Multiplier)
        (x y : Polynomial) :
  NewMultiplier cands n q = Ret mul -> Deg x = n -> Deg y = n ->
  exists nv ntt, naive x y q = Ret nv /\ Multiplier_Mul mul x y = Ret ntt /\
                 Mod_ nv q = Mod_ ntt q.
Proof.
  intros Hnew Hx Hy.
  destruct (NewMultiplier_Ret _ _ _ _ Hnew) as (HN & HM & w & Hwf).
  pose proof (wf_q_pos mul w Hwf) as Hq. rewrite HM in Hq.
  assert (Hn : n = (2 ^ w)%nat) by (rewrite <- HN; apply (wf_N _ _ Hwf)).
  destruct (naive_spec x y q w ltac:(lia) ltac:(congruence) ltac:(congruence))
    as (nv & E & HL & Hc).
  rewrite (Multiplier_Mul_spec cands n q mul x y Hnew Hx Hy).
  exists nv. eexists. split; [exact E|]. split; [reflexivity|].
  apply Mod_eq_of_cong; [exact Hq| |].
  - unfold Deg in *. cbn [Coeffs]. rewrite length_map, length_reference_convolution. lia.
  - intros k Hk. cbn [Coeffs]. rewrite (Hc k ltac:(lia)).
    rewrite nth_map_Z by (rewrite length_reference_convolution; unfold Deg in *; lia).
    now rewrite cong_mod.
Qed.

Lemma test_NTT_assertion_witness :
  exists nv ntt, naive (mkPolynomial [3; 4]) (mkPolynomial [1; 2]) 5 = Ret nv /\
                 Multiplier_Mul mul_2_5 (mkPolynomial [3; 4]) (mkPolynomial [1; 2]) = Ret ntt /\
                 Mod_ nv 5 = Mod_ ntt 5.
Proof.
  exact (test_NTT_assertion [4; 3] 2 5 mul_2_5 (mkPolynomial [3; 4]) (mkPolynomial [1; 2])
           NewMultiplier_2_5 eq_refl eq_refl).
Defined.

(** X23 ([naive], [Karatsuba], [Polynomial.Mod]; the assertion of
    [testKaratsuba]): for every positive modulus and all inputs of the same
    power-of-two length [N >= 2], the oracle and [Karatsuba] return and are
    equal after [Mod(q)]. *)
Theorem test_Karatsuba_assertion (w : nat) (q : Z) (x y : Polynomial) :
  0 < q -> Deg x = (2 ^ S w)%nat -> Deg y = (2 ^ S w)%nat ->
  exists nv karat, naive x y q = Ret nv /\ Karatsuba x y = Ret karat /\
                   Mod_ nv q = Mod_ karat q.
Proof.
  intros Hq Hx Hy.
  destruct (naive_spec x y q (S w) ltac:(lia) Hx Hy) as (nv & E & HL & Hc).
  rewrite (Karatsuba_correct w x y Hx Hy).
  exists nv. eexists. split; [exact E|]. split; [reflexivity|].
  apply Mod_eq_of_cong; [exact Hq| |].
  - unfold Deg in *. cbn [Coeffs]. rewrite length_reference_convolution. lia.
  - intros k Hk. cbn [Coeffs]. apply Hc. lia.
Qed.

Lemma test_Karatsuba_assertion_witness :
  exists nv karat, naive (mkPolynomial [3; 4]) (mkPolynomial [1; 2]) 5 = Ret nv /\
                   Karatsuba (mkPolynomial [3; 4]) (mkPolynomial [1; 2]) = Ret karat /\
                   Mod_ nv 5 = Mod_ karat 5.
Proof.
  apply (test_Karatsuba_assertion 0 5 (mkPolynomial [3; 4]) (mkPolynomial [1; 2]));
    reflexivity.
Defined.

(** X24 ([Karatsuba], [CRTMultiplier.Mul], [Polynomial.Mod]; the assertion
    of [testNTTCRTMedium]): for a CRT multiplier built by
    [NewCRTMultiplier] with [N >= 2] and all inputs of length [N],
    [Karatsuba] and [CRTMultiplier.Mul] return and are equal after
    [Mod(PQ)]. *)
Theorem test_CRT_assertion (candsP candsQ : list Z) (w : nat) (p q : Z)
        (m : CRTMultiplier) (x y : Polynomial) :
  NewCRTMultiplier candsP candsQ (2 ^ S w) p q = Ret m ->
  Deg x = (2 ^ S w)%nat -> Deg y = (2 ^ S w)%nat ->
  exists naivePQ nttPQ, Karatsuba x y = Ret naivePQ /\ CRTMultiplier_Mul m x y = Ret nttPQ /\
                        Mod_ nttPQ (PQ m) = Mod_ naivePQ (PQ m).
Proof.
  intros Hnew Hx Hy.
  destruct (NewCRTMultiplier_Ret _ _ _ _ _ _ Hnew)
    as (HP & HQ & Hp & Hq & Hne & HPQ & Hinv).
  destruct (CRTMultiplier_Mul_spec _ _ _ _ _ m x y Hnew Hx Hy) as (_ & _ & E).
  rewrite E, (Karatsuba_correct w x y Hx Hy).
  do 2 eexists. split; [reflexivity|]. split; [reflexivity|].
  rewrite HPQ.
  pose proof (Z.prime_ge_2 p Hp). pose proof (Z.prime_ge_2 q Hq).
  apply Mod_eq_of_cong; [nia| |].
  - unfold Deg. cbn [Coeffs]. now rewrite length_map.
  - intros k Hk. unfold Deg in Hk. cbn [Coeffs] in *. rewrite length_map in Hk.
    rewrite nth_map_Z by exact Hk.
    destruct (garner_cong p q (nth k (reference_convolution (Coeffs x) (Coeffs y)) 0 mod p)
                (nth k (reference_convolution (Coeffs x) (Coeffs y)) 0 mod q) Hp Hq Hne)
      as [Gp Gq].
    apply cong_product; try assumption.
    + rewrite Gp. apply cong_mod.
    + rewrite Gq. apply cong_mod.
Qed.

Lemma test_CRT_assertion_witness :
  exists naivePQ nttPQ,
    Karatsuba (mkPolynomial [7; 0]) (mkPolynomial [1; 0]) = Ret naivePQ /\
    CRTMultiplier_Mul crt_2_5_13 (mkPolynomial [7; 0]) (mkPolynomial [1; 0]) = Ret nttPQ /\
    Mod_ nttPQ (PQ crt_2_5_13) = Mod_ naivePQ (PQ crt_2_5_13).
Proof.
  exact (test_CRT_assertion [4; 3] [5] 0 5 13 crt_2_5_13 (mkPolynomial [7; 0])
           (mkPolynomial [1; 0]) NewCRTMultiplier_2_5_13 eq_refl eq_refl).
Defined.

(** ** [normInfinite] and [ZMultiplier.Mul], continued *)

Lemma normInfinite_attained (l : list Z) (acc : Z) :
  let r := fold_left (fun norm val => if Z.abs norm <? Z.abs val then Z.abs val else norm)
                     l acc in
  r = acc \/ exists v, In v l /\ r = Z.abs v.
Proof.
  revert acc. induction l as [|v l IH]; intros acc; cbn zeta.
  - left. reflexivity.
  - cbn [fold_left].
    destruct (Z.abs acc <? Z.abs v).
    + destruct (IH (Z.abs v)) as [H|(u & Hu & H)]; cbn zeta in H; right.
      * exists v. split; [now left | exact H].
      * exists u. split; [now right | exact H].
    + destruct (IH acc) as [H|(u & Hu & H)]; cbn zeta in H; [now left | right].
      exists u. split; [now right | exact H].
Qed.

(** X25 ([normInfinite]): [normInfinite(pol)] is the largest absolute value
    of a coefficient of [pol]: it bounds every coefficient, it is attained
    by one of them when there is one, and it is [0] on the empty
    polynomial. *)
Theorem normInfinite_is_max (pol : Polynomial) :
  (forall i, Z.abs (nth i (Coeffs pol) 0) <= normInfinite pol) /\
  (Deg pol = O -> normInfinite pol = 0) /\
  ((0 < Deg pol)%nat ->
   exists i, (i < Deg pol)%nat /\ normInfinite pol = Z.abs (nth i (Coeffs pol) 0)).
Proof.
  split; [intros i; apply normInfinite_bound|]. split.
  - unfold Deg, normInfinite. destruct (Coeffs pol); [reflexivity|discriminate].
  - intros Hpos. unfold Deg in *.
    destruct (normInfinite_attained (Coeffs pol) 0) as [H|(v & Hv & H)];
      cbn zeta in H; fold (normInfinite pol) in H.
    + exists O. split; [exact Hpos|].
      pose proof (normInfinite_bound pol 0). lia.
    + destruct (In_nth _ _ 0 Hv) as (i & Hi & <-). eauto.
Qed.

(** X26 ([ZMultiplier.Mul], [Karatsuba]): on inputs of power-of-two length
    [N >= 2], whenever the two searches of [ZMultiplier.Mul] return, the
    call returns what [Karatsuba] returns: the product over the integers,
    computed once through a prime field and once by recursion. *)
Theorem ZMultiplier_Mul_agrees_with_Karatsuba (fuel : nat) (cands : list Z) (w : nat)
        (zm : ZMultiplier) (x y : Polynomial) (q g : Z) :
  NewZMultiplier (2 ^ S w) = Ret zm ->
  Deg x = (2 ^ S w)%nat -> Deg y = (2 ^ S w)%nat ->
  next_prime fuel (Z.of_nat (2 * 2 ^ S w) * normInfinite x * normInfinite y + 1)
             (Z.of_nat (2 * 2 ^ S w)) = Ret q ->
  FindPrimitiveRootOfUnity cands (2 * 2 ^ S w) q = Ret g ->
  ZMultiplier_Mul fuel cands zm x y = Karatsuba x y.
Proof.
  intros Hzm Hx Hy Hq Hg.
  rewrite (ZMultiplier_Mul_returns fuel cands _ zm x y q g Hzm Hx Hy Hq Hg).
  now rewrite (Karatsuba_correct w x y Hx Hy).
Qed.

Lemma ZMultiplier_Mul_agrees_with_Karatsuba_witness :
  ZMultiplier_Mul 5 [12] (mkZMultiplier 2) (mkPolynomial [1; 2]) (mkPolynomial [3; -1]) =
  Karatsuba (mkPolynomial [1; 2]) (mkPolynomial [3; -1]).
Proof.
  exact (ZMultiplier_Mul_agrees_with_Karatsuba 5 [12] 0 (mkZMultiplier 2)
           (mkPolynomial [1; 2]) (mkPolynomial [3; -1]) 29 12
           eq_refl eq_refl eq_refl eq_refl eq_refl).
Defined.

(** ** [RLWEPrime] *)

Lemma bits_Len_bounds (n : Z) :
  0 < n -> 2 ^ (bits_Len n - 1) <= n < 2 ^ bits_Len n /\ 1 <= bits_Len n.
Proof.
  intros Hn. unfold bits_Len.
  destruct (Z.eqb_spec n 0); [lia|].
  pose proof (Z.log2_spec n Hn) as H. pose proof (Z.log2_nonneg n).
  replace (Z.log2 n + 1 - 1) with (Z.log2 n) by ring.
  replace (Z.log2 n + 1) with (Z.succ (Z.log2 n)) by ring. lia.
Qed.

Lemma RLWEPrime_Ret (fuel : nat) (b n q : Z) :
  RLWEPrime fuel b n = Ret q ->
  let nbits := wrap_int (b - bits_Len (uint n)) in
  0 <= nbits /\ Z.prime q /\ exists k, 0 <= k /\ q = 2 ^ nbits * n + 1 + k * n.
Proof.
  unfold RLWEPrime. cbn zeta.
  destruct (Z.ltb_spec (wrap_int (b - bits_Len (uint n))) 0) as [Hneg|Hnb];
    [discriminate|].
  intros H. apply next_prime_Ret in H. destruct H as (Hp & k & Hk & ->).
  split; [assumption|]. split; [now apply ProbablyPrime_spec|]. eauto.
Qed.

(** X27 ([RLWEPrime]; the assertions of [testRLWE]): for a dimension
    [0 < n < 2^63], whatever [RLWEPrime(bitLen, n)] returns is a prime [q]
    with [q = 1 (mod n)] and at least [bitLen] bits. *)
Theorem RLWEPrime_spec (fuel : nat) (b n q : Z) :
  0 < n < 2 ^ 63 -> int_range b ->
  RLWEPrime fuel b n = Ret q ->
  Z.prime q /\ (n | q - 1) /\ b <= bitLen q.
Proof.
  intros Hn Hb H. apply RLWEPrime_Ret in H. cbn zeta in H.
  destruct H as (Hnb & Hp & k & Hk & Hq).
  split; [exact Hp|]. split.
  - exists (2 ^ wrap_int (b - bits_Len (uint n)) + k). rewrite Hq. ring.
  - pose proof (Z.prime_ge_2 q Hp) as Hq2.
    unfold bitLen. destruct (Z.eqb_spec q 0); [lia|].
    rewrite Z.abs_eq by lia.
    destruct (Z.le_gt_cases b 1) as [Hb1|Hb1].
    { pose proof (Z.log2_nonneg q). assert (1 <= Z.log2 q); [|lia].
      apply Z.log2_le_pow2; lia. }
    assert (Hu : uint n = n) by (unfold uint; apply Z.mod_small; lia).
    rewrite Hu in *.
    destruct (bits_Len_bounds n ltac:(lia)) as [[HL1 HL2] HL3].
    assert (HL64 : bits_Len n <= 63).
    { destruct (Z.le_gt_cases (bits_Len n) 63) as [|Hgt]; [assumption|].
      assert (2 ^ 63 <= 2 ^ (bits_Len n - 1)) by (apply Z.pow_le_mono_r; lia). lia. }
    unfold int_range in Hb.
    rewrite wrap_int_id in Hq, Hnb by (unfold int_range; lia).
    assert (Hpow : 2 ^ (b - 1) <= 2 ^ (b - bits_Len n) * 2 ^ (bits_Len n - 1)).
    { rewrite <- Z.pow_add_r by lia. apply Z.pow_le_mono_r; lia. }
    assert (0 < 2 ^ (b - bits_Len n)) by (apply Z.pow_pos_nonneg; lia).
    assert (Hlow : 2 ^ (b - 1) <= q) by nia.
    assert (b - 1 <= Z.log2 q); [|lia].
    apply Z.log2_le_pow2; lia.
Qed.

Lemma RLWEPrime_spec_witness :
  Z.prime 17 /\ (8 | 17 - 1) /\ 4 <= bitLen 17.
Proof.
  apply (RLWEPrime_spec 10 4 8 17); [lia | unfold int_range; lia | reflexivity].
Defined.

(** X28 ([RLWEPrime]): for a dimension [n <= 0] the call never returns a
    value: every candidate [2^nbits * n + 1 + k * n] is at most [1], so the
    call panics on the bit length or searches for ever. *)
Theorem RLWEPrime_nonpositive_dimension (fuel : nat) (b n q : Z) :
  n <= 0 -> RLWEPrime fuel b n <> Ret q.
Proof.
  intros Hn H. apply RLWEPrime_Ret in H. cbn zeta in H.
  destruct H as (Hnb & Hp & k & Hk & Hq).
  pose proof (Z.prime_ge_2 q Hp).
  assert (0 < 2 ^ wrap_int (b - bits_Len (uint n))) by (apply Z.pow_pos_nonneg; lia).
  nia.
Qed.

Lemma RLWEPrime_nonpositive_dimension_witness : RLWEPrime 10 3 0 <> Ret 1.
Proof. apply (RLWEPrime_nonpositive_dimension 10 3 0 1). lia. Defined.

(** X29 ([RLWEPrime], [NewMultiplier]): a prime returned by
    [RLWEPrime(bitLen, 2N)] passes the three checks of [NewMultiplier(N, q)];
    the multiplier is built as soon as the root search meets a primitive
    [2N]-th root of unity. *)
Theorem RLWEPrime_NewMultiplier (fuel : nat) (b : Z) (w : nat) (q g : Z) (cands : list Z) :
  RLWEPrime fuel b (Z.of_nat (2 * 2 ^ w)) = Ret q ->
  In g cands -> isPrimitiveRoot (2 * 2 ^ w) q g = true ->
  exists mul, NewMultiplier cands (2 ^ w) q = Ret mul.
Proof.
  intros H Hin Hg. apply RLWEPrime_Ret in H. cbn zeta in H.
  destruct H as (Hnb & Hp & k & Hk & Hq).
  apply (NewMultiplier_returns cands w q g Hp); [|exact Hin|exact Hg].
  pose proof (pow2_pos w) as Hw.
  set (n := Z.of_nat (2 * 2 ^ w)) in *.
  assert (Hn : 2 <= n) by (unfold n; lia).
  symmetry. apply (Z.mod_unique q n (2 ^ wrap_int (b - bits_Len (uint n)) + k) 1); lia.
Qed.

Lemma RLWEPrime_NewMultiplier_witness :
  exists mul, NewMultiplier [4; 3] (2 ^ 1) 5 = Ret mul.
Proof.
  apply (RLWEPrime_NewMultiplier 10 3 1 5 3 [4; 3]).
  - reflexivity.
  - right. left. reflexivity.
  - reflexivity.
Defined.

(** ** [ZO] *)

(** The entry that [ZO] writes for the two bits at position [2 * i] of the
    byte [b]: [01] gives [1], [10] gives [-1], [00] and [11] give [0]. *)
Definition ZO_decode (b : Z) (i : nat) : Z :=
  let bits := Z.land (Z.shiftr b (2 * Z.of_nat i)) 3 in
  if bits =? 1 then 1 else if bits =? 2 then -1 else 0.

Lemma ZO_bits_spec (i : nat) (b : Z) (idx : nat) (vec : list Z) :
  (idx < length vec)%nat -> nth idx vec 0 = 0 ->
  exists vec', ZO_bits i (b, idx, vec) = Ret (Z.shiftr b 2, S idx, vec') /\
    length vec' = length vec /\
    nth idx vec' 0 = ZO_decode b 0 /\
    forall k, k <> idx -> nth k vec' 0 = nth k vec 0.
Proof.
  intros Hidx Hz. unfold ZO_bits, ZO_decode.
  change (2 * Z.of_nat 0) with 0. rewrite Z.shiftr_0_r.
  destruct (Z.eqb_spec (Z.land b 3) 1) as [E1|E1].
  - rewrite store_Ret by exact Hidx. cbn [bind].
    rewrite E1. cbn [Z.eqb Pos.eqb bind].
    eexists. split; [reflexivity|]. split; [apply length_upd|]. split.
    + now apply nth_upd_eq.
    + intros k Hk. now apply nth_upd_ne.
  - cbn [bind]. destruct (Z.eqb_spec (Z.land b 3) 2) as [E2|E2].
    + rewrite store_Ret by exact Hidx. cbn [bind].
      eexists. split; [reflexivity|]. split; [apply length_upd|]. split.
      * now apply nth_upd_eq.
      * intros k Hk. now apply nth_upd_ne.
    + cbn [bind]. exists vec. repeat split; auto.
Qed.

Lemma ZO_decode_shift (b : Z) (c : nat) :
  ZO_decode (Z.shiftr b (2 * Z.of_nat c)) 0 = ZO_decode b c.
Proof.
  unfold ZO_decode. change (2 * Z.of_nat 0) with 0. now rewrite Z.shiftr_0_r.
Qed.

Lemma ZO_byte_spec (bytes : list Z) (k : nat) (idx : nat) (vec : list Z) :
  (k < length bytes)%nat -> (idx + 4 <= length vec)%nat ->
  (forall x, (idx <= x)%nat -> nth x vec 0 = 0) ->
  exists vec', ZO_byte bytes k (idx, vec) = Ret ((idx + 4)%nat, vec') /\
    length vec' = length vec /\
    (forall i, (i < 4)%nat -> nth (idx + i) vec' 0 = ZO_decode (nth k bytes 0) i) /\
    (forall x, ~ (idx <= x < idx + 4)%nat -> nth x vec' 0 = nth x vec 0).
Proof.
  intros Hk Hlen Hz. unfold ZO_byte.
  rewrite index_Ret by exact Hk. cbn [bind].
  set (b := nth k bytes 0).
  destruct (for_loop_inv
    (fun c (st : Z * nat * list Z) =>
       let '(b', idx', vec') := st in
       b' = Z.shiftr b (2 * Z.of_nat c) /\ idx' = (idx + c)%nat /\
       length vec' = length vec /\
       (forall i, (i < c)%nat -> nth (idx + i) vec' 0 = ZO_decode b i) /\
       (forall x, ~ (idx <= x < idx + c)%nat -> nth x vec' 0 = nth x vec 0))
    4 O ZO_bits (b, idx, vec)) as ([[b' idx'] vec'] & E & Hb' & Hidx' & HL & Hin & Hout).
  - split; [now rewrite Z.shiftr_0_r|]. split; [lia|]. split; [reflexivity|].
    split; intros; [lia | reflexivity].
  - intros c [[b1 idx1] vec1] Hc (-> & -> & HL & Hin & Hout). rewrite Nat.add_0_l.
    destruct (ZO_bits_spec c (Z.shiftr b (2 * Z.of_nat c)) (idx + c) vec1)
      as (vec2 & E2 & HL2 & Hnew & Hold).
    + lia.
    + rewrite Hout by lia. apply Hz. lia.
    + exists (Z.shiftr (Z.shiftr b (2 * Z.of_nat c)) 2, S (idx + c), vec2).
      split; [exact E2|]. split; [|split; [lia|split; [lia|split]]].
      * rewrite Z.shiftr_shiftr by lia. f_equal. lia.
      * intros i Hi. destruct (Nat.eq_dec i c) as [->|Hne].
        -- rewrite Hnew. apply ZO_decode_shift.
        -- rewrite Hold by lia. apply Hin. lia.
      * intros x Hx. rewrite Hold by lia. apply Hout. lia.
  - rewrite E. cbn [bind]. subst idx'. exists vec'.
    split; [reflexivity|]. split; [exact HL|]. split; [exact Hin|exact Hout].
Qed.

(** X30 ([ZO]): for [rho = .5] and [dim >= 0], [ZO] returns a vector of
    length [dim] whose entry [k], for [k < 4 * (dim / 4)], is decoded from
    two bits of the byte [k / 4] of the generator, and whose last
    [dim mod 4] entries are always [0]: only [dim / 4] bytes are drawn. *)
Theorem ZO_spec (rnd : nat -> Z) (dim : Z) (rho : Q) :
  Qeq_bool rho (1 # 2) = true -> 0 <= dim ->
  exists vec, ZO rnd dim rho = Ret (mkVector vec) /\
    Z.of_nat (length vec) = dim /\
    (forall k, Z.of_nat k < 4 * (dim / 4) ->
       nth k vec 0 = ZO_decode (rnd (k / 4)%nat mod 256) (k mod 4)) /\
    (forall k, 4 * (dim / 4) <= Z.of_nat k -> nth k vec 0 = 0).
Proof.
  intros Hrho Hdim. unfold ZO. rewrite Hrho. cbn [negb].
  destruct (Z.ltb_spec dim 0) as [|_]; [lia|].
  rewrite Z.quot_div_nonneg by lia.
  rewrite repeat_length.
  set (nb := Z.to_nat (dim / 4)).
  set (n := Z.to_nat dim).
  set (bytes := map (fun k => rnd k mod 256) (seq 0 nb)).
  assert (Hbytes : length bytes = nb) by (unfold bytes; now rewrite length_map, length_seq).
  rewrite Hbytes.
  assert (Hnb : (4 * nb <= n)%nat).
  { unfold nb, n. pose proof (Z.mul_div_le dim 4 ltac:(lia)).
    pose proof (Z.div_pos dim 4 ltac:(lia) ltac:(lia)). lia. }
  destruct (for_loop_inv
    (fun c (st : nat * list Z) =>
       fst st = (4 * c)%nat /\ length (snd st) = n /\
       (forall k, (k < 4 * c)%nat ->
          nth k (snd st) 0 = ZO_decode (nth (k / 4) bytes 0) (k mod 4)) /\
       (forall k, (4 * c <= k)%nat -> nth k (snd st) 0 = 0))
    nb O (ZO_byte bytes) (O, repeat 0 n)) as ([idx vec] & E & _ & HL & Hin & Hout).
  - cbn [fst snd]. split; [lia|]. split; [apply repeat_length|].
    split; [intros; lia|].
    intros k _. destruct (Nat.lt_ge_cases k n).
    + now apply nth_repeat_lt.
    + apply nth_overflow. now rewrite repeat_length.
  - intros c [idx vec] Hc (Hidx & HL & Hin & Hout). cbn [fst snd] in *. subst idx.
    rewrite Nat.add_0_l.
    destruct (ZO_byte_spec bytes c (4 * c) vec) as (vec' & E' & HL' & Hin' & Hout').
    + lia.
    + lia.
    + exact Hout.
    + exists ((4 * c + 4)%nat, vec'). split; [exact E'|]. cbn [fst snd].
      split; [lia|]. split; [lia|]. split.
      * intros k Hk. destruct (Nat.lt_ge_cases k (4 * c)) as [Hlt|Hge].
        -- rewrite Hout' by lia. now apply Hin.
        -- replace k with (4 * c + (k - 4 * c))%nat at 1 by lia.
           rewrite Hin' by lia.
           assert (Hdiv : (k / 4 = c)%nat).
           { symmetry. apply (Nat.div_unique k 4 c (k - 4 * c)); lia. }
           assert (Hmod : (k mod 4 = k - 4 * c)%nat).
           { symmetry. apply (Nat.mod_unique k 4 c (k - 4 * c)); lia. }
           now rewrite Hdiv, Hmod.
      * intros k Hk. rewrite Hout' by lia. apply Hout. lia.
  - cbn [fst snd] in *. rewrite E. cbn [bind].
    exists vec. split; [reflexivity|].
    assert (Hnb4 : Z.of_nat (4 * nb) = 4 * (dim / 4)).
    { unfold nb. pose proof (Z.div_pos dim 4 ltac:(lia) ltac:(lia)). lia. }
    split; [unfold n in HL; lia|]. split.
    + intros k Hk. rewrite Hin by lia. f_equal.
      assert (Hk4 : (k / 4 < nb)%nat).
      { apply Nat.Div0.div_lt_upper_bound. lia. }
      unfold bytes. now rewrite nth_map_seq by exact Hk4.
    + intros k Hk. apply Hout. lia.
Qed.

Lemma ZO_spec_witness :
  exists vec, ZO (fun _ => 27) 7 (1 # 2) = Ret (mkVector vec) /\
    Z.of_nat (length vec) = 7 /\
    (forall k, Z.of_nat k < 4 * (7 / 4) ->
       nth k vec 0 = ZO_decode ((fun _ => 27) (k / 4)%nat mod 256) (k mod 4)) /\
    (forall k, 4 * (7 / 4) <= Z.of_nat k -> nth k vec 0 = 0).
Proof. apply (ZO_spec (fun _ => 27) 7 (1 # 2)); [reflexivity | lia]. Defined.
